(** * Invertible layers of a Glow-style normalizing flow

    A shallow embedding of [invertible_layers.py]: the [Layer] protocol
    ([forward_and_jacobian] / [reverse_and_jacobian]), the permutation,
    squeeze, prior, coupling and normalization layers, and the assembly
    classes [RevNetStep], [RevNet] and [Codec].

    Conventions of the embedding.
    - A tensor is its size together with its elements in row-major order.
      Floating-point numbers are idealised as real numbers.  The real
      functions [ln] and [Rpower] stand for [torch.log] and [**] on
      positive arguments only: where the source computes an infinity or
      a nan (the logarithm of zero), they return some real number, and a
      property of such a value is stated under the premise that the
      argument is positive.
    - Python exceptions are values of [Py.exn]; a method that can raise
      returns a [Py.result].
    - Tensors that the source mutates in place through views live in a
      store (module [Store]); everything else is passed by value. *)

From Stdlib Require Import String.
From Stdlib Require Import List Arith Lia Bool.
From Stdlib Require Import Reals Lra Permutation.
Import ListNotations.

Set Warnings "-register-all".

(* ------------------------------------------------------------------ *)
(** * Python results and exceptions *)

Module Py.

Inductive exn : Type :=
| NotImplementedError
| TypeError
| NameError
| ValueError
| AssertionError
| RuntimeError
| IndexError
| AttributeError.

Inductive result (A : Type) : Type :=
| Ok (a : A)
| Raise (e : exn).

Arguments Ok {A} a.
Arguments Raise {A} e.

Definition bind {A B} (m : result A) (k : A -> result B) : result B :=
  match m with
  | Ok a => k a
  | Raise e => Raise e
  end.

Definition assert (b : bool) : result unit :=
  if b then Ok tt else Raise AssertionError.

(** [raise_unless b e]: the guard [if not b: raise e]. *)
Definition raise_unless (b : bool) (e : exn) : result unit :=
  if b then Ok tt else Raise e.

Definition of_option {A} (o : option A) (e : exn) : result A :=
  match o with
  | Some a => Ok a
  | None => Raise e
  end.

(** Sequencing a list of fallible computations, left to right. *)
Fixpoint mapM {A B} (f : A -> result B) (l : list A) : result (list B) :=
  match l with
  | [] => Ok []
  | a :: l' =>
      bind (f a) (fun b => bind (mapM f l') (fun bs => Ok (b :: bs)))
  end.

End Py.

Import Py.

Declare Scope py_scope.
Delimit Scope py_scope with py.
Notation "x <- m ;; k" := (Py.bind m (fun x => k))
  (at level 61, m at next level, right associativity) : py_scope.
Notation "' p <- m ;; k" := (Py.bind m (fun x => let p := x in k))
  (at level 61, p pattern, m at next level, right associativity) : py_scope.
Notation "m ;;; k" := (Py.bind m (fun _ => k))
  (at level 61, right associativity) : py_scope.
Open Scope py_scope.

(* ------------------------------------------------------------------ *)
(** * Classes, [super().__init__()] and names *)

Module PyClass.

Inductive cls : Type :=
| object
| nn_Module
| nn_ConvNd
| nn_Conv2d
| nn_BatchNorm
| Layer
| LayerList
| Shuffle
| Reverse
| Invertible1x1Conv
| Squeeze
| Split
| GaussianPrior
| AdditiveCoupling
| AffineCoupling
| ActNorm
| BatchNorm
| RevNetStep
| RevNet
| Codec.

(** The method resolution order of each class, as the linearisation of
    its bases gives it. *)
Definition mro (c : cls) : list cls :=
  match c with
  | object => [object]
  | nn_Module => [nn_Module; object]
  | nn_ConvNd => [nn_ConvNd; nn_Module; object]
  | nn_Conv2d => [nn_Conv2d; nn_ConvNd; nn_Module; object]
  | nn_BatchNorm => [nn_BatchNorm; nn_Module; object]
  | Layer => [Layer; nn_Module; object]
  | LayerList => [LayerList; Layer; nn_Module; object]
  | Shuffle => [Shuffle; Layer; nn_Module; object]
  | Reverse => [Reverse; Shuffle; Layer; nn_Module; object]
  | Invertible1x1Conv =>
      [Invertible1x1Conv; Layer; nn_Conv2d; nn_ConvNd; nn_Module; object]
  | Squeeze => [Squeeze; Layer; nn_Module; object]
  | Split => [Split; Squeeze; Layer; nn_Module; object]
  | GaussianPrior => [GaussianPrior; Layer; nn_Module; object]
  | AdditiveCoupling => [AdditiveCoupling; Layer; nn_Module; object]
  | AffineCoupling => [AffineCoupling; Layer; nn_Module; object]
  | ActNorm => [ActNorm; Layer; nn_Module; object]
  | BatchNorm => [BatchNorm; Layer; nn_BatchNorm; nn_Module; object]
  | RevNetStep => [RevNetStep; LayerList; Layer; nn_Module; object]
  | RevNet => [RevNet; LayerList; Layer; nn_Module; object]
  | Codec => [Codec; LayerList; Layer; nn_Module; object]
  end.

Definition cls_eqb (a b : cls) : bool :=
  match a, b with
  | object, object | nn_Module, nn_Module | nn_ConvNd, nn_ConvNd
  | nn_Conv2d, nn_Conv2d | nn_BatchNorm, nn_BatchNorm | Layer, Layer
  | LayerList, LayerList | Shuffle, Shuffle | Reverse, Reverse
  | Invertible1x1Conv, Invertible1x1Conv | Squeeze, Squeeze
  | Split, Split | GaussianPrior, GaussianPrior
  | AdditiveCoupling, AdditiveCoupling | AffineCoupling, AffineCoupling
  | ActNorm, ActNorm | BatchNorm, BatchNorm | RevNetStep, RevNetStep
  | RevNet, RevNet | Codec, Codec => true
  | _, _ => false
  end.

(** The classes that follow [c] in a resolution order. *)
Fixpoint after (c : cls) (order : list cls) : list cls :=
  match order with
  | [] => []
  | c' :: rest => if cls_eqb c c' then rest else after c rest
  end.

(** [__init__] reached with no argument besides [self], along the
    resolution order: [Layer.__init__] and [LayerList.__init__] take
    none and pass the call on with [super()]; [nn.Module.__init__]
    takes none; the remaining classes require positional arguments, and
    calling them without is a [TypeError]. *)
Fixpoint init_noargs (order : list cls) : result unit :=
  match order with
  | [] => Ok tt
  | c :: rest =>
      match c with
      | Layer | LayerList => init_noargs rest
      | nn_Module | object => Ok tt
      | _ => Raise TypeError
      end
  end.

(** [super(c, self).__init__()] for an instance of class [self_cls]. *)
Definition super_init (c self_cls : cls) : result unit :=
  init_noargs (after c (mro self_cls)).

(** Looking a bare name up among the names in scope. *)
Definition load_name {T} (scope : list (string * T)) (name : string)
  : result T :=
  match find (fun p => String.eqb (fst p) name) scope with
  | Some p => Ok (snd p)
  | None => Raise NameError
  end.

(** The names bound at module level.
    Modelled from the spec: the modules [layers] and [utils], whose
    names the file imports wholesale, are not among the sources.  The
    spec lists what they contribute: the differentiable function of the
    coupling layers ([NN]), the zero-initialised convolution
    ([Conv2dZeroInit]) and the diagonal Gaussian prior
    ([gaussian_diag]).  The other names are the imports and the classes
    of the file itself. *)
Definition module_globals : list string :=
  ["torch"; "nn"; "F"; "wn"; "_BatchNorm"; "np"; "pdb";
   "NN"; "Conv2dZeroInit"; "gaussian_diag";
   "Layer"; "LayerList"; "Shuffle"; "Reverse"; "Invertible1x1Conv";
   "Squeeze"; "Split"; "GaussianPrior"; "AdditiveCoupling";
   "AffineCoupling"; "ActNorm"; "BatchNorm"; "RevNetStep"; "RevNet";
   "Codec"]%string.

(** Resolving a bare name that a method body uses as a global. *)
Definition load_global (name : string) : result unit :=
  if existsb (String.eqb name) module_globals then Ok tt
  else Raise NameError.

End PyClass.

(* ------------------------------------------------------------------ *)
(** * Tensors: a size and the elements in row-major order *)

Class Default (A : Type) : Type := default : A.

#[global] Instance Default_nat : Default nat := 0.
#[global] Instance Default_R : Default R := 0%R.

Module Tensor.

Record tensor (A : Type) : Type := mk { size : list nat; data : list A }.

Arguments mk {A} size data.
Arguments size {A} t.
Arguments data {A} t.

Definition numel (sh : list nat) : nat := fold_right Nat.mul 1 sh.

(** A tensor is well formed when it holds as many elements as its size
    announces. *)
Definition wf {A} (t : tensor A) : Prop :=
  length (data t) = numel (size t).

(** Row-major offset of a multi-index, and its inverse. *)
Fixpoint ravel (sh idx : list nat) : nat :=
  match sh, idx with
  | _ :: sh', i :: idx' => i * numel sh' + ravel sh' idx'
  | _, _ => 0
  end.

Fixpoint unravel (sh : list nat) (n : nat) : list nat :=
  match sh with
  | [] => []
  | _ :: sh' => (n / numel sh') :: unravel sh' (n mod numel sh')
  end.

Definition in_range (sh idx : list nat) : Prop := Forall2 lt idx sh.

Section Elements.
Context {A : Type} `{Default A}.

Definition get (t : tensor A) (idx : list nat) : A :=
  nth (ravel (size t) idx) (data t) default.

Definition tabulate (sh : list nat) (f : list nat -> A) : tensor A :=
  mk sh (map (fun n => f (unravel sh n)) (seq 0 (numel sh))).

Definition full (sh : list nat) (v : A) : tensor A :=
  mk sh (repeat v (numel sh)).

(** Applying a function to every element (an operation between a
    tensor and a Python scalar, or a unary torch function). *)
Definition pointwise (f : A -> A) (t : tensor A) : tensor A :=
  mk (size t) (List.map f (data t)).

End Elements.

End Tensor.

Import Tensor.

(* ------------------------------------------------------------------ *)
(** * Strided views

    [transpose] and [permute] return views that share the storage of
    their argument and only rearrange sizes and strides; [contiguous]
    copies when the layout is not row-major; [view] never copies and
    raises when the requested size cannot be expressed with the strides at
    hand, whereas [reshape] falls back to a copy. *)

Module Strided.

Record view (A : Type) : Type :=
  mkv { sizes : list nat; strides : list nat; storage : list A }.

Arguments mkv {A} sizes strides storage.
Arguments sizes {A} v.
Arguments strides {A} v.
Arguments storage {A} v.

(** Strides of a row-major layout. *)
Fixpoint contiguous_strides (sh : list nat) : list nat :=
  match sh with
  | [] => []
  | _ :: sh' => fold_right (fun n acc => Nat.max n 1 * acc) 1 sh'
                :: contiguous_strides sh'
  end.

Fixpoint offset (st idx : list nat) : nat :=
  match st, idx with
  | s :: st', i :: idx' => i * s + offset st' idx'
  | _, _ => 0
  end.

(** [is_contiguous]: walking from the innermost dimension, every
    dimension of size other than one has the row-major stride. *)
Fixpoint is_contiguous_from (rdims : list (nat * nat)) (expected : nat)
  : bool :=
  match rdims with
  | [] => true
  | (sz, st) :: rest =>
      if sz =? 1 then is_contiguous_from rest expected
      else (st =? expected) && is_contiguous_from rest (expected * sz)
  end.

Definition swap_nth {B} (d0 d1 : nat) (l : list B) : result (list B) :=
  match nth_error l d0, nth_error l d1 with
  | Some a, Some b =>
      Ok (List.map (fun '(i, x) =>
                 if i =? d0 then b else if i =? d1 then a else x)
               (combine (seq 0 (length l)) l))
  | _, _ => Raise IndexError
  end.

Definition is_permutation_of_dims (n : nat) (dims : list nat) : bool :=
  (length dims =? n)
  && forallb (fun d => existsb (Nat.eqb d) dims) (seq 0 n).

(** The size asked of [view] or [reshape]; [None] stands for the
    inferred entry [-1]. *)
Definition infer_size (n : nat) (spec : list (option nat))
  : result (list nat) :=
  let known :=
    fold_right (fun o acc => match o with Some k => k * acc | None => acc end)
               1 spec in
  let unknowns :=
    List.length (filter (fun o => match o with None => true | _ => false end)
                        spec) in
  match unknowns with
  | 0 => if known =? n
         then Ok (List.map (fun o => match o with Some k => k | None => 0 end)
                           spec)
         else Raise RuntimeError
  | 1 => if (known =? 0) || negb (n mod known =? 0)
         then Raise RuntimeError
         else Ok (List.map (fun o => match o with
                                     | Some k => k
                                     | None => n / known
                                     end) spec)
  | _ => Raise RuntimeError
  end.

(** The stride computation behind [view]: the dimensions of the
    argument are grouped, innermost first, into maximal chunks that are
    laid out contiguously; the requested dimensions must tile every
    chunk exactly. *)
Fixpoint fill_chunk (rview : list nat) (view_numel tensor_numel base : nat)
  (acc : list nat) : list nat * nat * list nat :=
  match rview with
  | v :: rest =>
      if (view_numel <? tensor_numel) || (v =? 1)
      then fill_chunk rest (view_numel * v) tensor_numel base
                      (view_numel * base :: acc)
      else (rview, view_numel, acc)
  | [] => ([], view_numel, acc)
  end.

Fixpoint compute_stride_loop (rold : list (nat * nat)) (rview : list nat)
  (base tensor_numel view_numel : nat) (acc : list nat)
  : option (list nat) :=
  match rold with
  | [] => match rview with [] => Some acc | _ :: _ => None end
  | (sz, _) :: rest =>
      let tensor_numel := tensor_numel * sz in
      let boundary :=
        match rest with
        | [] => true
        | (psz, pst) :: _ =>
            negb (psz =? 1) && negb (pst =? tensor_numel * base)
        end in
      if boundary then
        let '(rview', view_numel', acc') :=
          fill_chunk rview view_numel tensor_numel base acc in
        if view_numel' =? tensor_numel then
          match rest with
          | [] => compute_stride_loop rest rview' base tensor_numel
                                      view_numel' acc'
          | (_, pst) :: _ => compute_stride_loop rest rview' pst 1 1 acc'
          end
        else None
      else compute_stride_loop rest rview base tensor_numel view_numel acc
  end.

Definition compute_stride (oldsize oldstride newsize : list nat)
  : option (list nat) :=
  match oldsize with
  | [] => Some (List.map (fun _ => 1) newsize)
  | _ :: _ =>
      if numel oldsize =? 0 then
        if list_eq_dec Nat.eq_dec oldsize newsize then Some oldstride
        else Some (contiguous_strides newsize)
      else
        compute_stride_loop (rev (combine oldsize oldstride)) (rev newsize)
                            (last oldstride 1) 1 1 []
  end.

Section Elements.
Context {A : Type} `{Default A}.

Definition of_tensor (t : tensor A) : view A :=
  mkv (size t) (contiguous_strides (size t)) (data t).

Definition vget (v : view A) (idx : list nat) : A :=
  nth (offset (strides v) idx) (storage v) default.

(** The logical content of a view. *)
Definition to_tensor (v : view A) : tensor A :=
  tabulate (sizes v) (vget v).

Definition is_contiguous (v : view A) : bool :=
  (numel (sizes v) =? 0)
  || is_contiguous_from (rev (combine (sizes v) (strides v))) 1.

Definition contiguous (v : view A) : view A :=
  if is_contiguous v then v else of_tensor (to_tensor v).

Definition transpose (v : view A) (d0 d1 : nat) : result (view A) :=
  sz <- swap_nth d0 d1 (sizes v) ;;
  st <- swap_nth d0 d1 (strides v) ;;
  Ok (mkv sz st (storage v)).

Definition permute (v : view A) (dims : list nat) : result (view A) :=
  raise_unless (is_permutation_of_dims (length (sizes v)) dims)
               RuntimeError ;;;
  Ok (mkv (List.map (fun d => nth d (sizes v) 0) dims)
          (List.map (fun d => nth d (strides v) 0) dims)
          (storage v)).

Definition view_as (v : view A) (spec : list (option nat))
  : result (view A) :=
  sz <- infer_size (numel (sizes v)) spec ;;
  st <- of_option (compute_stride (sizes v) (strides v) sz) RuntimeError ;;
  Ok (mkv sz st (storage v)).

Definition reshape (v : view A) (spec : list (option nat))
  : result (view A) :=
  sz <- infer_size (numel (sizes v)) spec ;;
  match compute_stride (sizes v) (strides v) sz with
  | Some st => Ok (mkv sz st (storage v))
  | None => Ok (mkv sz (contiguous_strides sz) (data (to_tensor v)))
  end.

End Elements.

End Strided.

(* ------------------------------------------------------------------ *)
(** * Small Python helpers *)

(** Tuple unpacking [bs, c, h, w = ...]. *)
Definition unpack4 (l : list nat) : result (nat * nat * nat * nat) :=
  match l with
  | [bs; c; h; w] => Ok (bs, c, h, w)
  | _ => Raise ValueError
  end.

(** Unpacking the two results of [torch.chunk(..., 2, ...)]. *)
Definition unpack2 {B} (l : list B) : result (B * B) :=
  match l with
  | [a; b] => Ok (a, b)
  | _ => Raise ValueError
  end.

(** An array handed to a method that needs one; [e] is what the first
    use of [None] as an array raises. *)
Definition as_tensor {A} (x : option (tensor A)) (e : exn)
  : result (tensor A) :=
  of_option x e.

(* ------------------------------------------------------------------ *)
(** * Squeeze: trading space for depth *)

Module Squeeze.

Record t : Type := make { factor : nat; input_shape : list nat }.

Definition init (self_cls : PyClass.cls) (input_shape : list nat)
  (factor : nat) : result t :=
  PyClass.super_init PyClass.Squeeze self_cls ;;;
  assert (1 <? factor) ;;;
  Ok (make factor input_shape).

Definition output_shape (self : t) : result (list nat) :=
  '(bs, c, h, w) <- unpack4 (input_shape self) ;;
  Ok [bs; c * factor self * factor self; h / factor self; w / factor self].

Section Elements.
Context {A : Type} `{Default A}.

Definition squeeze_bchw (self : t) (x : tensor A) : result (tensor A) :=
  let f := factor self in
  '(bs, c, h, w) <- unpack4 (size x) ;;
  assert ((h mod f =? 0) && (w mod f =? 0)) ;;;
  x <- Strided.transpose (Strided.of_tensor x) 3 1 ;;
  let x := Strided.contiguous x in
  x <- Strided.reshape x
         [None; Some (h / f); Some f; Some (w / f); Some f; Some c] ;;
  x <- Strided.permute x [0; 1; 3; 5; 2; 4] ;;
  x <- Strided.reshape x
         [None; Some (h / f); Some (w / f); Some (c * f ^ 2)] ;;
  x <- Strided.transpose x 3 1 ;;
  Ok (Strided.to_tensor (Strided.contiguous x)).

Definition unsqueeze_bchw (self : t) (x : tensor A) : result (tensor A) :=
  let f := factor self in
  '(bs, c, h, w) <- unpack4 (size x) ;;
  assert ((4 <=? c) && (c mod 4 =? 0)) ;;;
  x <- Strided.transpose (Strided.of_tensor x) 3 1 ;;
  let x := Strided.contiguous x in
  x <- Strided.view_as x
         [None; Some h; Some w; Some (c / f ^ 2); Some f; Some f] ;;
  x <- Strided.permute x [0; 1; 4; 2; 5; 3] ;;
  x <- Strided.view_as x
         [None; Some (h * w); Some (w * f); Some (c / f ^ 2)] ;;
  x <- Strided.transpose x 3 1 ;;
  Ok (Strided.to_tensor (Strided.contiguous x)).

Definition forward_and_jacobian {O : Type} (self : t) (x : tensor A)
  (objective : O) : result (tensor A * O) :=
  raise_unless (length (size x) =? 4) NotImplementedError ;;;
  y <- squeeze_bchw self x ;;
  Ok (y, objective).

Definition reverse_and_jacobian {O : Type} (self : t) (x : tensor A)
  (objective : O) : result (tensor A * O) :=
  raise_unless (length (size x) =? 4) NotImplementedError ;;;
  y <- unsqueeze_bchw self x ;;
  Ok (y, objective).

End Elements.

End Squeeze.

(* ------------------------------------------------------------------ *)
(** * Tensor operations along one dimension *)

(** [map_at d f l] applies [f] to the entry of [l] at position [d]. *)
Fixpoint map_at (d : nat) (f : nat -> nat) (l : list nat) : list nat :=
  match d, l with
  | _, [] => []
  | 0, x :: l' => f x :: l'
  | S d', x :: l' => x :: map_at d' f l'
  end.

Fixpoint remove_at (d : nat) (l : list nat) : list nat :=
  match d, l with
  | _, [] => []
  | 0, _ :: l' => l'
  | S d', x :: l' => x :: remove_at d' l'
  end.

Fixpoint insert_at (d : nat) (k : nat) (l : list nat) : list nat :=
  match d, l with
  | 0, _ => k :: l
  | S d', x :: l' => x :: insert_at d' k l'
  | S _, [] => [k]
  end.

(** The [(start, length)] windows of [torch.chunk]: pieces of
    [ceil(n / chunks)] entries, the last one possibly shorter, and
    [chunks] empty pieces when there is nothing to split. *)
Definition chunk_bounds (n chunks : nat) : list (nat * nat) :=
  let split_size := (n + chunks - 1) / chunks in
  if split_size =? 0 then repeat (0, 0) chunks
  else
    let num := Nat.max ((n + split_size - 1) / split_size) 1 in
    List.map (fun i => (i * split_size, Nat.min split_size (n - i * split_size)))
             (seq 0 num).

Definition list_eqb (l1 l2 : list nat) : bool :=
  if list_eq_dec Nat.eq_dec l1 l2 then true else false.

Section DimOps.
Context {A : Type} `{Default A}.

(** [t.narrow(d, start, len)]. *)
Definition narrow (t : tensor A) (d start len : nat) : result (tensor A) :=
  n <- of_option (nth_error (size t) d) IndexError ;;
  raise_unless (start + len <=? n) RuntimeError ;;;
  Ok (tabulate (map_at d (fun _ => len) (size t))
               (fun idx => get t (map_at d (Nat.add start) idx))).

(** [torch.chunk(t, chunks, dim=d)]. *)
Definition chunk (t : tensor A) (chunks d : nat) : result (list (tensor A)) :=
  n <- of_option (nth_error (size t) d) IndexError ;;
  mapM (fun '(start, len) => narrow t d start len) (chunk_bounds n chunks).

(** [torch.cat([a, b], dim=d)]. *)
Definition cat2 (a b : tensor A) (d : nat) : result (tensor A) :=
  na <- of_option (nth_error (size a) d) IndexError ;;
  nb <- of_option (nth_error (size b) d) IndexError ;;
  raise_unless (list_eqb (map_at d (fun _ => 0) (size a))
                         (map_at d (fun _ => 0) (size b))) RuntimeError ;;;
  Ok (tabulate (map_at d (fun _ => na + nb) (size a))
               (fun idx => if nth d idx 0 <? na then get a idx
                           else get b (map_at d (fun c => c - na) idx))).

Fixpoint cat (ts : list (tensor A)) (d : nat) : result (tensor A) :=
  match ts with
  | [] => Raise RuntimeError
  | a :: rest =>
      match rest with
      | [] => Ok a
      | _ :: _ => r <- cat rest d ;; cat2 a r d
      end
  end.

(** The basic slice [t[:, start::step]] when [d = 1]; in general the
    same slice taken along dimension [d]. *)
Definition slice_step (t : tensor A) (d start step : nat)
  : result (tensor A) :=
  n <- of_option (nth_error (size t) d) IndexError ;;
  raise_unless (0 <? step) ValueError ;;;
  let count := if start <? n then (n - start + step - 1) / step else 0 in
  Ok (tabulate (map_at d (fun _ => count) (size t))
               (fun idx => get t (map_at d (fun c => start + c * step) idx))).

(** Indexing with a tensor of indices, [t[:, indices]] when [d = 1]. *)
Definition index_select (t : tensor A) (d : nat) (indices : list nat)
  : result (tensor A) :=
  n <- of_option (nth_error (size t) d) IndexError ;;
  raise_unless (forallb (fun i => i <? n) indices) IndexError ;;;
  Ok (tabulate (map_at d (fun _ => length indices) (size t))
               (fun idx => get t (map_at d (fun c => nth c indices 0) idx))).

(** [t.size(d)] for a possibly negative [d]. *)
Definition size_at (t : tensor A) (d : Z) : result nat :=
  let n := Z.of_nat (length (size t)) in
  let d' := if (d <? 0)%Z then (d + n)%Z else d in
  if ((0 <=? d') && (d' <? n))%Z
  then of_option (nth_error (size t) (Z.to_nat d')) IndexError
  else Raise IndexError.

(** [t.squeeze()]: every dimension of size one is dropped. *)
Definition squeeze (t : tensor A) : tensor A :=
  Tensor.mk (filter (fun n => negb (n =? 1)) (size t)) (data t).

(** [t.unsqueeze(-1)]. *)
Definition unsqueeze_last (t : tensor A) : tensor A :=
  Tensor.mk (size t ++ [1]) (data t).

(** [torch.zeros_like] and friends only need the size of their
    argument. *)
Definition full_like (t : tensor A) (v : A) : tensor A := full (size t) v.

End DimOps.

(* ------------------------------------------------------------------ *)
(** * Broadcasting *)

Fixpoint broadcast_rev (a b : list nat) : option (list nat) :=
  match a, b with
  | [], _ => Some b
  | _, [] => Some a
  | x :: a', y :: b' =>
      match broadcast_rev a' b' with
      | None => None
      | Some r =>
          if x =? y then Some (x :: r)
          else if x =? 1 then Some (y :: r)
          else if y =? 1 then Some (x :: r)
          else None
      end
  end.

Definition broadcast_shapes (a b : list nat) : option (list nat) :=
  option_map (@rev nat) (broadcast_rev (rev a) (rev b)).

(** The index of an operand that corresponds to an index of the
    broadcast result: leading dimensions are dropped and dimensions of
    size one are read at position [0]. *)
Definition bidx (sh idx : list nat) : list nat :=
  List.map (fun '(s, i) => if s =? 1 then 0 else i)
           (combine sh (skipn (length idx - length sh) idx)).

Section Broadcast.
Context {A : Type} `{Default A}.

Definition binop (f : A -> A -> A) (a b : tensor A) : result (tensor A) :=
  sh <- of_option (broadcast_shapes (size a) (size b)) RuntimeError ;;
  Ok (tabulate sh (fun idx => f (get a (bidx (size a) idx))
                                (get b (bidx (size b) idx)))).

End Broadcast.

(** Python scalars and zero-dimensional tensors. *)
Definition scalar (r : R) : tensor R := Tensor.mk [] [r].

Definition sum_list (l : list R) : R := fold_right Rplus 0%R l.

(** [t.sum()]. *)
Definition sum_all (t : tensor R) : R := sum_list (data t).

(** [t.sum(dim=d)]. *)
Definition sum_dim (t : tensor R) (d : nat) : result (tensor R) :=
  n <- of_option (nth_error (size t) d) IndexError ;;
  Ok (tabulate (remove_at d (size t))
               (fun idx => sum_list (List.map (fun k => get t (insert_at d k idx))
                                              (seq 0 n)))).

(* ------------------------------------------------------------------ *)
(** * The objective *)

(** The running log-likelihood correction.  A Python float is identified
    with a zero-dimensional tensor; [objective += q] for a scalar [q] adds
    [q] to every entry. *)
Definition objective_t : Type := tensor R.

Definition iadd (o : objective_t) (q : R) : objective_t :=
  pointwise (fun v => v + q)%R o.

Definition isub (o : objective_t) (q : R) : objective_t :=
  pointwise (fun v => v - q)%R o.

(** [F.sigmoid]. *)
Definition sigmoid (x : R) : R := (1 / (1 + exp (- x)))%R.

(* ------------------------------------------------------------------ *)
(** * A store for tensors that are updated in place

    [torch.chunk] returns views: tensors that share the memory of their
    argument.  An in-place operator ([+=], [-=], [*=], [/=]) applied to a
    view therefore writes into the tensor the view was taken from.  The
    store maps a location to the content of one allocation; a reference
    is a whole allocation or a window of channels (dimension 1) of one. *)

Module Store.

Definition loc : Type := nat.
Definition store : Type := list (tensor R).

Record tref : Type := ref { base : loc; window : option (nat * nat) }.

Definition M (B : Type) : Type := store -> result (B * store).

Definition ret {B} (b : B) : M B := fun s => Ok (b, s).

Definition bind {B C} (m : M B) (k : B -> M C) : M C :=
  fun s => match m s with
           | Ok (b, s') => k b s'
           | Raise e => Raise e
           end.

Definition lift {B} (r : result B) : M B :=
  fun s => match r with Ok b => Ok (b, s) | Raise e => Raise e end.

Definition alloc (t : tensor R) : M tref :=
  fun s => Ok (ref (length s) None, s ++ [t]).

(** The content seen through a reference. *)
Definition read (s : store) (r : tref) : result (tensor R) :=
  t <- of_option (nth_error s (base r)) RuntimeError ;;
  match window r with
  | None => Ok t
  | Some (start, len) => narrow t 1 start len
  end.

Definition load (r : tref) : M (tensor R) :=
  fun s => v <- read s r ;; Ok (v, s).

(** [torch.chunk(x, chunks, dim=1)]: the pieces are views of [x]. *)
Definition chunk (r : tref) (chunks : nat) : M (list tref) :=
  fun s =>
    t <- read s r ;;
    n <- of_option (nth_error (size t) 1) IndexError ;;
    let start0 := match window r with Some (st, _) => st | None => 0 end in
    Ok (List.map (fun '(st, len) => ref (base r) (Some (start0 + st, len)))
                 (chunk_bounds n chunks), s).

(** Overwriting the channels [start, start + len) of [t] with [v]. *)
Definition splice (t : tensor R) (start len : nat) (v : tensor R)
  : tensor R :=
  tabulate (size t)
    (fun idx =>
       let c := nth 1 idx 0 in
       if (start <=? c) && (c <? start + len)
       then get v (map_at 1 (fun c => c - start) idx)
       else get t idx).

Fixpoint set_nth {B} (n : nat) (b : B) (l : list B) : list B :=
  match n, l with
  | _, [] => []
  | 0, _ :: l' => b :: l'
  | S n', x :: l' => x :: set_nth n' b l'
  end.

Definition write (r : tref) (v : tensor R) : M unit :=
  fun s =>
    t <- of_option (nth_error s (base r)) RuntimeError ;;
    let t' := match window r with
              | None => v
              | Some (start, len) => splice t start len v
              end in
    Ok (tt, set_nth (base r) t' s).

(** The in-place operators: [z op= v] computes [z op v] with
    broadcasting and writes it through [z]; the result must have the
    size of [z]. *)
Definition update (f : R -> R -> R) (z : tref) (v : tensor R) : M unit :=
  fun s =>
    old <- read s z ;;
    new <- binop f old v ;;
    raise_unless (list_eqb (size new) (size old)) RuntimeError ;;;
    write z new s.

(** [torch.cat([a, b], dim=1)] allocates its result. *)
Definition cat_refs (rs : list tref) : M (tensor R) :=
  fun s =>
    ts <- mapM (read s) rs ;;
    out <- cat ts 1 ;;
    Ok (out, s).

(** Running a method on a tensor held in a store of its own. *)
Definition run_fresh {B} (m : tref -> M B) (x : tensor R) : result B :=
  match m (ref 0 None) [x] with
  | Ok (b, _) => Ok b
  | Raise e => Raise e
  end.

End Store.

Declare Scope store_scope.
Delimit Scope store_scope with store.
Notation "x <- m ;; k" := (Store.bind m (fun x => k))
  (at level 61, m at next level, right associativity) : store_scope.
Notation "' p <- m ;; k" := (Store.bind m (fun x => let p := x in k))
  (at level 61, p pattern, m at next level, right associativity) : store_scope.
Notation "m ;;; k" := (Store.bind m (fun _ => k))
  (at level 61, right associativity) : store_scope.

(* ------------------------------------------------------------------ *)
(** * Coupling layers *)

Module AdditiveCoupling.

Record t : Type := make { NN : tensor R -> result (tensor R) }.

Definition init (new_NN : nat -> option nat -> tensor R -> result (tensor R))
  (num_features : nat) : result t :=
  PyClass.super_init PyClass.AdditiveCoupling PyClass.AdditiveCoupling ;;;
  assert (num_features mod 2 =? 0) ;;;
  Ok (make (new_NN (num_features / 2) None)).

Definition forward_and_jacobian (self : t) (x : Store.tref)
  (objective : objective_t) : Store.M (tensor R * objective_t) :=
  (zs <- Store.chunk x 2 ;;
   ' (z1, z2) <- Store.lift (unpack2 zs) ;;
   z1v <- Store.load z1 ;;
   h <- Store.lift (NN self z1v) ;;
   Store.update Rplus z2 h ;;;
   out <- Store.cat_refs [z1; z2] ;;
   Store.ret (out, objective))%store.

Definition reverse_and_jacobian (self : t) (x : Store.tref)
  (objective : objective_t) : Store.M (tensor R * objective_t) :=
  (zs <- Store.chunk x 2 ;;
   ' (z1, z2) <- Store.lift (unpack2 zs) ;;
   z1v <- Store.load z1 ;;
   h <- Store.lift (NN self z1v) ;;
   Store.update Rminus z2 h ;;;
   out <- Store.cat_refs [z1; z2] ;;
   Store.ret (out, objective))%store.

End AdditiveCoupling.

Module AffineCoupling.

Record t : Type := make { NN : tensor R -> result (tensor R) }.

Definition init (new_NN : nat -> option nat -> tensor R -> result (tensor R))
  (num_features : nat) : result t :=
  PyClass.super_init PyClass.AffineCoupling PyClass.AffineCoupling ;;;
  Ok (make (new_NN (num_features / 2) (Some num_features))).

(** [F.sigmoid(h[:, 1::2] + 2.)]. *)
Definition scale_of (h : tensor R) : result (tensor R) :=
  pre <- slice_step h 1 1 2 ;;
  Ok (pointwise sigmoid (pointwise (fun v => v + 2)%R pre)).

(** The source wraps the update of the objective in [try] / [except]
    (entering the debugger); adding a sum of logarithms to the objective
    cannot raise here. *)
Definition forward_and_jacobian (self : t) (x : Store.tref)
  (objective : objective_t) : Store.M (tensor R * objective_t) :=
  (zs <- Store.chunk x 2 ;;
   ' (z1, z2) <- Store.lift (unpack2 zs) ;;
   z1v <- Store.load z1 ;;
   h <- Store.lift (NN self z1v) ;;
   shift <- Store.lift (slice_step h 1 0 2) ;;
   scale <- Store.lift (scale_of h) ;;
   Store.update Rplus z2 shift ;;;
   Store.update Rmult z2 scale ;;;
   let objective := iadd objective (sum_all (pointwise ln scale)) in
   out <- Store.cat_refs [z1; z2] ;;
   Store.ret (out, objective))%store.

Definition reverse_and_jacobian (self : t) (x : Store.tref)
  (objective : objective_t) : Store.M (tensor R * objective_t) :=
  (zs <- Store.chunk x 2 ;;
   ' (z1, z2) <- Store.lift (unpack2 zs) ;;
   z1v <- Store.load z1 ;;
   h <- Store.lift (NN self z1v) ;;
   shift <- Store.lift (slice_step h 1 0 2) ;;
   scale <- Store.lift (scale_of h) ;;
   Store.update Rdiv z2 scale ;;;
   Store.update Rminus z2 shift ;;;
   let objective := isub objective (sum_all (pointwise ln scale)) in
   out <- Store.cat_refs [z1; z2] ;;
   Store.ret (out, objective))%store.

End AffineCoupling.

(* ------------------------------------------------------------------ *)
(** * Channel windows and the store *)

(** The channels [start, start + len) of a tensor: the content of the
    view that [narrow] and [chunk] return along dimension 1. *)
Definition channels (x : tensor R) (start len : nat) : tensor R :=
  tabulate (map_at 1 (fun _ => len) (size x))
           (fun idx => get x (map_at 1 (Nat.add start) idx)).

(** An operation between two tensors of one size, entry by entry. *)
Definition zip_with (f : R -> R -> R) (a b : tensor R) : tensor R :=
  tabulate (size a) (fun idx => f (get a idx) (get b idx)).

(** Every [step]-th channel from [start] on, [count] of them: the content
    of the slice [h[:, start::step]]. *)
Definition strided_channels (h : tensor R) (start step count : nat)
  : tensor R :=
  tabulate (map_at 1 (fun _ => count) (size h))
           (fun idx => get h (map_at 1 (fun c => start + c * step) idx)).


(** The scale of the affine coupling: the sigmoid of the odd channels of
    [h], shifted by two. *)
Definition scale_tensor (h : tensor R) (k : nat) : tensor R :=
  pointwise sigmoid (pointwise (fun v => v + 2)%R (strided_channels h 1 2 k)).

(* ------------------------------------------------------------------ *)
(** The collaborators that the file takes from elsewhere: the classes
    [NN] and [Conv2dZeroInit] of the module [layers] (an instance is a
    function from tensors to tensors), and the random generators of numpy
    and torch. *)
Record Collaborators : Type := {
  new_NN : nat -> option nat -> tensor R -> result (tensor R);
  new_Conv2dZeroInit : nat -> nat -> nat -> nat -> tensor R -> result (tensor R);
  np_random_shuffle : list nat -> list nat;
  normal : list nat -> tensor R
}.

(* ------------------------------------------------------------------ *)
(** * Permutation layers *)

Module Shuffle.

Record t : Type := make { indices : list nat; rev_indices : list nat }.

(** The loop [for i in range(num_channels): rev_indices[indices[i]] = i]
    over an array of zeros. *)
Definition invert_step (indices rev_indices : list nat) (i : nat)
  : list nat :=
  Store.set_nth (nth i indices 0) i rev_indices.

Definition invert (indices : list nat) (num_channels : nat) : list nat :=
  fold_left (invert_step indices)
            (seq 0 num_channels) (repeat 0 num_channels).

(** [num_channels] is [None] when the caller passes no argument. *)
Definition init (E : Collaborators) (self_cls : PyClass.cls)
  (num_channels : option nat) : result t :=
  num_channels <- of_option num_channels TypeError ;;
  PyClass.super_init PyClass.Shuffle self_cls ;;;
  let indices := np_random_shuffle E (seq 0 num_channels) in
  let rev_indices := invert indices num_channels in
  Ok (make indices rev_indices).

Definition forward_and_jacobian {O : Type} (self : t) (x : tensor R)
  (objective : O) : result (tensor R * O) :=
  y <- index_select x 1 (indices self) ;;
  Ok (y, objective).

Definition reverse_and_jacobian {O : Type} (self : t) (x : tensor R)
  (objective : O) : result (tensor R * O) :=
  y <- index_select x 1 (rev_indices self) ;;
  Ok (y, objective).

End Shuffle.

Module Reverse.

(** An instance of [Reverse] is a [Shuffle]: the class only replaces
    the constructor. *)
Definition init (E : Collaborators) (num_channels : nat)
  : result Shuffle.t :=
  _ <- Shuffle.init E PyClass.Reverse None ;;
  num_channel <- PyClass.load_name
                   [("num_channels"%string, num_channels)]
                   "num_channel" ;;
  let indices := rev (seq 0 num_channel) in
  Ok (Shuffle.make indices indices).

End Reverse.

(* ------------------------------------------------------------------ *)
(** * Matrices: determinant, inverse, convolution *)

Definition drop_nth {B} (j : nat) (l : list B) : list B :=
  firstn j l ++ skipn (S j) l.

(** Expansion of the determinant along the first row; [n] is the order
    of the matrix. *)
Fixpoint det_rows (n : nat) (m : list (list R)) : R :=
  match n with
  | 0 => 1%R
  | S n' =>
      match m with
      | [] => 0%R
      | row :: rest =>
          sum_list
            (List.map (fun j => ((-1) ^ j * nth j row 0
                                 * det_rows n' (List.map (drop_nth j) rest))%R)
                      (seq 0 n))
      end
  end.

Definition rows (t : tensor R) (n m : nat) : list (list R) :=
  List.map (fun i => List.map (fun j => get t [i; j]) (seq 0 m)) (seq 0 n).

(** [torch.det] of one square matrix. *)
Definition det (t : tensor R) : result R :=
  match size t with
  | [n; m] => if n =? m then Ok (det_rows n (rows t n n))
              else Raise RuntimeError
  | _ => Raise RuntimeError
  end.

(** [torch.inverse] of one square matrix: the transposed cofactors over
    the determinant; a singular matrix is refused. *)
Definition inverse (t : tensor R) : result (tensor R) :=
  match size t with
  | [n; m] =>
      if n =? m then
        let d := det_rows n (rows t n n) in
        if Req_EM_T d 0%R then Raise RuntimeError
        else
          Ok (tabulate [n; n]
                (fun idx =>
                   let i := nth 0 idx 0 in
                   let j := nth 1 idx 0 in
                   ((-1) ^ (i + j)
                    * det_rows (n - 1)
                        (List.map (drop_nth i) (drop_nth j (rows t n n)))
                    / d)%R))
      else Raise RuntimeError
  | _ => Raise RuntimeError
  end.

(** The attributes of an [nn.Conv2d] that [F.conv2d] receives. *)
Record conv_attrs : Type := {
  bias : option (tensor R);
  stride : nat * nat;
  padding : nat * nat;
  dilation : nat * nat;
  groups : nat
}.

(** What [nn.Conv2d(c, c, 1, bias=False)] sets. *)
Definition conv1x1_attrs : conv_attrs :=
  {| bias := None; stride := (1, 1); padding := (0, 0);
     dilation := (1, 1); groups := 1 |}.

(** The input entry under kernel position [p] of output position [i],
    zero in the padding. *)
Definition padded_get (x : tensor R) (b ci H W : nat)
  (i p sH pH dH j q sW pW dW : nat) : R :=
  let r := i * sH + p * dH in
  let c := j * sW + q * dW in
  if (pH <=? r) && (r - pH <? H) && (pW <=? c) && (c - pW <? W)
  then get x [b; ci; r - pH; c - pW]
  else 0%R.

(** [F.conv2d(x, weight, bias, stride, padding, dilation, groups)], for
    one group. *)
Definition conv2d (x weight : tensor R) (a : conv_attrs)
  : result (tensor R) :=
  ' (B, Cin, H, W) <- of_option
      (match size x with [B; C; H; W] => Some (B, C, H, W) | _ => None end)
      RuntimeError ;;
  ' (Cout, Cin', kH, kW) <- of_option
      (match size weight with [a; b; c; d] => Some (a, b, c, d) | _ => None end)
      RuntimeError ;;
  let '(sH, sW) := stride a in
  let '(pH, pW) := padding a in
  let '(dH, dW) := dilation a in
  raise_unless ((groups a =? 1) && (Cin =? Cin')
                && (0 <? sH) && (0 <? sW)
                && (dH * (kH - 1) + 1 <=? H + 2 * pH)
                && (dW * (kW - 1) + 1 <=? W + 2 * pW)) RuntimeError ;;;
  raise_unless (match bias a with
                | None => true
                | Some bt => list_eqb (size bt) [Cout]
                end) RuntimeError ;;;
  let Hout := (H + 2 * pH - dH * (kH - 1) - 1) / sH + 1 in
  let Wout := (W + 2 * pW - dW * (kW - 1) - 1) / sW + 1 in
  Ok (tabulate [B; Cout; Hout; Wout]
        (fun idx =>
           let b := nth 0 idx 0 in
           let co := nth 1 idx 0 in
           let i := nth 2 idx 0 in
           let j := nth 3 idx 0 in
           (match bias a with Some bt => get bt [co] | None => 0 end
            + sum_list
                (List.map
                   (fun ci =>
                      sum_list
                        (List.map
                           (fun p =>
                              sum_list
                                (List.map
                                   (fun q =>
                                      get weight [co; ci; p; q]
                                      * padded_get x b ci H W
                                          i p sH pH dH j q sW pW dW)
                                   (seq 0 kW)))
                           (seq 0 kH)))
                   (seq 0 Cin)))%R)).

Module Invertible1x1Conv.

Record t : Type := make {
  weight : tensor R;
  attrs : conv_attrs;
  num_channels : nat
}.

(** [reset_parameters], which [nn.Conv2d.__init__] calls: it reads
    [self.num_channels], an attribute that [__init__] only sets
    afterwards ([None] here), and hands a tuple to [np.random.randn],
    which takes integers. *)
Definition reset_parameters (num_channels : option nat)
  : result (tensor R) :=
  _ <- of_option num_channels AttributeError ;;
  Raise TypeError.

(** The constructor: the call through [super()] reaches
    [nn.Conv2d.__init__] without arguments. *)
Definition init (num_channels : nat) : result t :=
  PyClass.super_init PyClass.Invertible1x1Conv PyClass.Invertible1x1Conv ;;;
  w_init <- reset_parameters None ;;
  Ok (make (unsqueeze_last (unsqueeze_last w_init)) conv1x1_attrs
           num_channels).

(** [torch.det(self.weight.squeeze()).abs().log() * x.size(-2) * x.size(-1)].
    For a weight whose determinant is zero the source computes
    [log(0) = -inf]; the value of [ln] there is not that of the source,
    and what is proved of the objective assumes a determinant other
    than zero. *)
Definition dlogdet (self : t) (x : tensor R) : result R :=
  d <- det (squeeze (weight self)) ;;
  h <- size_at x (-2) ;;
  w <- size_at x (-1) ;;
  Ok (ln (Rabs d) * INR h * INR w)%R.

Definition forward_and_jacobian (self : t) (x : tensor R)
  (objective : objective_t) : result (tensor R * objective_t) :=
  dlogdet <- dlogdet self x ;;
  let objective := iadd objective dlogdet in
  output <- conv2d x (weight self) (attrs self) ;;
  Ok (output, objective).

Definition reverse_and_jacobian (self : t) (x : tensor R)
  (objective : objective_t) : result (tensor R * objective_t) :=
  dlogdet <- dlogdet self x ;;
  let objective := isub objective dlogdet in
  weight_inv <- inverse (squeeze (weight self)) ;;
  let weight_inv := unsqueeze_last (unsqueeze_last weight_inv) in
  output <- conv2d x weight_inv (attrs self) ;;
  Ok (output, objective).

End Invertible1x1Conv.

(* ------------------------------------------------------------------ *)
(** * The diagonal Gaussian *)

(** Modelled from the spec: [gaussian_diag] of the module [utils] is not
    among the sources.  The spec describes it as a diagonal Gaussian
    parameterised by per-element mean and log-scale, supporting
    [log_density(x)] and [sample()].  [logp] gives the log-density of each
    entry (the callers add them up); [sample] is the mean plus the scale
    times a draw of standard normal noise. *)
Record GaussianDiag : Type := {
  logp : tensor R -> result (tensor R);
  sample : result (tensor R)
}.

Definition gaussian_diag (E : Collaborators) (mean logsd : tensor R)
  : GaussianDiag :=
  {| logp := fun x =>
       d <- binop Rminus x mean ;;
       q <- binop Rdiv (pointwise Rsqr d)
                  (pointwise (fun v => exp (2 * v))%R logsd) ;;
       s <- binop Rplus (pointwise (fun v => ln (2 * PI) + 2 * v)%R logsd) q ;;
       Ok (pointwise (fun v => - (1 / 2) * v)%R s);
     sample :=
       e <- binop Rmult (pointwise exp logsd) (normal E (size mean)) ;;
       binop Rplus mean e |}.

(* ------------------------------------------------------------------ *)
(** * Layers involving the prior *)

Module Split.

Record t : Type := make {
  squeeze_part : Squeeze.t;
  conv_zero : tensor R -> result (tensor R)
}.

Definition init (E : Collaborators) (input_shape : list nat) : result t :=
  sq <- Squeeze.init PyClass.Split input_shape 2 ;;
  ' (bs, c, h, w) <- unpack4 input_shape ;;
  Ok (make sq (new_Conv2dZeroInit E (c / 2) c 3 ((3 - 1) / 2))).

Definition output_shape (self : t) : result (list nat) :=
  ' (bs, c, h, w) <- unpack4 (Squeeze.input_shape (squeeze_part self)) ;;
  Ok [bs; c * 2; h / 2; w / 2].

Definition split2d_prior (E : Collaborators) (self : t) (x : tensor R)
  : result GaussianDiag :=
  h <- conv_zero self x ;;
  mean <- slice_step h 1 0 2 ;;
  logs <- slice_step h 1 1 2 ;;
  Ok (gaussian_diag E mean logs).

Definition forward_and_jacobian (E : Collaborators) (self : t)
  (x : tensor R) (objective : objective_t)
  : result (tensor R * objective_t) :=
  ' (bs, c, h, w) <- unpack4 (size x) ;;
  zs <- chunk x 2 1 ;;
  ' (z1, z2) <- unpack2 zs ;;
  pz <- split2d_prior E self z1 ;;
  lp <- logp pz z2 ;;
  let objective := iadd objective (sum_all lp) in
  z1 <- Squeeze.squeeze_bchw (squeeze_part self) z1 ;;
  Ok (z1, objective).

(** [unsqueeze_bchw] and [split2d_prior] are written without [self.]:
    they are looked up as globals before anything is called. *)
Definition reverse_and_jacobian (E : Collaborators) (self : t)
  (x : option (tensor R)) (objective : objective_t)
  : result (tensor R * objective_t) :=
  PyClass.load_global "unsqueeze_bchw" ;;;
  x <- as_tensor x AttributeError ;;
  z1 <- Squeeze.unsqueeze_bchw (squeeze_part self) x ;;
  PyClass.load_global "split2d_prior" ;;;
  pz <- split2d_prior E self z1 ;;
  z2 <- sample pz ;;
  z <- cat [z1; z2] 1 ;;
  lp <- logp pz z2 ;;
  objective <- binop Rminus objective lp ;;
  Ok (z, objective).

End Split.

Module GaussianPrior.

Record t : Type := make { conv : option (tensor R -> result (tensor R)) }.

Definition init (E : Collaborators) (input_shape : list nat)
  (learntop : bool) : result t :=
  PyClass.super_init PyClass.GaussianPrior PyClass.GaussianPrior ;;;
  if learntop then
    c <- of_option (nth_error input_shape 1) IndexError ;;
    Ok (make (Some (new_Conv2dZeroInit E c (2 * c) 3 ((3 - 1) / 2))))
  else Ok (make None).

Definition forward_and_jacobian (E : Collaborators) (self : t)
  (x : tensor R) (objective : objective_t)
  : result (option (tensor R) * objective_t) :=
  mean_and_logsd <- cat [full_like x 0%R; full_like x 0%R] 1 ;;
  mean_and_logsd <- match conv self with
                    | Some conv => conv mean_and_logsd
                    | None => Ok mean_and_logsd
                    end ;;
  ms <- chunk mean_and_logsd 2 1 ;;
  ' (mean, logsd) <- unpack2 ms ;;
  let pz := gaussian_diag E mean logsd in
  lp <- logp pz x ;;
  let objective := iadd objective (sum_all lp) in
  Ok (None, objective).

(** [torch.zeros_like(x)] for an [x] that may be [None]. *)
Definition zeros_like (x : option (tensor R)) : result (tensor R) :=
  match x with
  | Some t => Ok (full_like t 0%R)
  | None => Raise TypeError
  end.

(** [objective or 0.]: the truth value of a tensor with several
    entries is an error; otherwise the value is kept (a zero objective
    is replaced by zero). *)
Definition or_zero (objective : objective_t) : result objective_t :=
  if numel (size objective) =? 1 then Ok objective
  else Raise RuntimeError.

(** [torch.cat] called on the unpacked list (a star before the list):
    the tensors arrive as separate positional arguments, which
    [torch.cat] does not accept. *)
Definition cat_star (ts : list (tensor R)) : result (tensor R) :=
  Raise TypeError.

Definition backward_and_jacobian (E : Collaborators) (self : t)
  (x : option (tensor R)) (objective : objective_t)
  : result (tensor R * objective_t) :=
  assert (match x with None => true | Some _ => false end) ;;;
  objective <- or_zero objective ;;
  zs <- mapM (fun _ => zeros_like x) (seq 0 2) ;;
  mean_and_logsd <- cat_star zs ;;
  mean_and_logsd <- match conv self with
                    | Some conv => conv mean_and_logsd
                    | None => Ok mean_and_logsd
                    end ;;
  ms <- chunk mean_and_logsd 2 1 ;;
  ' (mean, logsd) <- unpack2 ms ;;
  let pz := gaussian_diag E mean logsd in
  s <- sample pz ;;
  Ok (s, objective).

End GaussianPrior.

(* ------------------------------------------------------------------ *)
(** * Normalizing layers *)

(** A dimension counted from the end when negative. *)
Definition norm_dim (n : nat) (d : Z) : result nat :=
  let d' := if (d <? 0)%Z then (d + Z.of_nat n)%Z else d in
  if ((0 <=? d') && (d' <? Z.of_nat n))%Z then Ok (Z.to_nat d')
  else Raise IndexError.

(** [t.sum(dim=d)] for a possibly negative [d]. *)
Definition sum_at (t : tensor R) (d : Z) : result (tensor R) :=
  d' <- norm_dim (length (size t)) d ;;
  sum_dim t d'.

(** [t.view(...)] of a tensor in row-major layout: the elements stay in
    place when the number of elements fits. *)
Definition view (t : tensor R) (spec : list (option nat))
  : result (tensor R) :=
  sz <- Strided.infer_size (numel (size t)) spec ;;
  Ok (Tensor.mk sz (data t)).

(** The values of channel [c] of a tensor of size [B :: C :: rest]. *)
Definition channel_values (x : tensor R) (c : nat) : list R :=
  match size x with
  | B :: _ :: rest =>
      flat_map (fun b => List.map (fun r => get x (b :: c :: unravel rest r))
                                  (seq 0 (numel rest)))
               (seq 0 B)
  | _ => []
  end.

Definition mean_list (l : list R) : R := (sum_list l / INR (length l))%R.

(** The biased variance that batch normalization divides by. *)
Definition var_list (l : list R) : R :=
  let m := mean_list l in
  (sum_list (List.map (fun v => (v - m) * (v - m)) l) / INR (length l))%R.

(** [F.batch_norm(input, running_mean, running_var, None, None, training,
    momentum, eps)]: in training mode every channel is normalized with the
    statistics of the batch, otherwise with the running statistics.  (The
    update of the running statistics is [batch_norm_running].)  In
    training mode the Python wrapper first multiplies [size[0]] with the
    entries of [size[2:]] and raises [ValueError] when the product is
    one; the native function then refuses running statistics that are
    not a vector with one entry per channel, and an input without a
    channel axis. *)
Definition batch_norm (input running_mean running_var : tensor R)
  (training : bool) (momentum eps : R) : result (tensor R) :=
  match size input with
  | B :: C :: rest =>
      raise_unless (negb training || negb (B * numel rest =? 1)) ValueError ;;;
      raise_unless (list_eqb (size running_mean) [C]
                    && list_eqb (size running_var) [C]) RuntimeError ;;;
      Ok (tabulate (size input)
            (fun idx =>
               let c := nth 1 idx 0 in
               let m := if training then mean_list (channel_values input c)
                        else get running_mean [c] in
               let v := if training then var_list (channel_values input c)
                        else get running_var [c] in
               ((get input idx - m) / sqrt (v + eps))%R))
  | [B] =>
      raise_unless (negb training || negb (B =? 1)) ValueError ;;;
      Raise RuntimeError
  | [] => if training then Raise IndexError else Raise RuntimeError
  end.

(** The running statistics after a call of [F.batch_norm]: an
    exponential moving average in training mode (with the unbiased
    variance), unchanged otherwise. *)
Definition batch_norm_running (input running_mean running_var : tensor R)
  (training : bool) (momentum : R) : tensor R * tensor R :=
  if training then
    let n := length (channel_values input 0) in
    (tabulate (size running_mean)
       (fun idx => ((1 - momentum) * get running_mean idx
                    + momentum * mean_list (channel_values input (nth 0 idx 0)%nat))%R),
     tabulate (size running_var)
       (fun idx => ((1 - momentum) * get running_var idx
                    + momentum * (var_list (channel_values input (nth 0 idx 0)%nat)
                                  * INR n / INR (n - 1)))%R))
  else (running_mean, running_var).

Module ActNorm.

(** The constructor of the layer that is declared but not written. *)
Definition init {T : Type} : result T := Raise NotImplementedError.

End ActNorm.

Module BatchNorm.

Record t : Type := make {
  num_features : nat;
  eps : R;
  momentum : R;
  running_mean : tensor R;
  running_var : tensor R;
  training : bool
}.

(** [__init__(self, num_features, eps=1e-5, momentum=0.1)], which calls
    [_BatchNorm.__init__(self, num_features, eps=eps, momentum=momentum,
    affine=False)]; an argument that is not given takes its default.
    The running mean starts at zero, the running variance at one, and a
    fresh module is in training mode. *)
Definition init (num_features : nat) (eps momentum : option R)
  : result t :=
  let eps := match eps with Some e => e | None => (1 / 100000)%R end in
  let momentum :=
    match momentum with Some m => m | None => (1 / 10)%R end in
  Ok (make num_features eps momentum
           (full [num_features] 0%R) (full [num_features] 1%R) true).

(** The statistics that both directions recompute from their input:
    the input seen as [(B, C, -1)], the number of entries per channel,
    and per channel the mean, the summed squared deviation and the
    clamped variance. *)
Definition statistics (input : tensor R) (floor : R)
  : result (tensor R * nat * tensor R * tensor R * tensor R) :=
  let input_shape := size input in
  s0 <- of_option (nth_error input_shape 0) IndexError ;;
  s1 <- of_option (nth_error input_shape 1) IndexError ;;
  input <- view input [Some s0; Some s1; None] ;;
  n0 <- size_at input 0 ;;
  n1 <- size_at input (-1) ;;
  let sum_size := n0 * n1 in
  input_sum <- (t <- sum_at input 0 ;; sum_at t (-1)) ;;
  input_ssum <- (t <- sum_at (pointwise (fun v => v ^ 2)%R input) 0 ;;
                 sum_at t (-1)) ;;
  let mean := pointwise (fun v => v / INR sum_size)%R input_sum in
  prod <- binop Rmult input_sum mean ;;
  sumvar <- binop Rminus input_ssum prod ;;
  let var := pointwise (fun v => Rmax (v / INR sum_size) floor) sumvar in
  Ok (input, sum_size, mean, sumvar, var).

(** Returns, besides the output and the objective, the layer with its
    running statistics updated.  The variance is clamped at [eps] from
    below; for [eps <= 0] and a channel that is constant over the batch
    the source computes [0 ** -0.5 = inf], which the real numbers do
    not have: what is proved of the objective assumes [0 < eps]. *)
Definition forward_and_jacobian (self : t) (input : tensor R)
  (objective : objective_t) : result (tensor R * objective_t * t) :=
  output <- batch_norm input (running_mean self) (running_var self)
              (training self) (momentum self) (eps self) ;;
  let '(rm, rv) := batch_norm_running input (running_mean self)
                     (running_var self) (training self) (momentum self) in
  let self' := make (num_features self) (eps self) (momentum self) rm rv
                    (training self) in
  ' (input, sum_size, mean, sumvar, var) <- statistics input (eps self) ;;
  let inv_std := pointwise (fun v => Rpower v (- (1 / 2)))%R var in
  n0 <- size_at input 0 ;;
  n1 <- size_at input (-1) ;;
  let log_det_jacobian :=
    pointwise (fun v => ln (Rabs v) * INR n0 * INR n1)%R inv_std in
  let objective := iadd objective (sum_all log_det_jacobian) in
  Ok (output, objective, self').

(** The method the class calls [reverse]. *)
Definition reverse (self : t) (input : tensor R) (objective : objective_t)
  : result (tensor R * objective_t) :=
  assert (negb (training self)) ;;;
  let input_shape := size input in
  ' (input, sum_size, mean, sumvar, var) <-
      statistics input (1 / 100000)%R ;;
  let unbias_var := pointwise (fun v => v / INR (sum_size - 1))%R sumvar in
  let inv_std := pointwise (fun v => Rpower v (- (1 / 2)))%R var in
  output <- binop Rmult input (pointwise (fun v => Rpower v (1 / 2))%R var) ;;
  output <- binop Rplus output mean ;;
  n0 <- size_at input 0 ;;
  n2 <- size_at input 2 ;;
  n3 <- size_at input 3 ;;
  let log_det_jacobian :=
    pointwise (fun v => ln (Rabs v) * INR n0 * INR n2 * INR n3)%R inv_std in
  objective <- binop Rminus objective log_det_jacobian ;;
  output <- view output (List.map Some input_shape) ;;
  Ok (output, objective).

End BatchNorm.

(* ------------------------------------------------------------------ *)
(** * The layer protocol *)

(** The concrete layers.  An instance of [Reverse] is a [Shuffle]; the
    classes [RevNetStep], [RevNet] and [Codec] add a constructor to
    [LayerList] and nothing else. *)
Inductive layer : Type :=
| LShuffle (self : Shuffle.t)
| LInvertible1x1Conv (self : Invertible1x1Conv.t)
| LSqueeze (self : Squeeze.t)
| LSplit (self : Split.t)
| LGaussianPrior (self : GaussianPrior.t)
| LAdditiveCoupling (self : AdditiveCoupling.t)
| LAffineCoupling (self : AffineCoupling.t)
| LBatchNorm (self : BatchNorm.t)
| LLayerList (layers : list layer).

Module Layer.

(** The methods of the abstract class, which a class that does not
    override them inherits. *)
Definition forward_and_jacobian {T : Type} : result T :=
  Raise NotImplementedError.

Definition reverse_and_jacobian {T : Type} : result T :=
  Raise NotImplementedError.

End Layer.

Module LayerList.

Section Loops.
Context {L X O : Type}.
Variable call : L -> X -> O -> result (X * O).

(** [for layer in self.layers: x, objective = layer.call(x, objective)]. *)
Fixpoint forward_and_jacobian (layers : list L) (x : X) (objective : O)
  : result (X * O) :=
  match layers with
  | [] => Ok (x, objective)
  | layer :: rest =>
      ' (x, objective) <- call layer x objective ;;
      forward_and_jacobian rest x objective
  end.

(** [for layer in reversed(self.layers): ...]. *)
Fixpoint reverse_and_jacobian (layers : list L) (x : X) (objective : O)
  : result (X * O) :=
  match layers with
  | [] => Ok (x, objective)
  | layer :: rest =>
      ' (x, objective) <- reverse_and_jacobian rest x objective ;;
      call layer x objective
  end.

End Loops.

End LayerList.

Definition some_array {O : Type} (r : result (tensor R * O))
  : result (option (tensor R) * O) :=
  ' (y, o) <- r ;; Ok (Some y, o).

(** [layer.forward_and_jacobian(x, objective)], resolved by the class of
    the layer.  The coupling layers run on a store that holds [x]. *)
Fixpoint forward_and_jacobian (E : Collaborators) (l : layer)
  (x : option (tensor R)) (objective : objective_t)
  : result (option (tensor R) * objective_t) :=
  match l with
  | LShuffle self =>
      x <- as_tensor x TypeError ;;
      some_array (Shuffle.forward_and_jacobian self x objective)
  | LInvertible1x1Conv self =>
      x <- as_tensor x AttributeError ;;
      some_array (Invertible1x1Conv.forward_and_jacobian self x objective)
  | LSqueeze self =>
      x <- as_tensor x AttributeError ;;
      some_array (Squeeze.forward_and_jacobian self x objective)
  | LSplit self =>
      x <- as_tensor x AttributeError ;;
      some_array (Split.forward_and_jacobian E self x objective)
  | LGaussianPrior self =>
      x <- as_tensor x TypeError ;;
      GaussianPrior.forward_and_jacobian E self x objective
  | LAdditiveCoupling self =>
      x <- as_tensor x TypeError ;;
      some_array
        (Store.run_fresh
           (fun r => AdditiveCoupling.forward_and_jacobian self r objective) x)
  | LAffineCoupling self =>
      x <- as_tensor x TypeError ;;
      some_array
        (Store.run_fresh
           (fun r => AffineCoupling.forward_and_jacobian self r objective) x)
  | LBatchNorm self =>
      x <- as_tensor x AttributeError ;;
      ' (y, objective, _) <- BatchNorm.forward_and_jacobian self x objective ;;
      Ok (Some y, objective)
  | LLayerList layers =>
      LayerList.forward_and_jacobian (forward_and_jacobian E) layers x objective
  end.

(** [layer.reverse_and_jacobian(x, objective)].  [GaussianPrior] and
    [BatchNorm] define no method of that name (theirs are called
    [backward_and_jacobian] and [reverse]) and inherit the one of
    [Layer]. *)
Fixpoint reverse_and_jacobian (E : Collaborators) (l : layer)
  (x : option (tensor R)) (objective : objective_t)
  : result (option (tensor R) * objective_t) :=
  match l with
  | LShuffle self =>
      x <- as_tensor x TypeError ;;
      some_array (Shuffle.reverse_and_jacobian self x objective)
  | LInvertible1x1Conv self =>
      x <- as_tensor x AttributeError ;;
      some_array (Invertible1x1Conv.reverse_and_jacobian self x objective)
  | LSqueeze self =>
      x <- as_tensor x AttributeError ;;
      some_array (Squeeze.reverse_and_jacobian self x objective)
  | LSplit self =>
      some_array (Split.reverse_and_jacobian E self x objective)
  | LGaussianPrior self => Layer.reverse_and_jacobian
  | LAdditiveCoupling self =>
      x <- as_tensor x TypeError ;;
      some_array
        (Store.run_fresh
           (fun r => AdditiveCoupling.reverse_and_jacobian self r objective) x)
  | LAffineCoupling self =>
      x <- as_tensor x TypeError ;;
      some_array
        (Store.run_fresh
           (fun r => AffineCoupling.reverse_and_jacobian self r objective) x)
  | LBatchNorm self => Layer.reverse_and_jacobian
  | LLayerList layers =>
      LayerList.reverse_and_jacobian (reverse_and_jacobian E) layers x objective
  end.

(* ------------------------------------------------------------------ *)
(** * Stacked layers *)

(** The configuration that the constructors read: [args.norm],
    [args.permutation], [args.coupling] (a string or [None]),
    [args.depth], [args.n_levels] and [args.learntop]. *)
Record Args : Type := {
  norm : option string;
  permutation : option string;
  coupling : option string;
  depth : nat;
  n_levels : nat;
  learntop : bool
}.

(** [value == 'literal']. *)
Definition is_str (value : option string) (literal : string) : bool :=
  match value with
  | Some s => String.eqb s literal
  | None => false
  end.

(** The truth value of a string or [None]. *)
Definition truthy (value : option string) : bool :=
  match value with
  | Some s => negb (String.eqb s "")
  | None => false
  end.

Module RevNetStep.

Definition init (E : Collaborators) (num_channels : nat) (args : Args)
  : result layer :=
  PyClass.super_init PyClass.RevNetStep PyClass.RevNetStep ;;;
  let layers := [] in
  layers <-
    (if is_str (norm args) "actnorm" then
       l <- ActNorm.init ;; Ok (layers ++ [l])
     else if is_str (norm args) "batchnorm" then
       l <- BatchNorm.init num_channels None None ;;
       Ok (layers ++ [LBatchNorm l])
     else
       assert (negb (truthy (norm args))) ;;; Ok layers) ;;
  layers <-
    (if is_str (permutation args) "reverse" then
       l <- Reverse.init E num_channels ;; Ok (layers ++ [LShuffle l])
     else if is_str (permutation args) "shuffle" then
       l <- Shuffle.init E PyClass.Shuffle (Some num_channels) ;;
       Ok (layers ++ [LShuffle l])
     else if is_str (permutation args) "conv" then
       l <- Invertible1x1Conv.init num_channels ;;
       Ok (layers ++ [LInvertible1x1Conv l])
     else Raise ValueError) ;;
  layers <-
    (if is_str (coupling args) "additive" then
       l <- AdditiveCoupling.init (new_NN E) num_channels ;;
       Ok (layers ++ [LAdditiveCoupling l])
     else if is_str (coupling args) "affine" then
       l <- AffineCoupling.init (new_NN E) num_channels ;;
       Ok (layers ++ [LAffineCoupling l])
     else Raise ValueError) ;;
  Ok (LLayerList layers).

End RevNetStep.

Module RevNet.

Definition init (E : Collaborators) (input_shape : list nat) (args : Args)
  : result layer :=
  PyClass.super_init PyClass.RevNet PyClass.RevNet ;;;
  ' (bs, c, h, w) <- unpack4 input_shape ;;
  layers <- mapM (fun _ => RevNetStep.init E c args) (seq 0 (depth args)) ;;
  Ok (LLayerList layers).

End RevNet.

Module Codec.

(** [layer.output_shape], a property of [Squeeze] and [Split] only. *)
Definition output_shape (l : layer) : result (list nat) :=
  match l with
  | LSqueeze self => Squeeze.output_shape self
  | LSplit self => Split.output_shape self
  | _ => Raise AttributeError
  end.

(** The loop [for i in range(args.n_levels)]. *)
Fixpoint levels (E : Collaborators) (args : Args) (range : list nat)
  (layers : list layer) (input_shape : list nat)
  : result (list layer * list nat) :=
  match range with
  | [] => Ok (layers, input_shape)
  | i :: range' =>
      last_layer <- of_option (nth_error layers (length layers - 1))
                              IndexError ;;
      input_shape <- output_shape last_layer ;;
      revnet <- RevNet.init E input_shape args ;;
      let layers := layers ++ [revnet] in
      layers <-
        (if i <? n_levels args - 1 then
           split <- Split.init E input_shape ;;
           Ok (layers ++ [LSplit split])
         else Ok layers) ;;
      levels E args range' layers input_shape
  end.

Definition init (E : Collaborators) (input_shape : list nat) (args : Args)
  : result layer :=
  PyClass.super_init PyClass.Codec PyClass.Codec ;;;
  squeeze <- Squeeze.init PyClass.Squeeze input_shape 2 ;;
  let layers := [LSqueeze squeeze] in
  ' (layers, input_shape) <-
      levels E args (seq 0 (n_levels args)) layers input_shape ;;
  prior <- GaussianPrior.init E input_shape (learntop args) ;;
  let layers := layers ++ [LGaussianPrior prior] in
  Ok (LLayerList layers).

End Codec.

(* ------------------------------------------------------------------ *)
(** * Vocabulary of the properties *)

(** The three roles a layer can play inside a flow step. *)
Inductive layer_kind : Type :=
| KNormalization
| KPermutation
| KCoupling
| KOther.

Definition kind_of (l : layer) : layer_kind :=
  match l with
  | LBatchNorm _ => KNormalization
  | LShuffle _ | LInvertible1x1Conv _ => KPermutation
  | LAdditiveCoupling _ | LAffineCoupling _ => KCoupling
  | _ => KOther
  end.

(** The variants that [RevNetStep] recognizes. *)
Definition recognized_permutation (args : Args) : bool :=
  is_str (permutation args) "reverse"
  || is_str (permutation args) "shuffle"
  || is_str (permutation args) "conv".

Definition recognized_coupling (args : Args) : bool :=
  is_str (coupling args) "additive" || is_str (coupling args) "affine".

(** The layers of a step in the order normalization, permutation,
    coupling, each of the selected variant. *)
Definition step_layout (args : Args) (layers : list layer) : Prop :=
  exists norm_part perm coup,
    layers = norm_part ++ [perm; coup]
    /\ (if is_str (norm args) "batchnorm"
        then exists bn, norm_part = [LBatchNorm bn]
        else norm_part = [])
    /\ kind_of perm = KPermutation
    /\ recognized_permutation args = true
    /\ ((is_str (coupling args) "additive" = true
         /\ exists a, coup = LAdditiveCoupling a)
        \/ (is_str (coupling args) "affine" = true
            /\ exists a, coup = LAffineCoupling a)).

(** The mixing of channels that a 1x1 convolution with the square matrix
    [M] performs at one position: entry [co] of the product of [M] with
    the vector of the channels of [x] at batch [b], row [i], column [j]. *)
Definition mix_channels (M x : tensor R) (C b co i j : nat) : R :=
  sum_list (List.map (fun ci => (get M [co; ci] * get x [b; ci; i; j])%R)
                     (seq 0 C)).

(** The determinant that the model of [torch.det] computes for a square
    matrix of order [C]. *)
Definition det_of (M : tensor R) (C : nat) : R := det_rows C (rows M C C).

(** A method leaves the array it is given unchanged when, in every store
    and for every reference, the content seen through the reference
    after the call is the content before it. *)
Definition leaves_input_unchanged {T : Type}
  (method : Store.tref -> Store.M T) : Prop :=
  forall s r x result s',
    Store.read s r = Ok x ->
    method r s = Ok (result, s') ->
    Store.read s' r = Ok x.

(** A method updates the array it is given in place when, for an array
    [x] with [2k] channels that is the whole allocation [l], the call
    returns an array [y] and an objective, the content of the allocation
    [l] after the call is [y], [y] has the size of [x], its first [k]
    channels are those of [x] and channel [k + c] holds [z2' b c i j] at
    batch entry [b] and position [(i, j)], the store has as many
    allocations as before and no other allocation has changed, and the
    objective returned is the one given with [dq] added at every entry. *)
Definition updates_input_in_place
  (method : Store.tref -> Store.M (tensor R * objective_t))
  (s : Store.store) (l : Store.loc) (x : tensor R) (k : nat)
  (z2' : nat -> nat -> nat -> nat -> R)
  (objective : objective_t) (dq : R) : Prop :=
  exists y o' s',
    method (Store.ref l None) s = Ok ((y, o'), s')
    /\ nth_error s' l = Some y
    /\ size y = size x
    /\ (forall b c i j,
          in_range (size x) [b; c; i; j] ->
          get y [b; c; i; j]
          = if c <? k then get x [b; c; i; j] else z2' b (c - k) i j)
    /\ length s' = length s
    /\ (forall l', l' <> l -> nth_error s' l' = nth_error s l')
    /\ size o' = size objective
    /\ forall idx, in_range (size objective) idx ->
                   get o' idx = (get objective idx + dq)%R.

(** A stand-in for the network of a coupling layer: every entry of its
    output is [v]; the output has [channels_out] channels, or as many as
    the input when none are asked for. *)
Definition constant_NN (v : R) (channels_in : nat) (channels_out : option nat)
  (z : tensor R) : result (tensor R) :=
  Ok (full (map_at 1 (fun c => match channels_out with
                               | Some c' => c'
                               | None => c
                               end) (size z)) v).

(** Collaborators for examples: constant networks, convolutions that
    return zeros, the reversal as shuffle, and noise that is zero. *)
Definition example_collaborators : Collaborators :=
  {| new_NN := constant_NN 1%R;
     new_Conv2dZeroInit := fun _ c_out _ _ z =>
       Ok (full (map_at 1 (fun _ => c_out) (size z)) 0%R);
     np_random_shuffle := fun l => rev l;
     normal := fun sh => full sh 0%R |}.

(** [reverse_and_jacobian] applied to the array and the objective that
    [forward_and_jacobian] returns. *)
Definition round_trip (E : Collaborators) (l : layer)
  (x : option (tensor R)) (objective : objective_t)
  : result (option (tensor R) * objective_t) :=
  ' (y, objective') <- forward_and_jacobian E l x objective ;;
  reverse_and_jacobian E l y objective'.

Definition round_trips (E : Collaborators) (l : layer) (x : tensor R)
  (objective : objective_t) : Prop :=
  round_trip E l (Some x) objective = Ok (Some x, objective).

(** A [Shuffle] as its constructor builds it for [C] channels: a
    permutation of the channel numbers and the inverse that the loop of
    the constructor computes. *)
Definition shuffle_built (C : nat) (self : Shuffle.t) : Prop :=
  Permutation (seq 0 C) (Shuffle.indices self)
  /\ Shuffle.rev_indices self = Shuffle.invert (Shuffle.indices self) C.

(** The contract of the network of a coupling layer: on arrays with
    [c_in] channels it returns arrays with [c_out] channels over the same
    batch and positions. *)
Definition NN_contract (NN : tensor R -> result (tensor R))
  (B c_in c_out H W : nat) : Prop :=
  forall z, size z = [B; c_in; H; W] ->
            exists h, NN z = Ok h /\ size h = [B; c_out; H; W].

(** [Minv] times [M] is the identity matrix of order [C]. *)
Definition left_inverse (Minv M : tensor R) (C : nat) : Prop :=
  forall c ci, c < C -> ci < C ->
    sum_list (List.map (fun co => (get Minv [c; co] * get M [co; ci])%R)
                       (seq 0 C))
    = if c =? ci then 1%R else 0%R.

(** An [Invertible1x1Conv] on [C] channels whose weight has an inverse,
    for arrays with [H] rows and [W] columns. *)
Definition conv_invertible (C H W : nat) (self : Invertible1x1Conv.t)
  : Prop :=
  Invertible1x1Conv.attrs self = conv1x1_attrs
  /\ size (Invertible1x1Conv.weight self) = [C; C; 1; 1]
  /\ 2 <= C /\ 0 < H /\ 0 < W
  /\ exists Minv,
       inverse (squeeze (Invertible1x1Conv.weight self)) = Ok Minv
       /\ left_inverse Minv (squeeze (Invertible1x1Conv.weight self)) C.

(** The layers that are bijections on arrays of size [(B, C, H, W)]:
    shuffles, invertible 1x1 convolutions, coupling layers, and lists of
    such layers, nested to any depth. *)
Fixpoint flow_layer (B C H W : nat) (l : layer) {struct l} : Prop :=
  match l with
  | LShuffle self => shuffle_built C self
  | LInvertible1x1Conv self => conv_invertible C H W self
  | LAdditiveCoupling self =>
      exists k, C = 2 * k
                /\ NN_contract (AdditiveCoupling.NN self) B k k H W
  | LAffineCoupling self =>
      exists k, C = 2 * k
                /\ NN_contract (AffineCoupling.NN self) B k (2 * k) H W
  | LLayerList layers =>
      (fix all (ls : list layer) : Prop :=
         match ls with
         | [] => True
         | l' :: ls' => flow_layer B C H W l' /\ all ls'
         end) layers
  | _ => False
  end.

(** A configuration of the end-to-end scenario: two levels of depth one,
    additive coupling, shuffle, no normalization. *)
Definition example_args : Args :=
  {| norm := None; permutation := Some "shuffle"%string;
     coupling := Some "additive"%string;
     depth := 1; n_levels := 2; learntop := false |}.

(** Forward then reverse of one layer, with what the induction over
    lists of layers needs besides: the intermediate array is well formed
    and of the same size. *)
Definition inverts_at (E : Collaborators) (sh : list nat) (l : layer)
  : Prop :=
  forall x o, wf x -> size x = sh ->
    exists y o',
      forward_and_jacobian E l (Some x) o = Ok (Some y, o')
      /\ wf y /\ size y = sh
      /\ reverse_and_jacobian E l (Some y) o' = Ok (Some x, o).

(** Small concrete layers and arrays for the examples: one batch entry,
    two channels, one position. *)
Definition example_x : tensor R := Tensor.mk [1; 2; 1; 1] [0%R; 0%R].

Definition example_shuffle : Shuffle.t := Shuffle.make [1; 0] [1; 0].

Definition example_additive : AdditiveCoupling.t :=
  AdditiveCoupling.make (constant_NN 1%R 1 None).

Definition example_affine : AffineCoupling.t :=
  AffineCoupling.make (constant_NN 1%R 1 (Some 2)).

(** An [Invertible1x1Conv] on two channels whose weight is the identity
    matrix. *)
Definition example_conv : Invertible1x1Conv.t :=
  Invertible1x1Conv.make (Tensor.mk [2; 2; 1; 1] [1%R; 0%R; 0%R; 1%R])
                         conv1x1_attrs 2.

(** A configuration with a permutation variant that does not exist. *)
Definition example_bad_args : Args :=
  {| norm := None; permutation := Some "rotate"%string;
     coupling := Some "additive"%string;
     depth := 1; n_levels := 2; learntop := false |}.

(* ------------------------------------------------------------------ *)
(** * Further vocabulary *)

(** An [Invertible1x1Conv] on two channels whose weight has two equal
    rows. *)
Definition example_singular_conv : Invertible1x1Conv.t :=
  Invertible1x1Conv.make (Tensor.mk [2; 2; 1; 1] [1%R; 1%R; 1%R; 1%R])
                         conv1x1_attrs 2.

(** The layers that are bijections on arrays of size [(B, C, H, W)] with
    the inverse on both sides: as [flow_layer], and for an
    [Invertible1x1Conv] the matrix that [torch.inverse] returns is also a
    right inverse of the weight. *)
Fixpoint bijective_layer (B C H W : nat) (l : layer) {struct l} : Prop :=
  match l with
  | LShuffle self => shuffle_built C self
  | LInvertible1x1Conv self =>
      conv_invertible C H W self
      /\ forall Minv,
           inverse (squeeze (Invertible1x1Conv.weight self)) = Ok Minv ->
           left_inverse (squeeze (Invertible1x1Conv.weight self)) Minv C
  | LAdditiveCoupling self =>
      exists k, C = 2 * k
                /\ NN_contract (AdditiveCoupling.NN self) B k k H W
  | LAffineCoupling self =>
      exists k, C = 2 * k
                /\ NN_contract (AffineCoupling.NN self) B k (2 * k) H W
  | LLayerList layers =>
      (fix all (ls : list layer) : Prop :=
         match ls with
         | [] => True
         | l' :: ls' => bijective_layer B C H W l' /\ all ls'
         end) layers
  | _ => False
  end.

(** Reverse then forward of one layer, with what the induction over
    lists of layers needs besides. *)
Definition inverts_back_at (E : Collaborators) (sh : list nat) (l : layer)
  : Prop :=
  forall y o, wf y -> size y = sh ->
    exists x o',
      reverse_and_jacobian E l (Some y) o = Ok (Some x, o')
      /\ wf x /\ size x = sh
      /\ forward_and_jacobian E l (Some x) o' = Ok (Some y, o).

(** The storage offset of the [n]-th element of a view in row-major
    order, read off the dimensions from the innermost outwards; [rdims]
    lists the pairs (size, stride), innermost first. *)
Fixpoint roffset (rdims : list (nat * nat)) (n : nat) : nat :=
  match rdims with
  | [] => 0
  | (sz, st) :: rest => (n mod sz) * st + roffset rest (n / sz)
  end.

(** The number of elements of such a list of dimensions. *)
Definition rnumel (rdims : list (nat * nat)) : nat :=
  fold_right (fun p acc => fst p * acc) 1 rdims.

(** A [BatchNorm] on two channels as its constructor leaves it. *)
Definition example_batchnorm : BatchNorm.t :=
  BatchNorm.make 2 (1 / 100000)%R (1 / 10)%R
                 (full [2] 0%R) (full [2] 1%R) true.

(** The input shape of level [i] of a [Codec] built for arrays of size
    [(bs, c, h, w)]: the first squeeze multiplies the channels by four
    and every split doubles them, and each halves height and width. *)
Definition level_shape (bs c h w i : nat) : list nat :=
  [bs; c * 4 * 2 ^ i; h / 2 ^ (i + 1); w / 2 ^ (i + 1)].

(** A batch of two arrays with two channels and one position. *)
Definition example_batch : tensor R :=
  Tensor.mk [2; 2; 1; 1] [0%R; 1%R; 2%R; 3%R].

(** The position in a list of the entry that is at position [c] once
    entry [j] has been dropped. *)
Definition skip_index (j c : nat) : nat := if c <? j then c else S c.

(** The exchange of the positions [a] and [a + 1]. *)
Definition swap_at (a c : nat) : nat :=
  if c =? a then S a else if c =? S a then a else c.

(** The minor of a matrix, given by its entries, without row [i] and
    column [j]. *)
Definition minor (f : nat -> nat -> R) (i j : nat) : nat -> nat -> R :=
  fun r c => f (skip_index i r) (skip_index j c).

(** The expansion of [det_rows] on the entries of the matrix. *)
Fixpoint det_fun (n : nat) (f : nat -> nat -> R) : R :=
  match n with
  | 0 => 1%R
  | S n' =>
      sum_list
        (List.map (fun j => ((-1) ^ j * f 0%nat j
                             * det_fun n' (minor f 0 j))%R)
                  (seq 0 n))
  end.

(** Entry [(r, c)] of a matrix given by its rows. *)
Definition entry (m : list (list R)) (r c : nat) : R :=
  nth c (nth r m []) 0%R.

(** An [Invertible1x1Conv] on two channels whose weight doubles the first
    channel: the determinant is two. *)
Definition example_scaling_conv : Invertible1x1Conv.t :=
  Invertible1x1Conv.make (Tensor.mk [2; 2; 1; 1] [2%R; 0%R; 0%R; 1%R])
                         conv1x1_attrs 2.

(** A batch of two arrays with two channels and one position: the first
    channel holds 0 and 4, the second holds 1 twice. *)
Definition example_spread_batch : tensor R :=
  Tensor.mk [2; 2; 1; 1] [0%R; 1%R; 4%R; 1%R].

(* ================================================================== *)
(** * Properties *)

Section IndexArithmetic.

Lemma ravel_lt : forall sh idx,
  in_range sh idx -> ravel sh idx < numel sh.
Proof.
  intros sh idx Hr. unfold in_range in Hr.
  induction Hr as [| i n idx sh Hlt _ IH]; simpl.
  - lia.
  - fold (numel sh). nia.
Qed.

Lemma unravel_ravel : forall sh idx,
  in_range sh idx -> unravel sh (ravel sh idx) = idx.
Proof.
  intros sh idx Hr. unfold in_range in Hr.
  induction Hr as [| i n idx sh Hlt Hrest IH]; simpl.
  - reflexivity.
  - fold (numel sh).
    pose proof (ravel_lt _ _ Hrest) as Hb.
    assert (Hn : numel sh <> 0) by lia.
    rewrite Nat.div_add_l by exact Hn.
    rewrite (Nat.div_small _ _ Hb), Nat.add_0_r.
    rewrite Nat.add_comm, Nat.Div0.mod_add.
    rewrite (Nat.mod_small _ _ Hb), IH. reflexivity.
Qed.

Lemma unravel_in_range : forall sh n,
  n < numel sh -> in_range sh (unravel sh n).
Proof.
  induction sh as [| m sh IH]; intros n Hn; simpl in *.
  - constructor.
  - fold (numel sh) in *.
    assert (Hz : numel sh <> 0) by (intro E; rewrite E in Hn; lia).
    constructor.
    + apply Nat.Div0.div_lt_upper_bound. lia.
    + apply IH. apply Nat.mod_upper_bound. exact Hz.
Qed.

Lemma ravel_unravel : forall sh n,
  n < numel sh -> ravel sh (unravel sh n) = n.
Proof.
  induction sh as [| m sh IH]; intros n Hn; simpl in *.
  - lia.
  - fold (numel sh) in *.
    assert (Hz : numel sh <> 0) by (intro E; rewrite E in Hn; lia).
    rewrite IH by (apply Nat.mod_upper_bound; exact Hz).
    pose proof (Nat.div_mod_eq n (numel sh)). lia.
Qed.

Lemma in_range_length : forall sh idx,
  in_range sh idx -> length idx = length sh.
Proof.
  intros sh idx Hr. induction Hr; simpl; congruence.
Qed.

End IndexArithmetic.

Section TabulateLemmas.
Context {A : Type} `{Default A}.

Lemma wf_tabulate : forall sh (f : list nat -> A), wf (tabulate sh f).
Proof.
  intros. unfold wf, tabulate. simpl.
  rewrite length_map, length_seq. reflexivity.
Qed.

Lemma size_tabulate : forall sh (f : list nat -> A),
  size (tabulate sh f) = sh.
Proof. reflexivity. Qed.

Lemma get_tabulate : forall sh (f : list nat -> A) idx,
  in_range sh idx -> get (tabulate sh f) idx = f idx.
Proof.
  intros sh f idx Hr. unfold get, tabulate. simpl.
  pose proof (ravel_lt _ _ Hr) as Hlt.
  rewrite nth_indep with (d' := f (unravel sh 0))
    by (rewrite length_map, length_seq; exact Hlt).
  rewrite (map_nth (fun n => f (unravel sh n)) (seq 0 (numel sh)) 0).
  rewrite seq_nth by exact Hlt. simpl.
  rewrite unravel_ravel by exact Hr. reflexivity.
Qed.

Lemma tabulate_ext : forall sh (f g : list nat -> A),
  (forall idx, in_range sh idx -> f idx = g idx) ->
  tabulate sh f = tabulate sh g.
Proof.
  intros sh f g Hfg. unfold tabulate. f_equal.
  apply map_ext_in. intros n Hn. apply in_seq in Hn.
  apply Hfg. apply unravel_in_range. lia.
Qed.

Lemma tabulate_get : forall t : tensor A,
  wf t -> tabulate (size t) (get t) = t.
Proof.
  intros [sh d] Hwf. unfold wf in Hwf. simpl in Hwf.
  unfold tabulate, get. simpl. f_equal.
  apply nth_ext with (d := default) (d' := default).
  - rewrite length_map, length_seq. symmetry. exact Hwf.
  - intros n Hn. rewrite length_map, length_seq in Hn.
    rewrite nth_indep with (d' := nth (ravel sh (unravel sh 0)) d default)
      by (rewrite length_map, length_seq; exact Hn).
    rewrite (map_nth (fun n => nth (ravel sh (unravel sh n)) d default)
               (seq 0 (numel sh)) 0).
    rewrite seq_nth by exact Hn. simpl.
    rewrite ravel_unravel by exact Hn. reflexivity.
Qed.

(** Two well-formed tensors of one size are equal when they agree at
    every index. *)
Lemma tensor_ext : forall t1 t2 : tensor A,
  wf t1 -> wf t2 -> size t1 = size t2 ->
  (forall idx, in_range (size t1) idx -> get t1 idx = get t2 idx) ->
  t1 = t2.
Proof.
  intros t1 t2 H1 H2 Hs Hg.
  rewrite <- (tabulate_get _ H1), <- (tabulate_get _ H2), <- Hs.
  apply tabulate_ext. exact Hg.
Qed.

End TabulateLemmas.

(* ------------------------------------------------------------------ *)
(** * Facts about four-dimensional tensors and their channel axis *)

Section ChannelFacts.

Lemma in_range4_inv : forall a b c d idx,
  in_range [a; b; c; d] idx ->
  exists i j k l, idx = [i; j; k; l] /\ i < a /\ j < b /\ k < c /\ l < d.
Proof.
  intros a b c d idx Hr. unfold in_range in Hr.
  inversion Hr as [| i ? idx1 ? Hi H1]; subst.
  inversion H1 as [| j ? idx2 ? Hj H2]; subst.
  inversion H2 as [| k ? idx3 ? Hk H3]; subst.
  inversion H3 as [| l ? idx4 ? Hl H4]; subst.
  inversion H4; subst.
  exists i, j, k, l. repeat split; assumption.
Qed.

Lemma in_range4 : forall a b c d i j k l,
  i < a -> j < b -> k < c -> l < d -> in_range [a; b; c; d] [i; j; k; l].
Proof. intros. repeat constructor; assumption. Qed.

Lemma chunk_bounds_even : forall k,
  chunk_bounds (2 * k) 2 = [(0, k); (k, k)].
Proof.
  intro k. unfold chunk_bounds.
  replace ((2 * k + 2 - 1) / 2) with k
    by (apply Nat.div_unique with (r := 1); lia).
  destruct k as [| k'].
  - reflexivity.
  - set (k := S k').
    replace (k =? 0) with false by reflexivity.
    replace ((2 * k + k - 1) / k) with 2
      by (apply Nat.div_unique with (r := k - 1); lia).
    cbn [Nat.max seq List.map].
    repeat f_equal; lia.
Qed.

Lemma list_eqb_refl : forall l, list_eqb l l = true.
Proof.
  intro l. unfold list_eqb. destruct (list_eq_dec Nat.eq_dec l l); congruence.
Qed.

Lemma broadcast_rev_same : forall l, broadcast_rev l l = Some l.
Proof.
  induction l as [| x l IH]; simpl.
  - reflexivity.
  - rewrite IH, Nat.eqb_refl. reflexivity.
Qed.

Lemma broadcast_shapes_same : forall sh, broadcast_shapes sh sh = Some sh.
Proof.
  intro sh. unfold broadcast_shapes.
  rewrite broadcast_rev_same. simpl. rewrite rev_involutive. reflexivity.
Qed.

Lemma bidx_same : forall sh idx, in_range sh idx -> bidx sh idx = idx.
Proof.
  intros sh idx Hr. unfold bidx.
  rewrite (in_range_length _ _ Hr), Nat.sub_diag. simpl.
  unfold in_range in Hr.
  induction Hr as [| i n idx sh Hlt _ IH]; simpl.
  - reflexivity.
  - rewrite IH. destruct (Nat.eqb_spec n 1); [f_equal; lia | reflexivity].
Qed.

(** Between tensors of one size a binary operation acts entry by
    entry. *)
Lemma binop_same_size : forall (f : R -> R -> R) (a b : tensor R),
  size a = size b ->
  binop f a b
  = Ok (tabulate (size a) (fun idx => f (get a idx) (get b idx))).
Proof.
  intros f a b Hs. unfold binop.
  rewrite <- Hs, broadcast_shapes_same. simpl. f_equal.
  apply tabulate_ext. intros idx Hr.
  rewrite (bidx_same _ _ Hr). reflexivity.
Qed.

End ChannelFacts.

(** Splitting an index of a four-dimensional tensor into its entries. *)
Ltac split_index Hr :=
  let i := fresh "b" in
  let j := fresh "c" in
  let k := fresh "i" in
  let l := fresh "j" in
  apply in_range4_inv in Hr;
  destruct Hr as (i & j & k & l & -> & ? & ? & ? & ?).

Ltac solve_range := apply in_range4; lia.

Section StoreFacts.
Variables B C H W : nat.
Variable X : tensor R.
Hypothesis X_size : size X = [B; C; H; W].

Lemma narrow_channels : forall start len,
  start + len <= C ->
  narrow X 1 start len = Ok (channels X start len).
Proof.
  intros start len Hle. unfold narrow, channels. rewrite X_size. simpl.
  apply Nat.leb_le in Hle. rewrite Hle. reflexivity.
Qed.

Lemma size_channels : forall start len,
  size (channels X start len) = [B; len; H; W].
Proof. intros. unfold channels. rewrite X_size. reflexivity. Qed.

Lemma get_channels : forall start len b c i j,
  b < B -> c < len -> i < H -> j < W ->
  get (channels X start len) [b; c; i; j] = get X [b; start + c; i; j].
Proof.
  intros. unfold channels. rewrite X_size. simpl map_at.
  rewrite get_tabulate by solve_range. reflexivity.
Qed.

Lemma size_splice : forall start len v,
  size (Store.splice X start len v) = [B; C; H; W].
Proof. intros. unfold Store.splice. rewrite X_size. reflexivity. Qed.

Lemma wf_splice : forall start len v, wf (Store.splice X start len v).
Proof. intros. apply wf_tabulate. Qed.

Lemma get_splice : forall start len v b c i j,
  b < B -> c < C -> i < H -> j < W ->
  get (Store.splice X start len v) [b; c; i; j]
  = if (start <=? c) && (c <? start + len)
    then get v [b; c - start; i; j]
    else get X [b; c; i; j].
Proof.
  intros. unfold Store.splice. rewrite X_size.
  rewrite get_tabulate by solve_range. reflexivity.
Qed.

(** Reading back the window that was just written. *)
Lemma channels_splice_same : forall start len v,
  start + len <= C -> wf v -> size v = [B; len; H; W] ->
  channels (Store.splice X start len v) start len = v.
Proof.
  intros start len v Hle Hwf Hs.
  apply tensor_ext.
  - apply wf_tabulate.
  - exact Hwf.
  - unfold channels. rewrite size_splice, Hs. reflexivity.
  - intros idx Hr. unfold channels in Hr. rewrite size_splice in Hr.
    simpl in Hr. split_index Hr.
    unfold channels. rewrite size_splice. simpl map_at.
    rewrite get_tabulate by solve_range. simpl map_at.
    rewrite get_splice by lia.
    replace ((start <=? start + c) && (start + c <? start + len)) with true.
    + f_equal. repeat f_equal. lia.
    + symmetry. apply andb_true_iff. split.
      * apply Nat.leb_le. lia.
      * apply Nat.ltb_lt. lia.
Qed.

(** A window below the one written is unchanged. *)
Lemma channels_splice_before : forall start len v n,
  n <= start -> start <= C ->
  channels (Store.splice X start len v) 0 n = channels X 0 n.
Proof.
  intros start len v n Hle HC. unfold channels.
  rewrite size_splice, X_size. simpl map_at.
  apply tabulate_ext. intros idx Hr. split_index Hr. simpl map_at.
  rewrite get_splice by lia.
  replace (start <=? c) with false by (symmetry; apply Nat.leb_gt; lia).
  reflexivity.
Qed.

Lemma splice_splice : forall start len v v',
  Store.splice (Store.splice X start len v) start len v'
  = Store.splice X start len v'.
Proof.
  intros. unfold Store.splice at 1 3. rewrite size_splice, X_size.
  apply tabulate_ext. intros idx Hr. split_index Hr. simpl nth.
  destruct ((start <=? c) && (c <? start + len)) eqn:E.
  - reflexivity.
  - rewrite get_splice by lia. rewrite E. reflexivity.
Qed.

(** Joining the two halves of a tensor gives the tensor back. *)
Lemma cat_halves : forall k,
  C = 2 * k -> wf X ->
  cat [channels X 0 k; channels X k k] 1 = Ok X.
Proof.
  intros k HC Hwf. simpl. unfold cat2.
  rewrite !size_channels. simpl. rewrite list_eqb_refl. simpl.
  f_equal. symmetry. apply tensor_ext.
  - exact Hwf.
  - apply wf_tabulate.
  - rewrite X_size. simpl. f_equal. f_equal. lia.
  - intros idx Hr. rewrite X_size in Hr. split_index Hr.
    rewrite get_tabulate by solve_range. simpl nth.
    destruct (Nat.ltb_spec c k).
    + rewrite get_channels by lia. reflexivity.
    + simpl map_at. rewrite get_channels by lia.
      do 2 f_equal. f_equal. lia.
Qed.

End StoreFacts.

Section StoreOperations.

Lemma nth_error_set_nth : forall (s : Store.store) l t X,
  nth_error s l = Some X ->
  nth_error (Store.set_nth l t s) l = Some t.
Proof.
  induction s as [| y s IH]; intros [| l] t X Hl; simpl in *;
    try discriminate; eauto.
Qed.

Lemma set_nth_set_nth : forall (s : Store.store) l t t',
  Store.set_nth l t' (Store.set_nth l t s) = Store.set_nth l t' s.
Proof.
  induction s as [| y s IH]; intros [| l] t t'; simpl; try reflexivity.
  rewrite IH. reflexivity.
Qed.

Variables (s : Store.store) (l : Store.loc) (X : tensor R).
Variables B C H W : nat.
Hypothesis Hl : nth_error s l = Some X.
Hypothesis X_size : size X = [B; C; H; W].

Lemma store_read_whole : Store.read s (Store.ref l None) = Ok X.
Proof. unfold Store.read. simpl. rewrite Hl. reflexivity. Qed.

Lemma store_read_window : forall start len,
  start + len <= C ->
  Store.read s (Store.ref l (Some (start, len)))
  = Ok (channels X start len).
Proof.
  intros. unfold Store.read. simpl. rewrite Hl. simpl.
  apply narrow_channels with (B := B) (C := C) (H := H) (W := W); assumption.
Qed.

Lemma store_chunk_halves : forall k,
  C = 2 * k ->
  Store.chunk (Store.ref l None) 2 s
  = Ok ([Store.ref l (Some (0, k)); Store.ref l (Some (k, k))], s).
Proof.
  intros k HC. unfold Store.chunk. rewrite store_read_whole.
  cbn [Py.bind]. rewrite X_size.
  cbn [nth_error of_option Py.bind Store.window Store.base].
  rewrite HC, chunk_bounds_even. reflexivity.
Qed.

Lemma store_update_window : forall f start len v,
  start + len <= C -> size v = [B; len; H; W] ->
  Store.update f (Store.ref l (Some (start, len))) v s
  = Ok (tt, Store.set_nth l
              (Store.splice X start len
                 (zip_with f (channels X start len) v)) s).
Proof.
  intros f start len v Hle Hv. unfold Store.update.
  rewrite store_read_window by exact Hle. cbn [Py.bind].
  rewrite binop_same_size
    by (rewrite (size_channels B C H W X X_size); symmetry; exact Hv).
  cbn [Py.bind]. rewrite size_tabulate, list_eqb_refl.
  cbn [raise_unless Py.bind]. unfold Store.write, zip_with.
  cbn [Store.base Store.window]. rewrite Hl. reflexivity.
Qed.

Lemma store_cat_halves : forall k,
  C = 2 * k -> wf X ->
  Store.cat_refs [Store.ref l (Some (0, k)); Store.ref l (Some (k, k))] s
  = Ok (X, s).
Proof.
  intros k HC Hwf. unfold Store.cat_refs. unfold mapM.
  rewrite !store_read_window by lia. cbn [Py.bind].
  rewrite (cat_halves B C H W X X_size k HC Hwf). reflexivity.
Qed.

End StoreOperations.

(* ------------------------------------------------------------------ *)
(** * The coupling layers on the store *)

Section AdditiveCouplingStore.
Variables (self : AdditiveCoupling.t) (s : Store.store) (l : Store.loc).
Variables (X h : tensor R) (B k H W : nat) (o : objective_t).
Hypothesis Hl : nth_error s l = Some X.
Hypothesis X_wf : wf X.
Hypothesis X_size : size X = [B; 2 * k; H; W].
Hypothesis HNN : AdditiveCoupling.NN self (channels X 0 k) = Ok h.
Hypothesis h_size : size h = [B; k; H; W].

(** Both directions write [z2 op NN(z1)] into the second half of the
    caller's tensor and return a copy of the updated tensor. *)
Lemma additive_store (f : R -> R -> R)
  (m : AdditiveCoupling.t -> Store.tref -> objective_t
       -> Store.M (tensor R * objective_t)) :
  (forall self x o,
      m self x o
      = (zs <- Store.chunk x 2 ;;
         ' (z1, z2) <- Store.lift (unpack2 zs) ;;
         z1v <- Store.load z1 ;;
         h <- Store.lift (AdditiveCoupling.NN self z1v) ;;
         Store.update f z2 h ;;;
         out <- Store.cat_refs [z1; z2] ;;
         Store.ret (out, o))%store) ->
  let Y := Store.splice X k k (zip_with f (channels X k k) h) in
  m self (Store.ref l None) o s = Ok ((Y, o), Store.set_nth l Y s).
Proof.
  intros Hm Y. rewrite Hm. unfold Store.bind.
  rewrite (store_chunk_halves s l X B (2 * k) H W Hl X_size k eq_refl).
  cbn [Store.lift unpack2]. unfold Store.load.
  rewrite (store_read_window s l X B (2 * k) H W Hl X_size) by lia.
  cbn [Py.bind]. rewrite HNN. cbn [Store.lift].
  rewrite (store_update_window s l X B (2 * k) H W Hl X_size)
    by (lia || assumption).
  fold Y.
  rewrite (store_cat_halves (Store.set_nth l Y s) l Y B (2 * k) H W
             (nth_error_set_nth s l Y X Hl)
             (size_splice B (2 * k) H W X X_size _ _ _) k eq_refl
             (wf_splice X _ _ _)).
  reflexivity.
Qed.

Lemma additive_forward_store :
  let Y := Store.splice X k k (zip_with Rplus (channels X k k) h) in
  AdditiveCoupling.forward_and_jacobian self (Store.ref l None) o s
  = Ok ((Y, o), Store.set_nth l Y s).
Proof. apply additive_store. reflexivity. Qed.

Lemma additive_reverse_store :
  let Y := Store.splice X k k (zip_with Rminus (channels X k k) h) in
  AdditiveCoupling.reverse_and_jacobian self (Store.ref l None) o s
  = Ok ((Y, o), Store.set_nth l Y s).
Proof. apply additive_store. reflexivity. Qed.

End AdditiveCouplingStore.

Section SliceFacts.
Variables (h : tensor R) (B k H W : nat).
Hypothesis h_size : size h = [B; 2 * k; H; W].

Lemma slice_step_even :
  slice_step h 1 0 2 = Ok (strided_channels h 0 2 k).
Proof.
  unfold slice_step, strided_channels. rewrite h_size.
  change (0 <? 2) with true.
  cbn [nth_error of_option Py.bind raise_unless].
  destruct k as [| k'].
  - reflexivity.
  - replace (0 <? 2 * S k') with true by (symmetry; apply Nat.ltb_lt; lia).
    replace ((2 * S k' - 0 + 2 - 1) / 2) with (S k')
      by (apply Nat.div_unique with (r := 1); lia).
    reflexivity.
Qed.

Lemma slice_step_odd :
  slice_step h 1 1 2 = Ok (strided_channels h 1 2 k).
Proof.
  unfold slice_step, strided_channels. rewrite h_size.
  change (0 <? 2) with true.
  cbn [nth_error of_option Py.bind raise_unless].
  destruct k as [| k'].
  - reflexivity.
  - replace (1 <? 2 * S k') with true by (symmetry; apply Nat.ltb_lt; lia).
    replace ((2 * S k' - 1 + 2 - 1) / 2) with (S k')
      by (apply Nat.div_unique with (r := 0); lia).
    reflexivity.
Qed.

Lemma size_strided_channels : forall start step,
  size (strided_channels h start step k) = [B; k; H; W].
Proof. intros. unfold strided_channels. rewrite h_size. reflexivity. Qed.

Lemma get_strided_channels : forall start step b c i j,
  b < B -> c < k -> i < H -> j < W ->
  get (strided_channels h start step k) [b; c; i; j]
  = get h [b; start + c * step; i; j].
Proof.
  intros. unfold strided_channels. rewrite h_size. simpl map_at.
  rewrite get_tabulate by solve_range. reflexivity.
Qed.

Lemma scale_of_eq : AffineCoupling.scale_of h = Ok (scale_tensor h k).
Proof.
  unfold AffineCoupling.scale_of. rewrite slice_step_odd. reflexivity.
Qed.

Lemma size_scale_tensor : size (scale_tensor h k) = [B; k; H; W].
Proof. exact (size_strided_channels 1 2). Qed.

End SliceFacts.

Section AffineCouplingStore.
Variables (self : AffineCoupling.t) (s : Store.store) (l : Store.loc).
Variables (X h : tensor R) (B k H W : nat) (o : objective_t).
Hypothesis Hl : nth_error s l = Some X.
Hypothesis X_wf : wf X.
Hypothesis X_size : size X = [B; 2 * k; H; W].
Hypothesis HNN : AffineCoupling.NN self (channels X 0 k) = Ok h.
Hypothesis h_size : size h = [B; 2 * k; H; W].


(** Two in-place operations in a row on the second half, followed by
    the concatenation of both halves. *)
Lemma store_update_twice_cat : forall f g a b (o' : objective_t),
  size a = [B; k; H; W] -> size b = [B; k; H; W] ->
  let Y := Store.splice X k k
             (zip_with g (zip_with f (channels X k k) a) b) in
  (Store.update f (Store.ref l (Some (k, k))) a ;;;
   Store.update g (Store.ref l (Some (k, k))) b ;;;
   out <- Store.cat_refs
            [Store.ref l (Some (0, k)); Store.ref l (Some (k, k))] ;;
   Store.ret (out, o'))%store s
  = Ok ((Y, o'), Store.set_nth l Y s).
Proof.
  intros f g a b o' Ha Hb Y. unfold Store.bind.
  rewrite (store_update_window s l X B (2 * k) H W Hl X_size)
    by (lia || assumption).
  set (X1 := Store.splice X k k (zip_with f (channels X k k) a)).
  rewrite (store_update_window (Store.set_nth l X1 s) l X1 B (2 * k) H W
             (nth_error_set_nth s l X1 X Hl)
             (size_splice B (2 * k) H W X X_size _ _ _))
    by (lia || assumption).
  rewrite set_nth_set_nth.
  assert (HY : Store.splice X1 k k (zip_with g (channels X1 k k) b) = Y).
  { unfold X1.
    rewrite (channels_splice_same B (2 * k) H W X X_size).
    - apply (splice_splice B (2 * k) H W X X_size).
    - lia.
    - apply wf_tabulate.
    - unfold zip_with. rewrite size_tabulate.
      apply (size_channels B (2 * k) H W X X_size). }
  rewrite HY.
  rewrite (store_cat_halves (Store.set_nth l Y s) l Y B (2 * k) H W
             (nth_error_set_nth s l Y X Hl)
             (size_splice B (2 * k) H W X X_size _ _ _) k eq_refl
             (wf_splice X _ _ _)).
  reflexivity.
Qed.

Lemma affine_forward_store :
  let shift := strided_channels h 0 2 k in
  let scale := scale_tensor h k in
  let Y := Store.splice X k k
             (zip_with Rmult (zip_with Rplus (channels X k k) shift) scale) in
  AffineCoupling.forward_and_jacobian self (Store.ref l None) o s
  = Ok ((Y, iadd o (sum_all (pointwise ln scale))), Store.set_nth l Y s).
Proof.
  intros shift scale Y. unfold AffineCoupling.forward_and_jacobian.
  unfold Store.bind at 1 2 3 4 5 6.
  rewrite (store_chunk_halves s l X B (2 * k) H W Hl X_size k eq_refl).
  cbn [Store.lift unpack2]. unfold Store.load.
  rewrite (store_read_window s l X B (2 * k) H W Hl X_size) by lia.
  cbn [Py.bind]. rewrite HNN. cbn [Store.lift].
  rewrite (slice_step_even h B k H W h_size).
  rewrite (scale_of_eq h B k H W h_size).
  apply (store_update_twice_cat Rplus Rmult shift scale
           (iadd o (sum_all (pointwise ln scale)))
           (size_strided_channels h B k H W h_size 0 2)
           (size_scale_tensor h B k H W h_size)).
Qed.

Lemma affine_reverse_store :
  let shift := strided_channels h 0 2 k in
  let scale := scale_tensor h k in
  let Y := Store.splice X k k
             (zip_with Rminus (zip_with Rdiv (channels X k k) scale) shift) in
  AffineCoupling.reverse_and_jacobian self (Store.ref l None) o s
  = Ok ((Y, isub o (sum_all (pointwise ln scale))), Store.set_nth l Y s).
Proof.
  intros shift scale Y. unfold AffineCoupling.reverse_and_jacobian.
  unfold Store.bind at 1 2 3 4 5 6.
  rewrite (store_chunk_halves s l X B (2 * k) H W Hl X_size k eq_refl).
  cbn [Store.lift unpack2]. unfold Store.load.
  rewrite (store_read_window s l X B (2 * k) H W Hl X_size) by lia.
  cbn [Py.bind]. rewrite HNN. cbn [Store.lift].
  rewrite (slice_step_even h B k H W h_size).
  rewrite (scale_of_eq h B k H W h_size).
  apply (store_update_twice_cat Rdiv Rminus scale shift
           (isub o (sum_all (pointwise ln scale)))
           (size_scale_tensor h B k H W h_size)
           (size_strided_channels h B k H W h_size 0 2)).
Qed.

End AffineCouplingStore.

(* ------------------------------------------------------------------ *)
(** * The constructor of [Reverse] *)

Lemma Shuffle_init_without_argument : forall E self_cls,
  Shuffle.init E self_cls None = Raise TypeError.
Proof. reflexivity. Qed.

Lemma Reverse_num_channel_unbound : forall n : nat,
  PyClass.load_name [("num_channels"%string, n)] "num_channel"
  = Raise NameError.
Proof. reflexivity. Qed.

(** C9. [Reverse(num_channels)] never builds a layer: for every channel
    count the constructor raises [TypeError], because it calls
    [Shuffle.__init__] through [super()] without the channel count (and
    the next statement reads the unbound name [num_channel]).  No
    permutation, reversed or otherwise, is ever stored. *)
Theorem Reverse_init_raises : forall (E : Collaborators) (num_channels : nat),
  Reverse.init E num_channels = Raise TypeError.
Proof. intros. reflexivity. Qed.

(* ------------------------------------------------------------------ *)
(** * The reverse direction of [Split] *)

Lemma unsqueeze_bchw_not_global :
  PyClass.load_global "unsqueeze_bchw" = Raise NameError.
Proof. reflexivity. Qed.

Lemma split2d_prior_not_global :
  PyClass.load_global "split2d_prior" = Raise NameError.
Proof. reflexivity. Qed.

(** C5. [Split.reverse_and_jacobian] raises [NameError] on every input
    and objective, called directly or through the layer protocol: its
    first statement reads [unsqueeze_bchw] as a global name, which is not
    bound, so nothing is un-squeezed, sampled or concatenated. *)
Theorem Split_reverse_raises :
  forall (E : Collaborators) (self : Split.t) (x : option (tensor R))
         (objective : objective_t),
    Split.reverse_and_jacobian E self x objective = Raise NameError
    /\ reverse_and_jacobian E (LSplit self) x objective = Raise NameError.
Proof. intros. split; reflexivity. Qed.

(* ------------------------------------------------------------------ *)
(** * The reverse direction of [GaussianPrior] *)

Lemma GaussianPrior_forward_returns_None :
  forall E self x objective y objective',
    GaussianPrior.forward_and_jacobian E self x objective
    = Ok (y, objective') ->
    y = None.
Proof.
  intros E self x o y o' Hf. unfold GaussianPrior.forward_and_jacobian in Hf.
  repeat match type of Hf with
         | Py.bind ?m _ = Ok _ => destruct m; simpl in Hf; try discriminate
         | (let '(_, _) := ?p in _) = Ok _ => destruct p
         end.
  inversion Hf. reflexivity.
Qed.

Lemma GaussianPrior_backward_raises :
  forall E self x objective,
    exists e, GaussianPrior.backward_and_jacobian E self x objective = Raise e.
Proof.
  intros E self x o. unfold GaussianPrior.backward_and_jacobian.
  destruct x as [t |].
  - exists AssertionError. reflexivity.
  - simpl. destruct (GaussianPrior.or_zero o); simpl; eauto.
Qed.

(** C6. The reverse of [GaussianPrior] under the layer protocol raises
    [NotImplementedError] for every input, [None] included: the class
    names its sampling method [backward_and_jacobian], so
    [reverse_and_jacobian] is the inherited method of [Layer].  The
    method [backward_and_jacobian] itself raises on [None] as well (it
    asks for [torch.zeros_like(None)]), so no sample is ever drawn. *)
Theorem GaussianPrior_reverse_raises :
  forall (E : Collaborators) (self : GaussianPrior.t)
         (x : option (tensor R)) (objective : objective_t),
    reverse_and_jacobian E (LGaussianPrior self) x objective
    = Raise NotImplementedError
    /\ exists e,
         GaussianPrior.backward_and_jacobian E self None objective = Raise e.
Proof.
  intros. split.
  - reflexivity.
  - apply GaussianPrior_backward_raises.
Qed.

(* ------------------------------------------------------------------ *)
(** * The reverse direction of [BatchNorm] *)

Lemma infer_size_length : forall n spec sz,
  Strided.infer_size n spec = Ok sz -> length sz = length spec.
Proof.
  intros n spec sz Hi. unfold Strided.infer_size in Hi.
  destruct (length (filter _ spec)) as [| [| u]].
  - destruct (_ =? n); inversion Hi. apply length_map.
  - destruct (_ || _); inversion Hi. apply length_map.
  - discriminate.
Qed.

Lemma size_at_out_of_range : forall (t : tensor R) (d : nat),
  length (size t) <= d -> size_at t (Z.of_nat d) = Raise IndexError.
Proof.
  intros t d Hle. unfold size_at.
  destruct (Z.ltb_spec (Z.of_nat d) 0); [lia |].
  replace (Z.of_nat d <? Z.of_nat (length (size t)))%Z with false
    by (symmetry; apply Z.ltb_ge; lia).
  rewrite andb_false_r. reflexivity.
Qed.

(** The statistics are computed on the input seen with three
    dimensions. *)
Lemma statistics_three_dims :
  forall input floor input' sum_size mean sumvar var,
    BatchNorm.statistics input floor
    = Ok (input', sum_size, mean, sumvar, var) ->
    length (size input') = 3.
Proof.
  intros input floor input' sum_size mean sumvar var Hs.
  unfold BatchNorm.statistics in Hs.
  destruct (nth_error (size input) 0) as [s0 |]; [| discriminate].
  destruct (nth_error (size input) 1) as [s1 |]; [| discriminate].
  cbn [of_option Py.bind] in Hs.
  unfold view in Hs.
  destruct (Strided.infer_size _ _) as [sz |] eqn:Hi; [| discriminate].
  apply infer_size_length in Hi.
  cbn [Py.bind] in Hs.
  repeat match type of Hs with
         | Py.bind ?m _ = Ok _ =>
             destruct m; cbn [Py.bind] in Hs; try discriminate
         end.
  inversion Hs; subst. exact Hi.
Qed.

Lemma BatchNorm_reverse_training : forall self input objective,
  BatchNorm.training self = true ->
  BatchNorm.reverse self input objective = Raise AssertionError.
Proof.
  intros self input o Ht. unfold BatchNorm.reverse. rewrite Ht. reflexivity.
Qed.

(** Outside training mode [reverse] does not return either: it asks for
    the fourth dimension of an input that it has just reshaped to three
    dimensions. *)
Lemma BatchNorm_reverse_never_returns : forall self input objective,
  exists e, BatchNorm.reverse self input objective = Raise e.
Proof.
  intros self input o. unfold BatchNorm.reverse.
  destruct (BatchNorm.training self); [eexists; reflexivity |].
  cbn [negb assert Py.bind].
  destruct (BatchNorm.statistics input _)
    as [[[[[input' sum_size] mean] sumvar] var] | e] eqn:Hs;
    [| eexists; reflexivity].
  apply statistics_three_dims in Hs.
  cbn [Py.bind].
  destruct (binop Rmult input' _); [| eexists; reflexivity].
  cbn [Py.bind].
  destruct (binop Rplus _ mean); [| eexists; reflexivity].
  cbn [Py.bind].
  destruct (size_at input' 0); [| eexists; reflexivity].
  cbn [Py.bind].
  destruct (size_at input' 2); [| eexists; reflexivity].
  cbn [Py.bind].
  change 3%Z with (Z.of_nat 3).
  rewrite size_at_out_of_range by lia.
  eexists. reflexivity.
Qed.

(** C8. Called through the layer protocol, the reverse of [BatchNorm]
    raises [NotImplementedError] whatever the mode: the class names its
    method [reverse], so [reverse_and_jacobian] is the inherited method of
    [Layer].  The method [reverse] itself raises the mode-misuse
    [AssertionError] in training mode, and outside training mode it
    raises too instead of returning an array. *)
Theorem BatchNorm_reverse_raises :
  forall (E : Collaborators) (self : BatchNorm.t) (x : option (tensor R))
         (input : tensor R) (objective : objective_t),
    reverse_and_jacobian E (LBatchNorm self) x objective
    = Raise NotImplementedError
    /\ (BatchNorm.training self = true ->
        BatchNorm.reverse self input objective = Raise AssertionError)
    /\ exists e, BatchNorm.reverse self input objective = Raise e.
Proof.
  intros. split; [reflexivity | split].
  - apply BatchNorm_reverse_training.
  - apply BatchNorm_reverse_never_returns.
Qed.

(* ------------------------------------------------------------------ *)
(** * Squeeze and un-squeeze *)

(** C2. On every array of size [(2, 4, 8, 8)] the squeeze with factor 2
    returns an array of size [(2, 16, 4, 4)] and leaves the objective
    alone, but [Squeeze.reverse_and_jacobian] applied to that result
    raises [RuntimeError] instead of returning the array: after the
    [permute] the method asks for a [view] of size
    [(-1, h * w, w * factor, c / factor ** 2)], which the permuted layout
    cannot provide (squeeze uses [reshape] there, and the height to ask
    for is [h * factor]). *)
Theorem Squeeze_roundtrip_raises :
  forall (elements : list R) (objective : objective_t),
    let self := Squeeze.make 2 [2; 4; 8; 8] in
    let x := Tensor.mk [2; 4; 8; 8] elements in
    (exists y, Squeeze.forward_and_jacobian self x objective = Ok (y, objective)
               /\ size y = [2; 16; 4; 4])
    /\ (' (y, o) <- Squeeze.forward_and_jacobian self x objective ;;
        Squeeze.reverse_and_jacobian self y o) = Raise RuntimeError.
Proof.
  intros elements o self x. split.
  - unfold Squeeze.forward_and_jacobian.
    cbn [size x raise_unless length Nat.eqb Py.bind].
    destruct (Squeeze.squeeze_bchw self x) as [y | e] eqn:Hq.
    + exists y. split; [reflexivity |].
      vm_compute in Hq. inversion Hq. reflexivity.
    + vm_compute in Hq. discriminate.
  - vm_compute. reflexivity.
Qed.

(* ------------------------------------------------------------------ *)
(** * Construction of a flow step *)

Lemma RevNetStep_unrecognized_raises : forall E num_channels args,
  recognized_permutation args = false \/ recognized_coupling args = false ->
  exists e, RevNetStep.init E num_channels args = Raise e.
Proof.
  intros E C args Hu. unfold RevNetStep.init.
  cbn [PyClass.super_init PyClass.mro PyClass.after PyClass.cls_eqb
       PyClass.init_noargs Py.bind].
  destruct (is_str (norm args) "actnorm"); [eexists; reflexivity |].
  set (norm_part :=
         if is_str (norm args) "batchnorm"
         then l <- BatchNorm.init C None None ;; Ok ([] ++ [LBatchNorm l])
         else assert (negb (truthy (norm args))) ;;; Ok []).
  destruct norm_part as [layers | e]; [| eexists; reflexivity].
  cbn [Py.bind].
  unfold recognized_permutation, recognized_coupling in Hu.
  destruct (is_str (permutation args) "reverse") eqn:Hr.
  { eexists; reflexivity. }
  destruct (is_str (permutation args) "shuffle") eqn:Hs.
  2: { destruct (is_str (permutation args) "conv"); eexists; reflexivity. }
  destruct Hu as [Hu | Hu]; [discriminate |].
  destruct (Shuffle.init E PyClass.Shuffle (Some C)); [| eexists; reflexivity].
  cbn [Py.bind].
  apply orb_false_iff in Hu. destruct Hu as [Ha Hf]. rewrite Ha, Hf.
  eexists; reflexivity.
Qed.

Lemma RevNetStep_layout : forall E num_channels args step,
  RevNetStep.init E num_channels args = Ok step ->
  exists layers, step = LLayerList layers /\ step_layout args layers.
Proof.
  intros E C args step Hi. unfold RevNetStep.init in Hi.
  cbn [PyClass.super_init PyClass.mro PyClass.after PyClass.cls_eqb
       PyClass.init_noargs Py.bind] in Hi.
  destruct (is_str (norm args) "actnorm"); [discriminate |].
  assert (Hnorm : exists norm_part,
             (if is_str (norm args) "batchnorm"
              then l <- BatchNorm.init C None None ;; Ok ([] ++ [LBatchNorm l])
              else assert (negb (truthy (norm args))) ;;; Ok [])
             = Ok norm_part
             /\ (if is_str (norm args) "batchnorm"
                 then exists bn, norm_part = [LBatchNorm bn]
                 else norm_part = [])).
  { destruct (is_str (norm args) "batchnorm").
    - eexists. split; [reflexivity | eexists; reflexivity].
    - destruct (negb (truthy (norm args))); [| discriminate].
      exists []. split; reflexivity. }
  destruct Hnorm as (norm_part & Hn & Hshape). rewrite Hn in Hi.
  cbn [Py.bind] in Hi.
  destruct (is_str (permutation args) "reverse") eqn:Hr; [discriminate |].
  destruct (is_str (permutation args) "shuffle") eqn:Hs.
  2: { destruct (is_str (permutation args) "conv"); discriminate. }
  destruct (Shuffle.init E PyClass.Shuffle (Some C)) as [s |];
    [| discriminate].
  cbn [Py.bind] in Hi.
  assert (Hperm : recognized_permutation args = true).
  { unfold recognized_permutation. rewrite Hr, Hs. reflexivity. }
  destruct (is_str (coupling args) "additive") eqn:Ha.
  - destruct (AdditiveCoupling.init (new_NN E) C) as [a |]; [| discriminate].
    cbn [Py.bind] in Hi. inversion Hi; subst.
    eexists. split; [reflexivity |].
    exists norm_part, (LShuffle s), (LAdditiveCoupling a).
    rewrite <- app_assoc. repeat split; eauto.
  - destruct (is_str (coupling args) "affine") eqn:Hf; [| discriminate].
    destruct (AffineCoupling.init (new_NN E) C) as [a |]; [| discriminate].
    cbn [Py.bind] in Hi. inversion Hi; subst.
    eexists. split; [reflexivity |].
    exists norm_part, (LShuffle s), (LAffineCoupling a).
    rewrite <- app_assoc. repeat split; eauto.
Qed.

(** The error of a step reaches the caller of [RevNet] and of [Codec]
    whenever a step is built at all. *)
Lemma RevNet_unrecognized_raises : forall E input_shape args,
  recognized_permutation args = false \/ recognized_coupling args = false ->
  0 < depth args ->
  exists e, RevNet.init E input_shape args = Raise e.
Proof.
  intros E shape args Hu Hd. unfold RevNet.init.
  cbn [PyClass.super_init PyClass.mro PyClass.after PyClass.cls_eqb
       PyClass.init_noargs Py.bind].
  destruct (unpack4 shape) as [[[[bs c] h] w] |]; [| eexists; reflexivity].
  cbn [Py.bind].
  destruct (depth args) as [| d]; [lia |].
  cbn [seq mapM].
  destruct (RevNetStep_unrecognized_raises E c args Hu) as [e He].
  rewrite He. eexists; reflexivity.
Qed.

Lemma Codec_unrecognized_raises : forall E input_shape args,
  recognized_permutation args = false \/ recognized_coupling args = false ->
  0 < depth args -> 0 < n_levels args ->
  exists e, Codec.init E input_shape args = Raise e.
Proof.
  intros E shape args Hu Hd Hn. unfold Codec.init.
  cbn [PyClass.super_init PyClass.mro PyClass.after PyClass.cls_eqb
       PyClass.init_noargs Py.bind].
  unfold Squeeze.init.
  cbn [PyClass.super_init PyClass.mro PyClass.after PyClass.cls_eqb
       PyClass.init_noargs Py.bind Nat.ltb Nat.leb assert].
  destruct (n_levels args) as [| n]; [lia |].
  cbn [seq Codec.levels length Nat.sub nth_error of_option Py.bind
       Codec.output_shape].
  destruct (Squeeze.output_shape _) as [shape' |]; [| eexists; reflexivity].
  cbn [Py.bind].
  destruct (RevNet_unrecognized_raises E shape' args Hu Hd) as [e He].
  rewrite He. eexists; reflexivity.
Qed.

(** C7. Building a [RevNetStep] with a permutation variant other than
    reverse, shuffle or conv, or a coupling variant other than additive
    or affine, raises, and the error reaches whoever builds a [RevNet] or a
    [Codec] with at least one step; and every step that is built holds
    its layers in the order normalization (if any), permutation, coupling,
    each of the variant the configuration selects. *)
Theorem RevNetStep_init_config :
  forall (E : Collaborators) (num_channels : nat) (args : Args),
    (recognized_permutation args = false
     \/ recognized_coupling args = false ->
     (exists e, RevNetStep.init E num_channels args = Raise e)
     /\ (0 < depth args -> 0 < n_levels args ->
         forall input_shape,
           exists e, Codec.init E input_shape args = Raise e))
    /\ (forall step,
          RevNetStep.init E num_channels args = Ok step ->
          exists layers, step = LLayerList layers /\ step_layout args layers).
Proof.
  intros E C args. split.
  - intro Hu. split.
    + apply RevNetStep_unrecognized_raises. exact Hu.
    + intros Hd Hn shape. apply Codec_unrecognized_raises; assumption.
  - apply RevNetStep_layout.
Qed.

(* ------------------------------------------------------------------ *)
(** * The invertible 1x1 convolution *)

Section Conv1x1.
Variables (self : Invertible1x1Conv.t) (x : tensor R) (B C H W : nat).
Hypothesis attrs_1x1 : Invertible1x1Conv.attrs self = conv1x1_attrs.
Hypothesis weight_size : size (Invertible1x1Conv.weight self) = [C; C; 1; 1].
Hypothesis channels_ge_2 : 2 <= C.
Hypothesis x_size : size x = [B; C; H; W].
Hypothesis H_pos : 0 < H.
Hypothesis W_pos : 0 < W.

Lemma size_squeeze_weight :
  size (squeeze (Invertible1x1Conv.weight self)) = [C; C].
Proof.
  unfold squeeze. cbn [size]. rewrite weight_size. cbn [filter Nat.eqb negb].
  destruct (Nat.eqb_spec C 1); [lia | reflexivity].
Qed.

Lemma get_squeeze_weight : forall co ci,
  get (squeeze (Invertible1x1Conv.weight self)) [co; ci]
  = get (Invertible1x1Conv.weight self) [co; ci; 0; 0].
Proof.
  intros. unfold get. rewrite size_squeeze_weight, weight_size.
  cbn [squeeze data ravel numel fold_right]. f_equal; lia.
Qed.

Lemma dlogdet_eq :
  Invertible1x1Conv.dlogdet self x
  = Ok (ln (Rabs (det_of (squeeze (Invertible1x1Conv.weight self)) C))
        * INR H * INR W)%R.
Proof.
  unfold Invertible1x1Conv.dlogdet, det. rewrite size_squeeze_weight.
  rewrite Nat.eqb_refl. cbn [Py.bind].
  unfold size_at. rewrite x_size. reflexivity.
Qed.

(** A 1x1 convolution with the attributes of the layer mixes the
    channels at every position with the matrix of the weights. *)
Lemma conv2d_1x1 : forall weight M,
  size weight = [C; C; 1; 1] ->
  (forall co ci, get M [co; ci] = get weight [co; ci; 0; 0]) ->
  conv2d x weight conv1x1_attrs
  = Ok (tabulate [B; C; H; W]
          (fun idx => mix_channels M x C (nth 0 idx 0) (nth 1 idx 0)
                                   (nth 2 idx 0) (nth 3 idx 0))).
Proof.
  intros weight M Hw HM. unfold conv2d. rewrite x_size, Hw.
  cbn [of_option Py.bind conv1x1_attrs stride padding dilation groups bias].
  replace (1 * (1 - 1) + 1 <=? H + 2 * 0) with true
    by (symmetry; apply Nat.leb_le; lia).
  replace (1 * (1 - 1) + 1 <=? W + 2 * 0) with true
    by (symmetry; apply Nat.leb_le; lia).
  cbn [Nat.eqb Nat.ltb Nat.leb andb raise_unless Py.bind].
  rewrite Nat.eqb_refl.
  cbn [andb raise_unless Py.bind].
  replace ((H + 2 * 0 - 1 * (1 - 1) - 1) / 1 + 1) with H
    by (rewrite Nat.div_1_r; lia).
  replace ((W + 2 * 0 - 1 * (1 - 1) - 1) / 1 + 1) with W
    by (rewrite Nat.div_1_r; lia).
  f_equal. apply tabulate_ext. intros idx Hr. split_index Hr.
  cbn [nth]. unfold mix_channels. rewrite Rplus_0_l. f_equal.
  apply map_ext_in. intros ci Hci. apply in_seq in Hci.
  cbn [seq List.map sum_list fold_right]. rewrite !Rplus_0_r.
  rewrite HM. f_equal. unfold padded_get.
  rewrite !Nat.mul_1_r, !Nat.add_0_r, !Nat.sub_0_r.
  replace (i <? H) with true by (symmetry; apply Nat.ltb_lt; lia).
  replace (j <? W) with true by (symmetry; apply Nat.ltb_lt; lia).
  reflexivity.
Qed.

Lemma Invertible1x1Conv_forward_eq : forall objective,
  let M := squeeze (Invertible1x1Conv.weight self) in
  Invertible1x1Conv.forward_and_jacobian self x objective
  = Ok (tabulate [B; C; H; W]
          (fun idx => mix_channels M x C (nth 0 idx 0) (nth 1 idx 0)
                                   (nth 2 idx 0) (nth 3 idx 0)),
        iadd objective (ln (Rabs (det_of M C)) * INR H * INR W)%R).
Proof.
  intros o M. unfold Invertible1x1Conv.forward_and_jacobian.
  rewrite dlogdet_eq. cbn [Py.bind]. rewrite attrs_1x1.
  rewrite (conv2d_1x1 (Invertible1x1Conv.weight self) M weight_size
             get_squeeze_weight).
  reflexivity.
Qed.

Lemma inverse_eq : forall Minv,
  inverse (squeeze (Invertible1x1Conv.weight self)) = Ok Minv ->
  size Minv = [C; C] /\ wf Minv.
Proof.
  intros Minv Hinv. unfold inverse in Hinv.
  rewrite size_squeeze_weight, Nat.eqb_refl in Hinv.
  destruct (Req_EM_T _ _); [discriminate |].
  inversion Hinv. split; [reflexivity | apply wf_tabulate].
Qed.

Lemma Invertible1x1Conv_reverse_eq : forall objective Minv,
  let M := squeeze (Invertible1x1Conv.weight self) in
  inverse M = Ok Minv ->
  Invertible1x1Conv.reverse_and_jacobian self x objective
  = Ok (tabulate [B; C; H; W]
          (fun idx => mix_channels Minv x C (nth 0 idx 0) (nth 1 idx 0)
                                   (nth 2 idx 0) (nth 3 idx 0)),
        isub objective (ln (Rabs (det_of M C)) * INR H * INR W)%R).
Proof.
  intros o Minv M Hinv. unfold Invertible1x1Conv.reverse_and_jacobian.
  rewrite dlogdet_eq. cbn [Py.bind]. fold M. rewrite Hinv. cbn [Py.bind].
  rewrite attrs_1x1.
  destruct (inverse_eq Minv Hinv) as [Hs _].
  rewrite (conv2d_1x1 (unsqueeze_last (unsqueeze_last Minv)) Minv).
  - reflexivity.
  - unfold unsqueeze_last. cbn [size]. rewrite Hs. reflexivity.
  - intros co ci. unfold get, unsqueeze_last. cbn [size data].
    rewrite Hs. cbn [app ravel numel fold_right]. f_equal; lia.
Qed.

End Conv1x1.

(* ------------------------------------------------------------------ *)
(** * Entries of the results of the coupling layers *)

Lemma get_pointwise : forall (f : R -> R) (t : tensor R) idx,
  wf t -> in_range (size t) idx ->
  get (pointwise f t) idx = f (get t idx).
Proof.
  intros f t idx Hwf Hr. unfold get, pointwise. cbn [size data].
  pose proof (ravel_lt _ _ Hr) as Hlt. rewrite <- Hwf in Hlt.
  rewrite nth_indep with (d' := f default) by (rewrite length_map; exact Hlt).
  apply map_nth.
Qed.

Lemma get_zip_with : forall f a b idx,
  in_range (size a) idx ->
  get (zip_with f a b) idx = f (get a idx) (get b idx).
Proof.
  intros f a b idx Hr. unfold zip_with.
  rewrite get_tabulate by exact Hr. reflexivity.
Qed.

Lemma run_fresh_ok : forall {T} (m : Store.tref -> Store.M T) x b s',
  m (Store.ref 0 None) [x] = Ok (b, s') -> Store.run_fresh m x = Ok b.
Proof. intros T m x b s' Hm. unfold Store.run_fresh. rewrite Hm. reflexivity. Qed.

Section CouplingEntries.
Variables (x h : tensor R) (B k H W : nat).
Hypothesis x_size : size x = [B; 2 * k; H; W].

Lemma size_second_half_op : forall f v,
  size (zip_with f (channels x k k) v) = [B; k; H; W].
Proof.
  intros. unfold zip_with. rewrite size_tabulate.
  apply (size_channels B (2 * k) H W x x_size).
Qed.

(** The result of a coupling: the first half of the channels is kept,
    the second half is replaced. *)
Lemma get_coupled : forall v b c i j,
  b < B -> c < 2 * k -> i < H -> j < W ->
  get (Store.splice x k k v) [b; c; i; j]
  = if c <? k then get x [b; c; i; j] else get v [b; c - k; i; j].
Proof.
  intros v b c i j Hb Hc Hi Hj.
  rewrite (get_splice B (2 * k) H W x x_size) by assumption.
  destruct (Nat.ltb_spec c k).
  - replace (k <=? c) with false by (symmetry; apply Nat.leb_gt; lia).
    reflexivity.
  - replace (k <=? c) with true by (symmetry; apply Nat.leb_le; lia).
    replace (c <? k + k) with true by (symmetry; apply Nat.ltb_lt; lia).
    reflexivity.
Qed.

Lemma get_second_half : forall b c i j,
  b < B -> k <= c < 2 * k -> i < H -> j < W ->
  get (channels x k k) [b; c - k; i; j] = get x [b; c; i; j].
Proof.
  intros. rewrite (get_channels B (2 * k) H W x x_size) by lia.
  do 3 f_equal. lia.
Qed.

Hypothesis h_size : size h = [B; 2 * k; H; W].

Lemma get_scale_tensor : forall b c i j,
  b < B -> c < k -> i < H -> j < W ->
  get (scale_tensor h k) [b; c; i; j]
  = sigmoid (get h [b; 2 * c + 1; i; j] + 2).
Proof.
  intros. unfold scale_tensor.
  rewrite get_pointwise.
  - rewrite get_pointwise.
    + rewrite (get_strided_channels h B k H W h_size) by assumption.
      do 3 f_equal. f_equal. f_equal. lia.
    + apply wf_tabulate.
    + rewrite (size_strided_channels h B k H W h_size). solve_range.
  - unfold wf, pointwise. cbn [size data]. rewrite length_map.
    apply wf_tabulate.
  - cbn [pointwise size]. rewrite (size_strided_channels h B k H W h_size).
    solve_range.
Qed.

Lemma get_shift_tensor : forall b c i j,
  b < B -> c < k -> i < H -> j < W ->
  get (strided_channels h 0 2 k) [b; c; i; j] = get h [b; 2 * c; i; j].
Proof.
  intros. rewrite (get_strided_channels h B k H W h_size) by assumption.
  do 3 f_equal. lia.
Qed.

End CouplingEntries.

(* ------------------------------------------------------------------ *)
(** * The affine coupling *)

Section AffineCouplingValue.
Variables (E : Collaborators) (self : AffineCoupling.t).
Variables (x h : tensor R) (B k H W : nat) (o : objective_t).
Hypothesis x_size : size x = [B; 2 * k; H; W].
Hypothesis HNN : AffineCoupling.NN self (channels x 0 k) = Ok h.
Hypothesis h_size : size h = [B; 2 * k; H; W].

Lemma affine_forward_value :
  forward_and_jacobian E (LAffineCoupling self) (Some x) o
  = Ok (Some (Store.splice x k k
                (zip_with Rmult
                   (zip_with Rplus (channels x k k)
                             (strided_channels h 0 2 k))
                   (scale_tensor h k))),
        iadd o (sum_all (pointwise ln (scale_tensor h k)))).
Proof.
  cbn [forward_and_jacobian as_tensor of_option Py.bind].
  erewrite run_fresh_ok.
  2: { apply (affine_forward_store self [x] 0 x h B k H W o eq_refl
                x_size HNN h_size). }
  reflexivity.
Qed.

Lemma affine_reverse_value :
  reverse_and_jacobian E (LAffineCoupling self) (Some x) o
  = Ok (Some (Store.splice x k k
                (zip_with Rminus
                   (zip_with Rdiv (channels x k k) (scale_tensor h k))
                   (strided_channels h 0 2 k))),
        isub o (sum_all (pointwise ln (scale_tensor h k)))).
Proof.
  cbn [reverse_and_jacobian as_tensor of_option Py.bind].
  erewrite run_fresh_ok.
  2: { apply (affine_reverse_store self [x] 0 x h B k H W o eq_refl
                x_size HNN h_size). }
  reflexivity.
Qed.

End AffineCouplingValue.

(* ------------------------------------------------------------------ *)
(** * The coupling layers and the caller's array *)

Lemma nth_error_set_nth_other : forall (s : Store.store) l l' t,
  l' <> l -> nth_error (Store.set_nth l t s) l' = nth_error s l'.
Proof.
  induction s as [| y s IH]; intros [| l] [| l'] t Hne; simpl;
    try reflexivity; try congruence.
  apply IH. congruence.
Qed.

(** C10 (as stated) fails: with a network that returns ones, the additive
    coupling called on the array [[0], [0]] (one batch entry, two
    channels, one position) leaves [[0], [0 + 1]] in the caller's array. *)
Lemma coupling_changes_input :
  let self := AdditiveCoupling.make (constant_NN 1%R 1 None) in
  let x := Tensor.mk [1; 2; 1; 1] [0%R; 0%R] in
  ~ leaves_input_unchanged
      (fun r => AdditiveCoupling.forward_and_jacobian self r (scalar 0%R)).
Proof.
  intros self x Hclaim.
  pose proof (additive_forward_store self [x] 0 x
                (full [1; 1; 1; 1] 1%R) 1 1 1 1 (scalar 0%R)
                eq_refl eq_refl eq_refl eq_refl) as Hrun.
  cbv zeta in Hrun.
  specialize (Hclaim [x] (Store.ref 0 None) x _ _ eq_refl Hrun).
  unfold Store.read in Hclaim. cbn [Store.base Store.window Store.set_nth
    nth_error of_option Py.bind] in Hclaim.
  apply (f_equal (fun r => match r with
                           | Ok t => get t [0; 1; 0; 0]
                           | Raise _ => 0%R
                           end)) in Hclaim.
  rename Hclaim into Heq.
  rewrite (get_coupled x 1 1 1 1 eq_refl) in Heq by lia.
  cbn [Nat.ltb Nat.leb Nat.sub] in Heq.
  rewrite get_zip_with in Heq by solve_range.
  rewrite (get_channels 1 2 1 1 x eq_refl) in Heq by lia.
  vm_compute in Heq. lra.
Qed.

(* ------------------------------------------------------------------ *)
(** * The inverse permutation that [Shuffle] stores *)

Section InversePermutation.

Lemma length_set_nth : forall {T} n (v : T) l,
  length (Store.set_nth n v l) = length l.
Proof.
  intros T n v l. revert n.
  induction l as [| y l IH]; intros [| n]; simpl; auto.
Qed.

Lemma nth_set_nth_same : forall {T} n (v d : T) l,
  n < length l -> nth n (Store.set_nth n v l) d = v.
Proof.
  intros T n v d l. revert n.
  induction l as [| y l IH]; intros [| n] Hn; simpl in *;
    try lia; auto with arith.
Qed.

Lemma nth_set_nth_other : forall {T} n m (v d : T) l,
  n <> m -> nth m (Store.set_nth n v l) d = nth m l d.
Proof.
  intros T n m v d l. revert n m.
  induction l as [| y l IH]; intros [| n] [| m] Hne; simpl;
    try reflexivity; try congruence.
  apply IH. congruence.
Qed.

Variable indices : list nat.

Lemma length_fold_step : forall positions rev_indices,
  length (fold_left (Shuffle.invert_step indices) positions rev_indices) = length rev_indices.
Proof.
  induction positions as [| i positions IH]; intro rev_indices; simpl.
  - reflexivity.
  - rewrite IH. unfold Shuffle.invert_step. apply length_set_nth.
Qed.

(** A position that no later step targets keeps its entry. *)
Lemma fold_step_untouched : forall positions rev_indices p,
  ~ In p (List.map (fun i => nth i indices 0) positions) ->
  nth p (fold_left (Shuffle.invert_step indices) positions rev_indices) 0 = nth p rev_indices 0.
Proof.
  induction positions as [| i positions IH]; intros rev_indices p Hp; simpl.
  - reflexivity.
  - simpl in Hp. rewrite IH by tauto.
    unfold Shuffle.invert_step. apply nth_set_nth_other. tauto.
Qed.

Lemma fold_step_inverse : forall positions rev_indices i,
  NoDup (List.map (fun i => nth i indices 0) positions) ->
  (forall j, In j positions -> nth j indices 0 < length rev_indices) ->
  In i positions ->
  nth (nth i indices 0) (fold_left (Shuffle.invert_step indices) positions rev_indices) 0 = i.
Proof.
  induction positions as [| i0 positions IH];
    intros rev_indices i Hnd Hlt Hin; simpl in *.
  - contradiction.
  - inversion Hnd as [| ? ? Hfresh Hnd']; subst.
    destruct Hin as [-> | Hin].
    + rewrite fold_step_untouched by exact Hfresh.
      unfold Shuffle.invert_step. apply nth_set_nth_same.
      apply Hlt. left; reflexivity.
    + apply IH; try assumption.
      intros j Hj. unfold Shuffle.invert_step. rewrite length_set_nth.
      apply Hlt. auto.
Qed.

Lemma fold_step_bounded : forall positions rev_indices C,
  Forall (fun v => v < C) rev_indices ->
  Forall (fun i => i < C) positions ->
  Forall (fun v => v < C) (fold_left (Shuffle.invert_step indices) positions rev_indices).
Proof.
  induction positions as [| i positions IH];
    intros rev_indices C Hrev Hpos; simpl.
  - exact Hrev.
  - inversion Hpos; subst. apply IH; [| assumption].
    unfold Shuffle.invert_step. clear IH Hpos.
    generalize (nth i indices 0) as n.
    induction Hrev as [| y l Hy Hl IHl]; intros [| n]; simpl;
      constructor; auto.
Qed.

End InversePermutation.

Section ShufflePermutation.
Variables (C : nat) (indices : list nat).
Hypothesis indices_perm : Permutation (seq 0 C) indices.

Lemma indices_length : length indices = C.
Proof.
  rewrite <- (Permutation_length indices_perm). apply length_seq.
Qed.

Lemma indices_bounded : forall i, i < C -> nth i indices 0 < C.
Proof.
  intros i Hi.
  assert (Hin : In (nth i indices 0) indices)
    by (apply nth_In; rewrite indices_length; exact Hi).
  apply (Permutation_in _ (Permutation_sym indices_perm)) in Hin.
  apply in_seq in Hin. lia.
Qed.

Lemma indices_as_map :
  List.map (fun i => nth i indices 0) (seq 0 C) = indices.
Proof.
  rewrite <- indices_length. clear indices_perm.
  induction indices as [| y l IH]; simpl.
  - reflexivity.
  - f_equal. rewrite <- seq_shift, map_map. exact IH.
Qed.

Lemma indices_NoDup : NoDup indices.
Proof.
  apply (Permutation_NoDup indices_perm). apply seq_NoDup.
Qed.

(** The loop of the constructor builds the inverse: [rev[perm[i]] = i]. *)
Lemma invert_left : forall i,
  i < C -> nth (nth i indices 0) (Shuffle.invert indices C) 0 = i.
Proof.
  intros i Hi. unfold Shuffle.invert.
  apply fold_step_inverse.
  - rewrite indices_as_map. exact indices_NoDup.
  - intros j Hj. apply in_seq in Hj. rewrite repeat_length.
    apply indices_bounded. lia.
  - apply in_seq. lia.
Qed.

(** And therefore also [perm[rev[c]] = c]. *)
Lemma invert_right : forall c,
  c < C -> nth (nth c (Shuffle.invert indices C) 0) indices 0 = c.
Proof.
  intros c Hc.
  assert (Hin : In c indices).
  { apply (Permutation_in _ indices_perm). apply in_seq. lia. }
  destruct (In_nth _ _ 0 Hin) as (i & Hi & Hnth).
  rewrite indices_length in Hi.
  rewrite <- Hnth at 1. rewrite invert_left by exact Hi. exact Hnth.
Qed.

Lemma invert_length : length (Shuffle.invert indices C) = C.
Proof.
  unfold Shuffle.invert. rewrite length_fold_step. apply repeat_length.
Qed.

Lemma invert_bounded : Forall (fun v => v < C) (Shuffle.invert indices C).
Proof.
  unfold Shuffle.invert. apply fold_step_bounded.
  - destruct C as [| C']; [constructor |].
    apply Forall_forall. intros v Hv. apply repeat_spec in Hv. lia.
  - apply Forall_forall. intros i Hi. apply in_seq in Hi. lia.
Qed.

Lemma indices_Forall : Forall (fun v => v < C) indices.
Proof.
  apply Forall_forall. intros v Hv.
  apply (Permutation_in _ (Permutation_sym indices_perm)) in Hv.
  apply in_seq in Hv. lia.
Qed.

End ShufflePermutation.

(* ------------------------------------------------------------------ *)
(** * Forward, then reverse *)

Lemma layer_ind_nested : forall P : layer -> Prop,
  (forall self, P (LShuffle self)) ->
  (forall self, P (LInvertible1x1Conv self)) ->
  (forall self, P (LSqueeze self)) ->
  (forall self, P (LSplit self)) ->
  (forall self, P (LGaussianPrior self)) ->
  (forall self, P (LAdditiveCoupling self)) ->
  (forall self, P (LAffineCoupling self)) ->
  (forall self, P (LBatchNorm self)) ->
  (forall layers, Forall P layers -> P (LLayerList layers)) ->
  forall l, P l.
Proof.
  intros P H1 H2 H3 H4 H5 H6 H7 H8 Hlist.
  fix IH 1.
  intros [s | s | s | s | s | s | s | s | layers];
    [apply H1 | apply H2 | apply H3 | apply H4 | apply H5 | apply H6
     | apply H7 | apply H8 |].
  apply Hlist. induction layers as [| l layers IHl]; constructor.
  - apply IH.
  - exact IHl.
Qed.

Lemma flow_layer_list : forall B C H W layers,
  flow_layer B C H W (LLayerList layers)
  <-> Forall (flow_layer B C H W) layers.
Proof.
  intros B C H W layers. induction layers as [| l layers IH].
  - split; intros; [constructor | exact I].
  - split.
    + intros [Hl Hrest]. constructor; [exact Hl | apply IH; exact Hrest].
    + intro Hall. inversion Hall; subst. split; [assumption |].
      apply IH. assumption.
Qed.

Lemma isub_iadd : forall (o : objective_t) (q : R), isub (iadd o q) q = o.
Proof.
  intros [sh d] q. unfold isub, iadd, pointwise. cbn [size data].
  f_equal. rewrite map_map. rewrite <- (map_id d) at 2.
  apply map_ext. intro v. lra.
Qed.

Lemma sigmoid_pos : forall v, (0 < sigmoid v)%R.
Proof.
  intro v. unfold sigmoid. apply Rdiv_lt_0_compat; [lra |].
  pose proof (exp_pos (- v)). lra.
Qed.


Lemma index_select_channels : forall (x : tensor R) B C H W indices,
  size x = [B; C; H; W] ->
  Forall (fun v => v < C) indices ->
  index_select x 1 indices
  = Ok (tabulate [B; length indices; H; W]
          (fun idx => get x (map_at 1 (fun c => nth c indices 0) idx))).
Proof.
  intros x B C H W indices Hx Hall. unfold index_select. rewrite Hx.
  cbn [nth_error of_option Py.bind].
  replace (forallb (fun i => i <? C) indices) with true.
  - reflexivity.
  - symmetry. apply forallb_forall. intros v Hv.
    apply Nat.ltb_lt. rewrite Forall_forall in Hall. apply Hall. exact Hv.
Qed.

Lemma Shuffle_inverts : forall E B C H W self,
  shuffle_built C self -> inverts_at E [B; C; H; W] (LShuffle self).
Proof.
  intros E B C H W self [Hperm Hrev] x o Hwf Hx.
  pose proof (indices_length C _ Hperm) as Hlen.
  pose proof (invert_length C (Shuffle.indices self)) as Hlen'.
  eexists. exists o.
  cbn [forward_and_jacobian reverse_and_jacobian as_tensor of_option Py.bind].
  unfold Shuffle.forward_and_jacobian, Shuffle.reverse_and_jacobian.
  rewrite (index_select_channels x B C H W _ Hx (indices_Forall C _ Hperm)).
  cbn [Py.bind some_array]. split; [reflexivity |].
  split; [apply wf_tabulate |].
  split; [rewrite size_tabulate, Hlen; reflexivity |].
  rewrite Hrev.
  rewrite (index_select_channels _ B C H W (Shuffle.invert _ C)).
  - cbn [Py.bind some_array]. do 3 f_equal.
    rewrite Hlen, Hlen'. symmetry. apply tensor_ext.
    + exact Hwf.
    + apply wf_tabulate.
    + rewrite Hx. reflexivity.
    + intros idx Hr. rewrite Hx in Hr. split_index Hr.
      rewrite get_tabulate by solve_range. cbn [map_at].
      rewrite get_tabulate
        by (apply in_range4; try assumption;
            pose proof (invert_bounded C (Shuffle.indices self) Hperm) as Hb;
            rewrite Forall_forall in Hb; apply Hb; apply nth_In; lia).
      cbn [map_at]. rewrite (invert_right C _ Hperm) by assumption.
      reflexivity.
  - rewrite size_tabulate, Hlen. reflexivity.
  - apply invert_bounded. exact Hperm.
Qed.

(* ------------------------------------------------------------------ *)
(** * The additive coupling *)

Section AdditiveCouplingValue.
Variables (E : Collaborators) (self : AdditiveCoupling.t).
Variables (x h : tensor R) (B k H W : nat) (o : objective_t).
Hypothesis x_size : size x = [B; 2 * k; H; W].
Hypothesis HNN : AdditiveCoupling.NN self (channels x 0 k) = Ok h.
Hypothesis h_size : size h = [B; k; H; W].

Lemma additive_forward_value :
  forward_and_jacobian E (LAdditiveCoupling self) (Some x) o
  = Ok (Some (Store.splice x k k (zip_with Rplus (channels x k k) h)), o).
Proof.
  cbn [forward_and_jacobian as_tensor of_option Py.bind].
  erewrite run_fresh_ok.
  2: { apply (additive_forward_store self [x] 0 x h B k H W o eq_refl
                x_size HNN h_size). }
  reflexivity.
Qed.

Lemma additive_reverse_value :
  reverse_and_jacobian E (LAdditiveCoupling self) (Some x) o
  = Ok (Some (Store.splice x k k (zip_with Rminus (channels x k k) h)), o).
Proof.
  cbn [reverse_and_jacobian as_tensor of_option Py.bind].
  erewrite run_fresh_ok.
  2: { apply (additive_reverse_store self [x] 0 x h B k H W o eq_refl
                x_size HNN h_size). }
  reflexivity.
Qed.

End AdditiveCouplingValue.

(** Writing the old second half back gives the array back. *)
Lemma splice_restore : forall (x v v' : tensor R) B k H W,
  wf x -> size x = [B; 2 * k; H; W] ->
  (forall b c i j, b < B -> c < k -> i < H -> j < W ->
     get v' [b; c; i; j] = get x [b; k + c; i; j]) ->
  Store.splice (Store.splice x k k v) k k v' = x.
Proof.
  intros x v v' B k H W Hwf Hx Hv'.
  rewrite (splice_splice B (2 * k) H W x Hx).
  apply tensor_ext.
  - apply wf_tabulate.
  - exact Hwf.
  - rewrite (size_splice B (2 * k) H W x Hx). symmetry. exact Hx.
  - intros idx Hr. rewrite (size_splice B (2 * k) H W x Hx) in Hr.
    split_index Hr.
    rewrite (get_coupled x B k H W Hx) by assumption.
    destruct (Nat.ltb_spec c k) as [Hlt | Hge]; [reflexivity |].
    rewrite Hv' by lia. do 3 f_equal. lia.
Qed.

(** The second half of an array after it was replaced. *)
Lemma get_replaced_half : forall (x v : tensor R) B k H W b c i j,
  size x = [B; 2 * k; H; W] ->
  b < B -> c < k -> i < H -> j < W ->
  get (channels (Store.splice x k k v) k k) [b; c; i; j]
  = get v [b; c; i; j].
Proof.
  intros x v B k H W b c i j Hx Hb Hc Hi Hj.
  rewrite (get_channels B (2 * k) H W _ (size_splice B (2 * k) H W x Hx _ _ _))
    by assumption.
  rewrite (get_coupled x B k H W Hx) by lia.
  replace (k + c <? k) with false by (symmetry; apply Nat.ltb_ge; lia).
  do 3 f_equal. lia.
Qed.

Lemma AdditiveCoupling_inverts : forall E B k H W self,
  NN_contract (AdditiveCoupling.NN self) B k k H W ->
  inverts_at E [B; 2 * k; H; W] (LAdditiveCoupling self).
Proof.
  intros E B k H W self HNN x o Hwf Hx.
  destruct (HNN (channels x 0 k) (size_channels B (2 * k) H W x Hx 0 k))
    as (h & Hh & Hhs).
  set (v := zip_with Rplus (channels x k k) h).
  set (y := Store.splice x k k v).
  assert (Hy : size y = [B; 2 * k; H; W])
    by apply (size_splice B (2 * k) H W x Hx).
  assert (Hsz : size (channels x k k) = [B; k; H; W])
    by apply (size_channels B (2 * k) H W x Hx).
  assert (Hszy : size (channels y k k) = [B; k; H; W])
    by apply (size_channels B (2 * k) H W y Hy).
  exists y, o. split; [| split; [| split]].
  - apply (additive_forward_value E self x h B k H W o Hx Hh Hhs).
  - apply wf_tabulate.
  - exact Hy.
  - rewrite (additive_reverse_value E self y h B k H W o Hy).
    + do 3 f_equal. unfold y.
      apply (splice_restore x v _ B k H W Hwf Hx).
      intros b c i j Hb Hc Hi Hj.
      rewrite get_zip_with by (fold y; rewrite Hszy; solve_range).
      rewrite (get_replaced_half x v B k H W b c i j Hx) by assumption.
      unfold v. rewrite get_zip_with by (rewrite Hsz; solve_range).
      rewrite (get_channels B (2 * k) H W x Hx) by assumption.
      lra.
    + unfold y.
      rewrite (channels_splice_before B (2 * k) H W x Hx) by lia.
      exact Hh.
    + exact Hhs.
Qed.

Lemma AffineCoupling_inverts : forall E B k H W self,
  NN_contract (AffineCoupling.NN self) B k (2 * k) H W ->
  inverts_at E [B; 2 * k; H; W] (LAffineCoupling self).
Proof.
  intros E B k H W self HNN x o Hwf Hx.
  destruct (HNN (channels x 0 k) (size_channels B (2 * k) H W x Hx 0 k))
    as (h & Hh & Hhs).
  set (shift := strided_channels h 0 2 k).
  set (scale := scale_tensor h k).
  set (v := zip_with Rmult (zip_with Rplus (channels x k k) shift) scale).
  set (y := Store.splice x k k v).
  assert (Hy : size y = [B; 2 * k; H; W])
    by apply (size_splice B (2 * k) H W x Hx).
  assert (Hsz : size (channels x k k) = [B; k; H; W])
    by apply (size_channels B (2 * k) H W x Hx).
  assert (Hszy : size (channels y k k) = [B; k; H; W])
    by apply (size_channels B (2 * k) H W y Hy).
  exists y, (iadd o (sum_all (pointwise ln scale))).
  split; [| split; [| split]].
  - apply (affine_forward_value E self x h B k H W o Hx Hh Hhs).
  - apply wf_tabulate.
  - exact Hy.
  - rewrite (affine_reverse_value E self y h B k H W _ Hy).
    + fold scale shift. rewrite isub_iadd. do 3 f_equal. unfold y.
      apply (splice_restore x v _ B k H W Hwf Hx).
      intros b c i j Hb Hc Hi Hj.
      rewrite get_zip_with
        by (unfold zip_with; rewrite size_tabulate; fold y; rewrite Hszy;
            solve_range).
      rewrite get_zip_with by (fold y; rewrite Hszy; solve_range).
      rewrite (get_replaced_half x v B k H W b c i j Hx) by assumption.
      unfold v.
      rewrite get_zip_with
        by (unfold zip_with; rewrite size_tabulate, Hsz; solve_range).
      rewrite get_zip_with by (rewrite Hsz; solve_range).
      rewrite (get_channels B (2 * k) H W x Hx) by assumption.
      unfold scale. rewrite (get_scale_tensor h B k H W Hhs) by assumption.
      pose proof (sigmoid_pos (get h [b; 2 * c + 1; i; j] + 2)).
      field. lra.
    + unfold y.
      rewrite (channels_splice_before B (2 * k) H W x Hx) by lia.
      exact Hh.
    + exact Hhs.
Qed.

(* ------------------------------------------------------------------ *)
(** * Sums, and the convolution with the inverse matrix *)

Section Sums.

Lemma sum_list_ext : forall {T} (f g : T -> R) l,
  (forall a, In a l -> f a = g a) ->
  sum_list (List.map f l) = sum_list (List.map g l).
Proof.
  intros T f g l Hfg. f_equal. apply map_ext_in. exact Hfg.
Qed.

Lemma sum_list_plus : forall {T} (f g : T -> R) l,
  sum_list (List.map (fun a => f a + g a)%R l)
  = (sum_list (List.map f l) + sum_list (List.map g l))%R.
Proof.
  intros T f g l. induction l as [| a l IH]; simpl.
  - lra.
  - unfold sum_list in *. simpl. rewrite IH. lra.
Qed.

Lemma sum_list_scale : forall {T} (r : R) (f : T -> R) l,
  sum_list (List.map (fun a => r * f a)%R l)
  = (r * sum_list (List.map f l))%R.
Proof.
  intros T r f l. induction l as [| a l IH]; simpl.
  - unfold sum_list. simpl. lra.
  - unfold sum_list in *. simpl. rewrite IH. lra.
Qed.

Lemma sum_list_zero : forall {T} (l : list T),
  sum_list (List.map (fun _ => 0%R) l) = 0%R.
Proof.
  intros T l. induction l as [| a l IH]; unfold sum_list in *; simpl.
  - reflexivity.
  - rewrite IH. lra.
Qed.

Lemma sum_list_swap : forall {S T} (f : S -> T -> R) l1 l2,
  sum_list (List.map (fun a => sum_list (List.map (fun b => f a b) l2)) l1)
  = sum_list (List.map (fun b => sum_list (List.map (fun a => f a b) l1)) l2).
Proof.
  intros S T f l1 l2. induction l1 as [| a l1 IH].
  - simpl. rewrite sum_list_zero. reflexivity.
  - cbn [List.map]. unfold sum_list at 1. cbn [fold_right].
    fold (sum_list (List.map
            (fun a0 => sum_list (List.map (fun b => f a0 b) l2)) l1)).
    rewrite IH. rewrite <- sum_list_plus.
    apply sum_list_ext. intros b _. unfold sum_list. reflexivity.
Qed.

(** A sum against the rows of the identity matrix picks one term. *)
Lemma sum_list_delta : forall (f : nat -> R) c start len,
  start <= c < start + len ->
  sum_list (List.map (fun ci => (if c =? ci then 1 else 0) * f ci)%R
                     (seq start len))
  = f c.
Proof.
  intros f c start len. revert start.
  induction len as [| len IH]; intros start Hc.
  - lia.
  - cbn [seq List.map]. unfold sum_list. cbn [fold_right].
    fold (sum_list (List.map
            (fun ci => (if c =? ci then 1 else 0) * f ci)%R
            (seq (S start) len))).
    destruct (Nat.eqb_spec c start) as [-> | Hne].
    + rewrite (sum_list_ext _ (fun _ => 0%R)).
      * rewrite sum_list_zero. lra.
      * intros ci Hci. apply in_seq in Hci.
        destruct (Nat.eqb_spec start ci); [lia | lra].
    + rewrite IH by lia. lra.
Qed.

End Sums.

(** Mixing the channels with [M] and then with a left inverse of [M]
    gives the channels back. *)
Lemma mix_channels_inverse : forall (M Minv x y : tensor R) C b c i j,
  left_inverse Minv M C ->
  (forall co, co < C -> get y [b; co; i; j] = mix_channels M x C b co i j) ->
  c < C ->
  mix_channels Minv y C b c i j = get x [b; c; i; j].
Proof.
  intros M Minv x y C b c i j Hinv Hy Hc. unfold mix_channels.
  rewrite (sum_list_ext _
             (fun co => sum_list
                (List.map (fun ci => (get Minv [c; co] * get M [co; ci]
                                      * get x [b; ci; i; j])%R) (seq 0 C)))).
  - rewrite sum_list_swap.
    rewrite (sum_list_ext _
               (fun ci => ((if c =? ci then 1 else 0)
                           * get x [b; ci; i; j])%R)).
    + apply sum_list_delta. lia.
    + intros ci Hci. apply in_seq in Hci.
      rewrite <- (Hinv c ci) by lia.
      rewrite Rmult_comm. rewrite <- sum_list_scale.
      apply sum_list_ext. intros co _. lra.
  - intros co Hco. apply in_seq in Hco. rewrite Hy by lia.
    unfold mix_channels. rewrite <- sum_list_scale.
    apply sum_list_ext. intros ci _. lra.
Qed.

Lemma Invertible1x1Conv_inverts : forall E B C H W self,
  conv_invertible C H W self ->
  inverts_at E [B; C; H; W] (LInvertible1x1Conv self).
Proof.
  intros E B C H W self (Ha & Hw & HC & HH & HW & Minv & Hinv & Hleft)
         x o Hwf Hx.
  set (M := squeeze (Invertible1x1Conv.weight self)) in *.
  set (q := (ln (Rabs (det_of M C)) * INR H * INR W)%R).
  set (y := tabulate [B; C; H; W]
              (fun idx => mix_channels M x C (nth 0 idx 0) (nth 1 idx 0)
                                       (nth 2 idx 0) (nth 3 idx 0))).
  exists y, (iadd o q).
  cbn [forward_and_jacobian reverse_and_jacobian as_tensor of_option Py.bind].
  rewrite (Invertible1x1Conv_forward_eq self x B C H W Ha Hw HC Hx HH HW).
  split; [reflexivity |].
  split; [apply wf_tabulate |].
  split; [reflexivity |].
  rewrite (Invertible1x1Conv_reverse_eq self y B C H W Ha Hw HC eq_refl HH HW
             _ Minv Hinv).
  fold M q. cbn [some_array Py.bind]. rewrite isub_iadd. do 3 f_equal.
  symmetry. apply tensor_ext.
  - exact Hwf.
  - apply wf_tabulate.
  - rewrite Hx. reflexivity.
  - intros idx Hr. rewrite Hx in Hr. split_index Hr.
    rewrite get_tabulate by solve_range. cbn [nth].
    symmetry. apply (mix_channels_inverse M Minv x y C); try assumption.
    intros co Hco. unfold y. rewrite get_tabulate by solve_range.
    reflexivity.
Qed.

(* ------------------------------------------------------------------ *)
(** * Lists of layers *)

Lemma LayerList_inverts : forall E sh layers,
  Forall (inverts_at E sh) layers -> inverts_at E sh (LLayerList layers).
Proof.
  intros E sh layers Hall. induction Hall as [| l layers Hl _ IH].
  - intros x o Hwf Hx. exists x, o. repeat split; assumption.
  - intros x o Hwf Hx.
    destruct (Hl x o Hwf Hx) as (x1 & o1 & Hf1 & Hwf1 & Hx1 & Hr1).
    destruct (IH x1 o1 Hwf1 Hx1) as (y & o' & Hf & Hwfy & Hy & Hr).
    exists y, o'.
    cbn [forward_and_jacobian reverse_and_jacobian
         LayerList.forward_and_jacobian LayerList.reverse_and_jacobian] in *.
    rewrite Hf1. cbn [Py.bind]. split; [exact Hf |].
    split; [exact Hwfy |]. split; [exact Hy |].
    rewrite Hr. cbn [Py.bind]. exact Hr1.
Qed.

Lemma flow_layer_inverts : forall E B C H W l,
  flow_layer B C H W l -> inverts_at E [B; C; H; W] l.
Proof.
  intros E B C H W l.
  induction l as [s | s | s | s | s | s | s | s | layers IHl]
    using layer_ind_nested; intro Hflow; try contradiction.
  - apply Shuffle_inverts. exact Hflow.
  - apply Invertible1x1Conv_inverts. exact Hflow.
  - destruct Hflow as (k & -> & HNN). apply AdditiveCoupling_inverts.
    exact HNN.
  - destruct Hflow as (k & -> & HNN). apply AffineCoupling_inverts.
    exact HNN.
  - apply LayerList_inverts. apply flow_layer_list in Hflow.
    rewrite Forall_forall in *. intros l Hl. apply IHl; [exact Hl |].
    apply Hflow. exact Hl.
Qed.

(* ------------------------------------------------------------------ *)
(** * The full model *)

Lemma LayerList_reverse_last_raises :
  forall {L X O} (call : L -> X -> O -> result (X * O)) layers last e,
    (forall x o, call last x o = Raise e) ->
    forall x o,
      LayerList.reverse_and_jacobian call (layers ++ [last]) x o = Raise e.
Proof.
  intros L X O call layers last e Hlast.
  induction layers as [| l layers IH]; intros x o; simpl.
  - apply Hlast.
  - rewrite IH. reflexivity.
Qed.

(** A [Codec] ends with the prior. *)
Lemma Codec_ends_with_prior : forall E input_shape args codec,
  Codec.init E input_shape args = Ok codec ->
  exists layers prior, codec = LLayerList (layers ++ [LGaussianPrior prior]).
Proof.
  intros E shape args codec Hi. unfold Codec.init in Hi.
  destruct (PyClass.super_init _ _); [| discriminate].
  cbn [Py.bind] in Hi.
  destruct (Squeeze.init _ _ _) as [sq |]; [| discriminate].
  cbn [Py.bind] in Hi.
  destruct (Codec.levels _ _ _ _ _) as [[layers shape'] |]; [| discriminate].
  cbn [Py.bind] in Hi.
  destruct (GaussianPrior.init _ _ _) as [prior |]; [| discriminate].
  cbn [Py.bind] in Hi. inversion Hi. eauto.
Qed.

(** The reverse direction of a [Codec] raises before it reaches any
    other layer, so forward followed by reverse never returns. *)
Lemma Codec_round_trip_raises : forall E input_shape args codec x o,
  Codec.init E input_shape args = Ok codec ->
  exists e, round_trip E codec x o = Raise e.
Proof.
  intros E shape args codec x o Hi.
  destruct (Codec_ends_with_prior E shape args codec Hi)
    as (layers & prior & ->).
  unfold round_trip.
  destruct (forward_and_jacobian E _ x o) as [[y o'] | e];
    [| eexists; reflexivity].
  cbn [Py.bind reverse_and_jacobian].
  rewrite (LayerList_reverse_last_raises (reverse_and_jacobian E) layers
             (LGaussianPrior prior) NotImplementedError)
    by reflexivity.
  eexists; reflexivity.
Qed.

(** C1 (as stated) fails: the [Codec] of the end-to-end scenario (two
    levels of depth one, additive coupling, shuffle, no normalization, on
    arrays of size [(1, 4, 8, 8)]) is built, and forward followed by
    reverse on the all-zero array does not return the array; neither does
    the [GaussianPrior] layer on its own, whose forward returns [None]. *)
Lemma Codec_does_not_round_trip :
  (exists codec,
      Codec.init example_collaborators [1; 4; 8; 8] example_args = Ok codec
      /\ ~ round_trips example_collaborators codec
             (full [1; 4; 8; 8] 0%R) (scalar 0%R))
  /\ ~ round_trips example_collaborators
         (LGaussianPrior (GaussianPrior.make None))
         (full [1; 4; 8; 8] 0%R) (scalar 0%R).
Proof.
  split.
  - destruct (Codec.init example_collaborators [1; 4; 8; 8] example_args)
      as [codec | e] eqn:Hc.
    + exists codec. split; [reflexivity |].
      unfold round_trips. intro Hrt.
      destruct (Codec_round_trip_raises _ _ _ codec
                  (Some (full [1; 4; 8; 8] 0%R)) (scalar 0%R) Hc) as [e He].
      rewrite He in Hrt. discriminate.
    + vm_compute in Hc. discriminate.
  - unfold round_trips, round_trip. intro Hrt.
    destruct (forward_and_jacobian _ _ _ _) as [[y o'] |];
      cbn [Py.bind reverse_and_jacobian Layer.reverse_and_jacobian] in Hrt;
      discriminate.
Qed.

(** C1 (amended). For every [Shuffle], every [Invertible1x1Conv] whose
    weight has an inverse, every [AdditiveCoupling] and [AffineCoupling]
    whose network keeps its channel contract, and every [LayerList] made
    of such layers, nested to any depth (a [RevNetStep] or a [RevNet]
    without normalization), and for every well-formed array [x] of the
    size of the layer and every objective [o], [reverse_and_jacobian]
    applied to the result of [forward_and_jacobian(x, o)] returns [(x, o)],
    exactly over the real numbers. *)
Theorem flow_round_trip :
  forall (E : Collaborators) (B C H W : nat) (l : layer) (x : tensor R)
         (objective : objective_t),
    flow_layer B C H W l ->
    wf x ->
    size x = [B; C; H; W] ->
    round_trips E l x objective.
Proof.
  intros E B C H W l x o Hflow Hwf Hx.
  destruct (flow_layer_inverts E B C H W l Hflow x o Hwf Hx)
    as (y & o' & Hf & _ & _ & Hr).
  unfold round_trips, round_trip. rewrite Hf. cbn [Py.bind]. exact Hr.
Qed.

(* ------------------------------------------------------------------ *)
(** * The properties at concrete layers and arrays *)

Lemma example_conv_inverse :
  exists Minv,
    inverse (squeeze (Invertible1x1Conv.weight example_conv)) = Ok Minv
    /\ left_inverse Minv (squeeze (Invertible1x1Conv.weight example_conv)) 2.
Proof.
  unfold inverse. cbn [example_conv Invertible1x1Conv.weight squeeze size
                       filter Nat.eqb negb data].
  destruct (Req_EM_T _ _) as [Hd | Hd].
  - exfalso. vm_compute in Hd. lra.
  - eexists. split; [reflexivity |].
    intros c ci Hc Hci.
    assert (Hcases : (c = 0 \/ c = 1) /\ (ci = 0 \/ ci = 1)) by lia.
    destruct Hcases as [[-> | ->] [-> | ->]]; vm_compute; field;
      vm_compute in Hd; lra.
Qed.

Lemma example_NN_contract_additive :
  NN_contract (AdditiveCoupling.NN example_additive) 1 1 1 1 1.
Proof.
  intros z Hz. eexists. split; [reflexivity |].
  unfold full. cbn [size]. rewrite Hz. reflexivity.
Qed.

Lemma example_NN_contract_affine :
  NN_contract (AffineCoupling.NN example_affine) 1 1 (2 * 1) 1 1.
Proof.
  intros z Hz. eexists. split; [reflexivity |].
  unfold full. cbn [size]. rewrite Hz. reflexivity.
Qed.

Lemma example_flow :
  flow_layer 1 2 1 1
    (LLayerList [LShuffle example_shuffle;
                 LInvertible1x1Conv example_conv;
                 LLayerList [LAdditiveCoupling example_additive;
                             LAffineCoupling example_affine]]).
Proof.
  cbn [flow_layer]. repeat split.
  - apply perm_swap.
  - repeat constructor.
  - repeat constructor.
  - repeat constructor.
  - apply example_conv_inverse.
  - exists 1. split; [reflexivity | apply example_NN_contract_additive].
  - exists 1. split; [reflexivity | apply example_NN_contract_affine].
Qed.

(** C1 (amended), at a list that holds one layer of each kind. *)
Lemma flow_round_trip_witness :
  round_trips example_collaborators
    (LLayerList [LShuffle example_shuffle;
                 LInvertible1x1Conv example_conv;
                 LLayerList [LAdditiveCoupling example_additive;
                             LAffineCoupling example_affine]])
    example_x (scalar 0%R).
Proof.
  apply (flow_round_trip example_collaborators 1 2 1 1).
  - exact example_flow.
  - reflexivity.
  - reflexivity.
Defined.

(** C7, at a configuration that is refused and at one that is built. *)
Lemma RevNetStep_init_config_witness :
  (exists e, RevNetStep.init example_collaborators 4 example_bad_args = Raise e)
  /\ (exists e,
         Codec.init example_collaborators [1; 4; 8; 8] example_bad_args
         = Raise e)
  /\ (exists layers,
         RevNetStep.init example_collaborators 4 example_args
         = Ok (LLayerList layers)
         /\ step_layout example_args layers).
Proof.
  destruct (RevNetStep_init_config example_collaborators 4 example_bad_args)
    as [Hbad _].
  destruct (Hbad (or_introl eq_refl)) as [Hstep Hcodec].
  destruct (RevNetStep_init_config example_collaborators 4 example_args)
    as [_ Hgood].
  split; [exact Hstep | split].
  - apply Hcodec; [apply le_n | apply le_S, le_n].
  - destruct (RevNetStep.init example_collaborators 4 example_args)
      as [step |] eqn:Hi.
    + destruct (Hgood step eq_refl) as (layers & -> & Hlayout).
      exists layers. split; [reflexivity | exact Hlayout].
    + discriminate Hi.
Defined.

(* ------------------------------------------------------------------ *)
(** * The forward direction of [GaussianPrior] *)

Lemma get_full : forall (sh idx : list nat) (v : R),
  in_range sh idx -> get (full sh v) idx = v.
Proof.
  intros sh idx v Hr. unfold get, full. cbn [size data].
  pose proof (ravel_lt _ _ Hr) as Hlt.
  rewrite nth_indep with (d' := v) by (rewrite repeat_length; exact Hlt).
  apply nth_repeat.
Qed.

Lemma wf_pointwise : forall (f : R -> R) (t : tensor R),
  wf t -> wf (pointwise f t).
Proof.
  intros f t Hwf. unfold wf, pointwise. cbn [size data].
  rewrite length_map. exact Hwf.
Qed.

Lemma wf_zip_with : forall f a b, wf (zip_with f a b).
Proof. intros. apply wf_tabulate. Qed.

Lemma binop_zip_with : forall f a b,
  size a = size b -> binop f a b = Ok (zip_with f a b).
Proof. intros f a b Hs. apply binop_same_size. exact Hs. Qed.

Lemma cat2_channels : forall (a b : tensor R) B Ca Cb H W,
  size a = [B; Ca; H; W] -> size b = [B; Cb; H; W] ->
  cat2 a b 1
  = Ok (tabulate [B; Ca + Cb; H; W]
          (fun idx => if nth 1 idx 0 <? Ca then get a idx
                      else get b (map_at 1 (fun c => c - Ca) idx))).
Proof.
  intros a b B Ca Cb H W Ha Hb. unfold cat2. rewrite Ha, Hb.
  cbn [nth_error of_option Py.bind map_at]. rewrite list_eqb_refl.
  reflexivity.
Qed.

(** Without a learned head the prior is the standard normal
    distribution: forward returns no array and adds to the objective the
    sum over all entries [v] of [-(log(2 pi) + v^2) / 2]. *)
Lemma GaussianPrior_forward_standard :
  forall E (x : tensor R) (o : objective_t) B C H W,
    size x = [B; C; H; W] ->
    exists lp,
      GaussianPrior.forward_and_jacobian E (GaussianPrior.make None) x o
      = Ok (None, iadd o (sum_all lp))
      /\ size lp = [B; C; H; W]
      /\ forall b c i j, b < B -> c < C -> i < H -> j < W ->
           get lp [b; c; i; j]
           = (- (1 / 2) * (ln (2 * PI) + Rsqr (get x [b; c; i; j])))%R.
Proof.
  intros E x o B C H W Hx.
  unfold GaussianPrior.forward_and_jacobian.
  cbn [cat GaussianPrior.conv]. unfold full_like. rewrite Hx.
  cbn [Py.bind].
  rewrite (cat2_channels (full [B; C; H; W] 0%R) (full [B; C; H; W] 0%R)
             B C C H W eq_refl eq_refl).
  cbn [Py.bind].
  match goal with
  | |- context [tabulate [B; C + C; H; W] ?f] =>
      set (T := tabulate [B; C + C; H; W] f)
  end.
  assert (HT : size T = [B; 2 * C; H; W])
    by (unfold T; rewrite size_tabulate; do 2 f_equal; lia).
  unfold chunk. rewrite HT. cbn [nth_error of_option Py.bind].
  rewrite chunk_bounds_even. cbn [mapM].
  rewrite !(narrow_channels B (2 * C) H W T HT) by lia.
  cbn [Py.bind unpack2 gaussian_diag logp].
  set (mean := channels T 0 C). set (logsd := channels T C C).
  assert (Hmean : size mean = [B; C; H; W])
    by apply (size_channels B (2 * C) H W T HT).
  assert (Hlogsd : size logsd = [B; C; H; W])
    by apply (size_channels B (2 * C) H W T HT).
  rewrite binop_zip_with by congruence. cbn [Py.bind].
  rewrite binop_zip_with
    by (cbn [pointwise size]; unfold zip_with; rewrite size_tabulate;
        congruence).
  cbn [Py.bind].
  rewrite binop_zip_with
    by (cbn [pointwise size]; unfold zip_with; rewrite size_tabulate;
        cbn [pointwise size]; unfold zip_with; rewrite size_tabulate;
        congruence).
  cbn [Py.bind].
  eexists. split; [reflexivity | split].
  - cbn [pointwise size]. unfold zip_with. rewrite size_tabulate.
    cbn [pointwise size]. exact Hlogsd.
  - intros b c i j Hb Hc Hi Hj.
    assert (Hr : in_range [B; C; H; W] [b; c; i; j]) by solve_range.
    assert (Hzero : forall start, start + C <= 2 * C ->
              get (channels T start C) [b; c; i; j] = 0%R).
    { intros start Hs.
      rewrite (get_channels B (2 * C) H W T HT) by assumption.
      unfold T. rewrite get_tabulate by solve_range. cbn [nth].
      destruct (Nat.ltb_spec (start + c) C).
      - apply get_full. solve_range.
      - cbn [map_at]. apply get_full. solve_range. }
    rewrite get_pointwise; [| apply wf_zip_with |].
    2: { unfold zip_with. rewrite size_tabulate. cbn [pointwise size].
         rewrite Hlogsd. exact Hr. }
    rewrite get_zip_with by (cbn [pointwise size]; rewrite Hlogsd; exact Hr).
    rewrite get_pointwise;
      [| apply wf_tabulate | rewrite Hlogsd; exact Hr].
    rewrite get_zip_with
      by (cbn [pointwise size]; unfold zip_with; rewrite size_tabulate, Hx;
          exact Hr).
    rewrite get_pointwise; [| apply wf_zip_with |].
    2: { unfold zip_with. rewrite size_tabulate, Hx. exact Hr. }
    rewrite get_pointwise;
      [| apply wf_tabulate | rewrite Hlogsd; exact Hr].
    rewrite get_zip_with by (rewrite Hx; exact Hr).
    unfold mean, logsd. rewrite !Hzero by lia.
    rewrite Rmult_0_r, exp_0, Rminus_0_r. f_equal. field.
Qed.

(* ------------------------------------------------------------------ *)
(** * The round trip of a coupling layer, seen in the store *)

(** X11. The round trip of the additive coupling as the caller's
    memory sees it.  Forward on the caller's array [x], then reverse on
    the array that forward returned: the second call returns the content
    that [x] had at the start, while [x] itself is left holding the result
    of the forward call (and the array handed to reverse holds the
    original content). *)
Lemma additive_round_trip_in_store :
  forall (self : AdditiveCoupling.t) (s : Store.store) (l : Store.loc)
         (x h : tensor R) (B k H W : nat) (o : objective_t),
    nth_error s l = Some x ->
    wf x ->
    size x = [B; 2 * k; H; W] ->
    AdditiveCoupling.NN self (channels x 0 k) = Ok h ->
    size h = [B; k; H; W] ->
    let y := Store.splice x k k (zip_with Rplus (channels x k k) h) in
    (' (y, o1) <- AdditiveCoupling.forward_and_jacobian self
                    (Store.ref l None) o ;;
     r <- Store.alloc y ;;
     AdditiveCoupling.reverse_and_jacobian self r o1)%store s
    = Ok ((x, o), Store.set_nth l y s ++ [x]).
Proof.
  intros self s l x h B k H W o Hl Hwf Hx HNN Hh y.
  unfold Store.bind at 1.
  rewrite (additive_forward_store self s l x h B k H W o Hl Hx HNN Hh).
  fold y. unfold Store.bind at 1. unfold Store.alloc.
  set (s1 := Store.set_nth l y s).
  assert (Hy : size y = [B; 2 * k; H; W])
    by apply (size_splice B (2 * k) H W x Hx).
  assert (Hl1 : nth_error (s1 ++ [y]) (length s1) = Some y).
  { rewrite nth_error_app2 by lia. rewrite Nat.sub_diag. reflexivity. }
  assert (HNN' : AdditiveCoupling.NN self (channels y 0 k) = Ok h).
  { unfold y. rewrite (channels_splice_before B (2 * k) H W x Hx) by lia.
    exact HNN. }
  rewrite (additive_reverse_store self (s1 ++ [y]) (length s1) y h B k H W o
             Hl1 Hy HNN' Hh).
  assert (Hback :
            Store.splice y k k (zip_with Rminus (channels y k k) h) = x).
  { unfold y. apply (splice_restore x _ _ B k H W Hwf Hx).
    intros b c i j Hb Hc Hi Hj.
    rewrite get_zip_with
      by (rewrite (size_channels B (2 * k) H W _ Hy); solve_range).
    rewrite (get_replaced_half x _ B k H W b c i j Hx) by assumption.
    rewrite get_zip_with
      by (rewrite (size_channels B (2 * k) H W x Hx); solve_range).
    rewrite (get_channels B (2 * k) H W x Hx) by assumption.
    lra. }
  rewrite Hback. do 2 f_equal.
  clear. induction s1 as [| t s1 IH]; simpl.
  - reflexivity.
  - f_equal. exact IH.
Qed.

(* ------------------------------------------------------------------ *)
(** * The inverse of small matrices *)

(** For matrices of order two and three the transposed cofactors over
    the determinant are a left inverse. *)
Lemma inverse_left_2 : forall (a b c d : R) Minv,
  let M := Tensor.mk [2; 2] [a; b; c; d] in
  inverse M = Ok Minv -> left_inverse Minv M 2.
Proof.
  intros a b c d Minv M Hinv. unfold inverse in Hinv.
  cbn [M size Nat.eqb] in Hinv.
  destruct (Req_EM_T _ _) as [Hd | Hd]; [discriminate |].
  inversion Hinv; subst Minv. clear Hinv.
  intros r s Hr Hs.
  assert (Hcases : (r = 0 \/ r = 1) /\ (s = 0 \/ s = 1)) by lia.
  destruct Hcases as [[-> | ->] [-> | ->]]; vm_compute; field;
    vm_compute in Hd; intro Hz; apply Hd;
    (etransitivity; [| exact Hz]); ring.
Qed.

Lemma inverse_left_3 : forall (a b c d e f g h i : R) Minv,
  let M := Tensor.mk [3; 3] [a; b; c; d; e; f; g; h; i] in
  inverse M = Ok Minv -> left_inverse Minv M 3.
Proof.
  intros a b c d e f g h i Minv M Hinv. unfold inverse in Hinv.
  cbn [M size Nat.eqb] in Hinv.
  destruct (Req_EM_T _ _) as [Hd | Hd]; [discriminate |].
  inversion Hinv; subst Minv. clear Hinv.
  intros r s Hr Hs.
  assert (Hcases : (r = 0 \/ r = 1 \/ r = 2) /\ (s = 0 \/ s = 1 \/ s = 2))
    by lia.
  destruct Hcases as [[-> | [-> | ->]] [-> | [-> | ->]]]; vm_compute; field;
    vm_compute in Hd; intro Hz; apply Hd;
    (etransitivity; [| exact Hz]); ring.
Qed.

(* ------------------------------------------------------------------ *)
(** * Lists of layers as compositions *)

Lemma bind_assoc : forall {A B C} (m : result A) (f : A -> result B)
                          (g : B -> result C),
  Py.bind (Py.bind m f) g = Py.bind m (fun a => Py.bind (f a) g).
Proof. intros A B C [a | e] f g; reflexivity. Qed.

Lemma bind_ret_pair : forall {A B} (m : result (A * B)),
  (' (a, b) <- m ;; Ok (a, b)) = m.
Proof. intros A B [[a b] | e]; reflexivity. Qed.

Lemma LayerList_forward_app :
  forall {L X O} (call : L -> X -> O -> result (X * O)) l1 l2 x o,
    LayerList.forward_and_jacobian call (l1 ++ l2) x o
    = (' (y, o') <- LayerList.forward_and_jacobian call l1 x o ;;
       LayerList.forward_and_jacobian call l2 y o').
Proof.
  intros L X O call l1. induction l1 as [| l l1 IH]; intros l2 x o; simpl.
  - reflexivity.
  - destruct (call l x o) as [[y o1] | e]; simpl; [apply IH | reflexivity].
Qed.

Lemma LayerList_reverse_app :
  forall {L X O} (call : L -> X -> O -> result (X * O)) l1 l2 x o,
    LayerList.reverse_and_jacobian call (l1 ++ l2) x o
    = (' (y, o') <- LayerList.reverse_and_jacobian call l2 x o ;;
       LayerList.reverse_and_jacobian call l1 y o').
Proof.
  intros L X O call l1. induction l1 as [| l l1 IH]; intros l2 x o; simpl.
  - symmetry. apply bind_ret_pair.
  - rewrite IH.
    destruct (LayerList.reverse_and_jacobian call l2 x o) as [[y o1] | e];
      reflexivity.
Qed.

(** X1. A [LayerList] is the composition of its layers.  Running the
    list [l1 ++ l2] forward is running [l1] forward and handing its array
    and objective to [l2] (an error of [l1] ends the run); running it in
    reverse is running [l2] in reverse first and then [l1].  Nesting does
    not matter: a list of two lists behaves as the concatenation of the
    two, which is how a [RevNet] of [RevNetStep]s behaves. *)
Theorem LayerList_is_composition :
  forall (E : Collaborators) (l1 l2 : list layer) (x : option (tensor R))
         (o : objective_t),
    forward_and_jacobian E (LLayerList (l1 ++ l2)) x o
    = (' (y, o') <- forward_and_jacobian E (LLayerList l1) x o ;;
       forward_and_jacobian E (LLayerList l2) y o')
    /\ reverse_and_jacobian E (LLayerList (l1 ++ l2)) x o
       = (' (y, o') <- reverse_and_jacobian E (LLayerList l2) x o ;;
          reverse_and_jacobian E (LLayerList l1) y o')
    /\ forward_and_jacobian E (LLayerList [LLayerList l1; LLayerList l2]) x o
       = forward_and_jacobian E (LLayerList (l1 ++ l2)) x o
    /\ reverse_and_jacobian E (LLayerList [LLayerList l1; LLayerList l2]) x o
       = reverse_and_jacobian E (LLayerList (l1 ++ l2)) x o.
Proof.
  intros E l1 l2 x o.
  cbn [forward_and_jacobian reverse_and_jacobian
       LayerList.forward_and_jacobian LayerList.reverse_and_jacobian].
  rewrite LayerList_forward_app, LayerList_reverse_app.
  split; [reflexivity | split; [reflexivity | split]].
  - destruct (LayerList.forward_and_jacobian _ l1 x o) as [[y o1] | e];
      cbn [Py.bind]; [apply bind_ret_pair | reflexivity].
  - cbn [Py.bind].
    destruct (LayerList.reverse_and_jacobian _ l2 x o) as [[y o1] | e];
      reflexivity.
Qed.

(* ------------------------------------------------------------------ *)
(** * Which configurations build a step *)

Lemma is_str_exclusive : forall v a b,
  is_str v a = true -> is_str v b = true -> a = b.
Proof.
  intros [s |] a b Ha Hb; simpl in *; [| discriminate].
  apply String.eqb_eq in Ha, Hb. congruence.
Qed.

Lemma is_str_other : forall v a b,
  is_str v a = true -> a <> b -> is_str v b = false.
Proof.
  intros v a b Ha Hne. destruct (is_str v b) eqn:Hb; [| reflexivity].
  exfalso. apply Hne. apply (is_str_exclusive v); assumption.
Qed.

Lemma is_str_truthy : forall v a,
  is_str v a = true -> a <> ""%string -> truthy v = true.
Proof.
  intros [s |] a Ha Hne; simpl in *; [| discriminate].
  apply String.eqb_eq in Ha. subst s.
  destruct (String.eqb_spec a ""); [contradiction | reflexivity].
Qed.

(** X2. A [RevNetStep] can be built exactly from the configurations
    whose normalization is ['batchnorm'] or empty, whose permutation is
    ['shuffle'], and whose coupling is ['additive'] with an even number of
    channels or ['affine'].  The other variants that the constructor
    recognizes never yield a step: ['actnorm'] raises
    [NotImplementedError] (the constructor of [ActNorm]), and ['reverse']
    and ['conv'] raise [TypeError] (the constructors of [Reverse] and of
    [Invertible1x1Conv] call an inherited constructor without its
    arguments). *)
Theorem RevNetStep_buildable :
  forall (E : Collaborators) (num_channels : nat) (args : Args),
    ((exists step, RevNetStep.init E num_channels args = Ok step)
     <-> ((is_str (norm args) "batchnorm" = true \/ truthy (norm args) = false)
          /\ is_str (permutation args) "shuffle" = true
          /\ ((is_str (coupling args) "additive" = true
               /\ num_channels mod 2 = 0)
              \/ is_str (coupling args) "affine" = true)))
    /\ (is_str (norm args) "actnorm" = true ->
        RevNetStep.init E num_channels args = Raise NotImplementedError)
    /\ (is_str (norm args) "batchnorm" = true \/ truthy (norm args) = false ->
        is_str (permutation args) "reverse" = true
        \/ is_str (permutation args) "conv" = true ->
        RevNetStep.init E num_channels args = Raise TypeError).
Proof.
  intros E C args. unfold RevNetStep.init.
  cbn [PyClass.super_init PyClass.mro PyClass.after PyClass.cls_eqb
       PyClass.init_noargs Py.bind].
  split; [split | split].
  - (* built, hence a buildable configuration *)
    intros [step Hi].
    destruct (is_str (norm args) "actnorm") eqn:Hact; [discriminate |].
    assert (Hnorm : is_str (norm args) "batchnorm" = true
                    \/ truthy (norm args) = false).
    { destruct (is_str (norm args) "batchnorm"); [left; reflexivity |].
      destruct (truthy (norm args)); [discriminate | right; reflexivity]. }
    split; [exact Hnorm |].
    destruct (if is_str (norm args) "batchnorm"
              then l <- BatchNorm.init C None None;; Ok ([] ++ [LBatchNorm l])
              else assert (negb (truthy (norm args)));;; Ok [])
      as [layers |]; [| discriminate].
    cbn [Py.bind] in Hi.
    destruct (is_str (permutation args) "reverse"); [discriminate |].
    destruct (is_str (permutation args) "shuffle").
    2: { destruct (is_str (permutation args) "conv"); discriminate. }
    split; [reflexivity |].
    cbn [Shuffle.init of_option PyClass.super_init PyClass.mro PyClass.after
         PyClass.cls_eqb PyClass.init_noargs Py.bind] in Hi.
    destruct (is_str (coupling args) "additive").
    + left. split; [reflexivity |].
      unfold AdditiveCoupling.init in Hi.
      cbn [PyClass.super_init PyClass.mro PyClass.after PyClass.cls_eqb
           PyClass.init_noargs Py.bind] in Hi.
      destruct (Nat.eqb_spec (C mod 2) 0); [assumption | discriminate].
    + destruct (is_str (coupling args) "affine"); [| discriminate].
      right. reflexivity.
  - (* a buildable configuration is built *)
    intros (Hnorm & Hperm & Hcoup).
    assert (Hact : is_str (norm args) "actnorm" = false).
    { destruct Hnorm as [Hbn | Hfalsy].
      - apply (is_str_other _ _ _ Hbn). discriminate.
      - destruct (is_str (norm args) "actnorm") eqn:Hact; [| reflexivity].
        rewrite (is_str_truthy _ _ Hact) in Hfalsy by discriminate.
        discriminate. }
    rewrite Hact.
    assert (Hlayers : exists layers,
               (if is_str (norm args) "batchnorm"
                then l <- BatchNorm.init C None None;; Ok ([] ++ [LBatchNorm l])
                else assert (negb (truthy (norm args)));;; Ok [])
               = Ok layers).
    { destruct (is_str (norm args) "batchnorm") eqn:Hbn.
      - eexists. reflexivity.
      - destruct Hnorm as [Hbn' | Hfalsy]; [discriminate |].
        rewrite Hfalsy. eexists. reflexivity. }
    destruct Hlayers as [layers ->]. cbn [Py.bind].
    rewrite (is_str_other _ _ "reverse" Hperm) by discriminate.
    rewrite Hperm.
    cbn [Shuffle.init of_option PyClass.super_init PyClass.mro PyClass.after
         PyClass.cls_eqb PyClass.init_noargs Py.bind].
    destruct Hcoup as [[Hadd Heven] | Haff].
    + rewrite Hadd. unfold AdditiveCoupling.init.
      cbn [PyClass.super_init PyClass.mro PyClass.after PyClass.cls_eqb
           PyClass.init_noargs Py.bind].
      rewrite Heven. eexists. reflexivity.
    + rewrite (is_str_other _ _ "additive" Haff) by discriminate.
      rewrite Haff. eexists. reflexivity.
  - intro Hact. rewrite Hact. reflexivity.
  - intros Hnorm Hperm.
    assert (Hact : is_str (norm args) "actnorm" = false).
    { destruct Hnorm as [Hbn | Hfalsy].
      - apply (is_str_other _ _ _ Hbn). discriminate.
      - destruct (is_str (norm args) "actnorm") eqn:Hact; [| reflexivity].
        rewrite (is_str_truthy _ _ Hact) in Hfalsy by discriminate.
        discriminate. }
    rewrite Hact.
    assert (Hlayers : exists layers,
               (if is_str (norm args) "batchnorm"
                then l <- BatchNorm.init C None None;; Ok ([] ++ [LBatchNorm l])
                else assert (negb (truthy (norm args)));;; Ok [])
               = Ok layers).
    { destruct (is_str (norm args) "batchnorm") eqn:Hbn.
      - eexists. reflexivity.
      - destruct Hnorm as [Hbn' | Hfalsy]; [discriminate |].
        rewrite Hfalsy. eexists. reflexivity. }
    destruct Hlayers as [layers ->]. cbn [Py.bind].
    destruct Hperm as [Hrev | Hconv].
    + rewrite Hrev. reflexivity.
    + rewrite (is_str_other _ _ "reverse" Hconv) by discriminate.
      rewrite (is_str_other _ _ "shuffle" Hconv) by discriminate.
      rewrite Hconv. reflexivity.
Qed.

(** X2, at the configuration of the end-to-end scenario (built) and at
    the same configuration with the reversal as permutation (refused). *)
Lemma RevNetStep_buildable_witness :
  (exists step, RevNetStep.init example_collaborators 4 example_args = Ok step)
  /\ RevNetStep.init example_collaborators 4
       {| norm := None; permutation := Some "reverse"%string;
          coupling := Some "additive"%string;
          depth := 1; n_levels := 2; learntop := false |}
     = Raise TypeError.
Proof.
  split.
  - apply (RevNetStep_buildable example_collaborators 4 example_args).
    split; [right; reflexivity | split; [reflexivity |]].
    left. split; reflexivity.
  - apply (RevNetStep_buildable example_collaborators 4).
    + right. reflexivity.
    + left. reflexivity.
Defined.

(* ------------------------------------------------------------------ *)
(** * The structure of [RevNet] and [Codec] *)

Lemma mapM_const : forall {A B} (r : result B) (l : list A) bs,
  mapM (fun _ => r) l = Ok bs ->
  length bs = length l /\ Forall (fun b => r = Ok b) bs.
Proof.
  intros A B r l. induction l as [| a l IH]; intros bs Hm; simpl in Hm.
  - inversion Hm. split; [reflexivity | constructor].
  - destruct r as [b | e] eqn:Hr; [| discriminate]. cbn [Py.bind] in Hm.
    destruct (mapM _ l) as [bs' |] eqn:Hl; [| discriminate].
    cbn [Py.bind] in Hm. inversion Hm; subst bs.
    destruct (IH bs' eq_refl) as [Hlen Hall].
    split; [simpl; congruence | constructor; [reflexivity | exact Hall]].
Qed.

(** X3. A [RevNet] holds [args.depth] steps, each laid out as a
    [RevNetStep] of the configuration (normalization if any, permutation,
    coupling); it is only built for an input shape of four entries
    (otherwise the unpacking raises [ValueError]); and with depth zero it
    is built as the empty list whatever the configuration says, which
    both directions run as the identity. *)
Theorem RevNet_init_steps :
  forall (E : Collaborators) (input_shape : list nat) (args : Args),
    (forall net,
        RevNet.init E input_shape args = Ok net ->
        exists bs c h w steps,
          input_shape = [bs; c; h; w]
          /\ net = LLayerList steps
          /\ length steps = depth args
          /\ Forall (fun s => exists layers,
                         s = LLayerList layers /\ step_layout args layers)
                    steps)
    /\ (length input_shape <> 4 ->
        RevNet.init E input_shape args = Raise ValueError)
    /\ (length input_shape = 4 -> depth args = 0 ->
        RevNet.init E input_shape args = Ok (LLayerList [])
        /\ forall x o,
             forward_and_jacobian E (LLayerList []) x o = Ok (x, o)
             /\ reverse_and_jacobian E (LLayerList []) x o = Ok (x, o)).
Proof.
  intros E shape args. unfold RevNet.init.
  cbn [PyClass.super_init PyClass.mro PyClass.after PyClass.cls_eqb
       PyClass.init_noargs Py.bind].
  split; [| split].
  - intros net Hi.
    destruct shape as [| bs [| c [| h [| w [| extra shape]]]]];
      try discriminate.
    cbn [unpack4 Py.bind] in Hi.
    destruct (mapM _ (seq 0 (depth args))) as [steps |] eqn:Hm;
      [| discriminate].
    cbn [Py.bind] in Hi. inversion Hi; subst net.
    apply mapM_const in Hm. destruct Hm as [Hlen Hall].
    exists bs, c, h, w, steps.
    split; [reflexivity | split; [reflexivity | split]].
    + rewrite Hlen. apply length_seq.
    + rewrite Forall_forall in *. intros s Hs.
      apply (RevNetStep_layout E c args). apply Hall. exact Hs.
  - intro Hlen.
    destruct shape as [| bs [| c [| h [| w [| extra shape]]]]];
      try reflexivity.
    simpl in Hlen. congruence.
  - intros Hlen Hdepth.
    destruct shape as [| bs [| c [| h [| w [| extra shape]]]]];
      try discriminate.
    rewrite Hdepth. split; [reflexivity |].
    intros x o. split; reflexivity.
Qed.

(** X3, at the configuration of the end-to-end scenario. *)
Lemma RevNet_init_steps_witness :
  exists steps,
    RevNet.init example_collaborators [1; 16; 4; 4] example_args
    = Ok (LLayerList steps)
    /\ length steps = 1.
Proof.
  destruct (RevNet.init example_collaborators [1; 16; 4; 4] example_args)
    as [net |] eqn:Hi.
  - destruct (RevNet_init_steps example_collaborators [1; 16; 4; 4]
                example_args) as [Hsteps _].
    destruct (Hsteps net Hi) as (bs & c & h & w & steps & _ & -> & Hlen & _).
    exists steps. split; [reflexivity | exact Hlen].
  - vm_compute in Hi. discriminate.
Defined.

(** X4. The forward direction of a [Codec] never returns an array: the
    model ends with the [GaussianPrior], whose forward returns [None]
    beside the objective, so whenever [forward_and_jacobian] of a [Codec]
    returns, the array it returns is [None]. *)
Theorem Codec_forward_returns_None :
  forall (E : Collaborators) (input_shape : list nat) (args : Args)
         (codec : layer) (x y : option (tensor R)) (o o' : objective_t),
    Codec.init E input_shape args = Ok codec ->
    forward_and_jacobian E codec x o = Ok (y, o') ->
    y = None.
Proof.
  intros E shape args codec x y o o' Hi Hf.
  destruct (Codec_ends_with_prior E shape args codec Hi)
    as (layers & prior & ->).
  cbn [forward_and_jacobian] in Hf.
  rewrite LayerList_forward_app in Hf.
  destruct (LayerList.forward_and_jacobian _ layers x o) as [[x1 o1] |];
    [| discriminate].
  cbn [Py.bind LayerList.forward_and_jacobian forward_and_jacobian] in Hf.
  destruct (as_tensor x1 TypeError) as [t |]; [| discriminate].
  cbn [Py.bind] in Hf.
  destruct (GaussianPrior.forward_and_jacobian E prior t o1)
    as [[y1 o2] |] eqn:Hp; [| discriminate].
  cbn [Py.bind] in Hf. inversion Hf; subst.
  apply (GaussianPrior_forward_returns_None E prior t o1 y o'). exact Hp.
Qed.

(** X4, at a [Codec] of one level on arrays of size [(1, 1, 2, 2)]. *)
Lemma Codec_forward_returns_None_witness :
  let args := {| norm := None; permutation := Some "shuffle"%string;
                 coupling := Some "additive"%string;
                 depth := 1; n_levels := 1; learntop := false |} in
  exists codec o',
    Codec.init example_collaborators [1; 1; 2; 2] args = Ok codec
    /\ forward_and_jacobian example_collaborators codec
         (Some (full [1; 1; 2; 2] 0%R)) (scalar 0%R)
       = Ok (None, o').
Proof.
  intro args.
  destruct (Codec.init example_collaborators [1; 1; 2; 2] args)
    as [codec |] eqn:Hi.
  - destruct (forward_and_jacobian example_collaborators codec
                (Some (full [1; 1; 2; 2] 0%R)) (scalar 0%R))
      as [[y o'] | e] eqn:Hf.
    + exists codec, o'. split; [reflexivity |].
      rewrite Hf. do 2 f_equal.
      exact (Codec_forward_returns_None example_collaborators
               [1; 1; 2; 2] args codec _ y _ o' Hi Hf).
    + exfalso. vm_compute in Hi. inversion Hi; subst codec.
      vm_compute in Hf. discriminate.
  - vm_compute in Hi. discriminate.
Defined.

(** X5. The reverse direction of a [Codec] raises [NotImplementedError]
    on every input: the loop over the reversed layers starts with the
    [GaussianPrior], which has no method [reverse_and_jacobian] of its
    own, so nothing is ever sampled or decoded. *)
Theorem Codec_reverse_raises :
  forall (E : Collaborators) (input_shape : list nat) (args : Args)
         (codec : layer) (x : option (tensor R)) (o : objective_t),
    Codec.init E input_shape args = Ok codec ->
    reverse_and_jacobian E codec x o = Raise NotImplementedError.
Proof.
  intros E shape args codec x o Hi.
  destruct (Codec_ends_with_prior E shape args codec Hi)
    as (layers & prior & ->).
  cbn [reverse_and_jacobian].
  rewrite LayerList_reverse_app. reflexivity.
Qed.

(** X5, at the [Codec] of the end-to-end scenario. *)
Lemma Codec_reverse_raises_witness :
  exists codec,
    Codec.init example_collaborators [1; 4; 8; 8] example_args = Ok codec
    /\ reverse_and_jacobian example_collaborators codec None (scalar 0%R)
       = Raise NotImplementedError.
Proof.
  destruct (Codec.init example_collaborators [1; 4; 8; 8] example_args)
    as [codec |] eqn:Hi.
  - exists codec. split; [reflexivity |].
    apply (Codec_reverse_raises example_collaborators [1; 4; 8; 8]
             example_args codec None (scalar 0%R) Hi).
  - vm_compute in Hi. discriminate.
Defined.

(* ------------------------------------------------------------------ *)
(** * The permutation that [Shuffle] stores and applies *)

Lemma invert_NoDup : forall C indices,
  Permutation (seq 0 C) indices -> NoDup (Shuffle.invert indices C).
Proof.
  intros C indices Hperm.
  pose proof (invert_length C indices) as Hlen.
  apply (NoDup_nth _ 0). intros i j Hi Hj Heq.
  rewrite Hlen in Hi, Hj.
  rewrite <- (invert_right C indices Hperm i Hi).
  rewrite <- (invert_right C indices Hperm j Hj).
  rewrite Heq. reflexivity.
Qed.

Lemma invert_Permutation : forall C indices,
  Permutation (seq 0 C) indices ->
  Permutation (seq 0 C) (Shuffle.invert indices C).
Proof.
  intros C indices Hperm. apply Permutation_sym.
  apply NoDup_Permutation_bis.
  - apply invert_NoDup. exact Hperm.
  - rewrite length_seq, invert_length. apply le_n.
  - intros v Hv. apply in_seq.
    pose proof (invert_bounded C indices Hperm) as Hb.
    rewrite Forall_forall in Hb. specialize (Hb v Hv). lia.
Qed.

(** X6. Whenever [np.random.shuffle] leaves a permutation of
    [0, ..., num_channels - 1], the constructor of [Shuffle] stores that
    permutation as [indices] and its inverse as [rev_indices]: the loop
    [rev_indices[indices[i]] = i] fills every entry, so [rev_indices] is a
    permutation too and the two undo each other in both orders. *)
Theorem Shuffle_init_inverse :
  forall (E : Collaborators) (num_channels : nat),
    Permutation (seq 0 num_channels)
                (np_random_shuffle E (seq 0 num_channels)) ->
    exists self,
      Shuffle.init E PyClass.Shuffle (Some num_channels) = Ok self
      /\ Shuffle.indices self = np_random_shuffle E (seq 0 num_channels)
      /\ Permutation (seq 0 num_channels) (Shuffle.rev_indices self)
      /\ (forall i, i < num_channels ->
            nth (nth i (Shuffle.indices self) 0) (Shuffle.rev_indices self) 0
            = i)
      /\ (forall c, c < num_channels ->
            nth (nth c (Shuffle.rev_indices self) 0) (Shuffle.indices self) 0
            = c).
Proof.
  intros E C Hperm. eexists. split; [reflexivity |].
  cbn [Shuffle.indices Shuffle.rev_indices].
  split; [reflexivity | split; [| split]].
  - apply invert_Permutation. exact Hperm.
  - apply invert_left. exact Hperm.
  - apply invert_right. exact Hperm.
Qed.

(** X6, with the reversal standing in for the random shuffle. *)
Lemma Shuffle_init_inverse_witness :
  exists self,
    Shuffle.init example_collaborators PyClass.Shuffle (Some 4) = Ok self
    /\ Shuffle.indices self = [3; 2; 1; 0]
    /\ forall i, i < 4 ->
         nth (nth i (Shuffle.indices self) 0) (Shuffle.rev_indices self) 0 = i.
Proof.
  destruct (Shuffle_init_inverse example_collaborators 4
              (Permutation_rev (seq 0 4)))
    as (self & Hi & Hind & _ & Hleft & _).
  exists self. split; [exact Hi | split; [exact Hind | exact Hleft]].
Defined.

(** X7. [Shuffle] permutes channels and nothing else.  On an array of
    size [(B, C, H, W)], when every stored index is below [C], forward
    returns the array whose channel [c] is channel [indices[c]] of the
    input, reverse the one whose channel [c] is channel [rev_indices[c]],
    and both return the objective they were given. *)
Theorem Shuffle_permutes_channels :
  forall (self : Shuffle.t) (x : tensor R) (o : objective_t)
         (B C H W : nat),
    size x = [B; C; H; W] ->
    (Forall (fun v => v < C) (Shuffle.indices self) ->
     exists y,
       Shuffle.forward_and_jacobian self x o = Ok (y, o)
       /\ size y = [B; length (Shuffle.indices self); H; W]
       /\ forall b c i j,
            b < B -> c < length (Shuffle.indices self) -> i < H -> j < W ->
            get y [b; c; i; j]
            = get x [b; nth c (Shuffle.indices self) 0; i; j])
    /\ (Forall (fun v => v < C) (Shuffle.rev_indices self) ->
        exists y,
          Shuffle.reverse_and_jacobian self x o = Ok (y, o)
          /\ size y = [B; length (Shuffle.rev_indices self); H; W]
          /\ forall b c i j,
               b < B -> c < length (Shuffle.rev_indices self) ->
               i < H -> j < W ->
               get y [b; c; i; j]
               = get x [b; nth c (Shuffle.rev_indices self) 0; i; j]).
Proof.
  intros self x o B C H W Hx.
  unfold Shuffle.forward_and_jacobian, Shuffle.reverse_and_jacobian.
  split.
  - intro Hall. rewrite (index_select_channels x B C H W _ Hx Hall).
    eexists. split; [reflexivity | split; [reflexivity |]].
    intros b c i j Hb Hc Hi Hj.
    rewrite get_tabulate by solve_range. reflexivity.
  - intro Hall. rewrite (index_select_channels x B C H W _ Hx Hall).
    eexists. split; [reflexivity | split; [reflexivity |]].
    intros b c i j Hb Hc Hi Hj.
    rewrite get_tabulate by solve_range. reflexivity.
Qed.

(** X7, at the swap of two channels. *)
Lemma Shuffle_permutes_channels_witness :
  exists y,
    Shuffle.forward_and_jacobian example_shuffle example_x (scalar 0%R)
    = Ok (y, scalar 0%R)
    /\ get y [0; 0; 0; 0] = get example_x [0; 1; 0; 0].
Proof.
  destruct (Shuffle_permutes_channels example_shuffle example_x (scalar 0%R)
              1 2 1 1 eq_refl) as [Hfwd _].
  destruct Hfwd as (y & Hf & _ & Hy).
  - repeat constructor.
  - exists y. split; [exact Hf |]. apply (Hy 0 0 0 0); repeat constructor.
Defined.

(* ------------------------------------------------------------------ *)
(** * What the additive coupling computes *)

(** X8. For every array [x] with an even number [2k] of channels,
    [AdditiveCoupling.forward_and_jacobian] keeps the first [k] channels
    [z1], takes [h = NN(z1)] and returns [z1] followed by [z2 + h];
    [reverse_and_jacobian] returns [z1] followed by [z2 - h].  Both return
    the objective unchanged: the coupling preserves volume. *)
Theorem AdditiveCoupling_spec :
  forall (E : Collaborators) (self : AdditiveCoupling.t) (x h : tensor R)
         (B k H W : nat) (objective : objective_t),
    size x = [B; 2 * k; H; W] ->
    AdditiveCoupling.NN self (channels x 0 k) = Ok h ->
    size h = [B; k; H; W] ->
    (exists y,
        forward_and_jacobian E (LAdditiveCoupling self) (Some x) objective
        = Ok (Some y, objective)
        /\ size y = [B; 2 * k; H; W]
        /\ forall b c i j, b < B -> c < 2 * k -> i < H -> j < W ->
             get y [b; c; i; j]
             = if c <? k then get x [b; c; i; j]
               else (get x [b; c; i; j] + get h [b; (c - k)%nat; i; j])%R)
    /\ (exists y,
          reverse_and_jacobian E (LAdditiveCoupling self) (Some x) objective
          = Ok (Some y, objective)
          /\ size y = [B; 2 * k; H; W]
          /\ forall b c i j, b < B -> c < 2 * k -> i < H -> j < W ->
               get y [b; c; i; j]
               = if c <? k then get x [b; c; i; j]
                 else (get x [b; c; i; j] - get h [b; (c - k)%nat; i; j])%R).
Proof.
  intros E self x h B k H W o Hx HNN Hh. split.
  - eexists. split; [| split].
    + apply (additive_forward_value E self x h B k H W o Hx HNN Hh).
    + apply (size_splice B (2 * k) H W x Hx).
    + intros b c i j Hb Hc Hi Hj.
      rewrite (get_coupled x B k H W Hx) by assumption.
      destruct (Nat.ltb_spec c k); [reflexivity |].
      rewrite get_zip_with
        by (rewrite (size_channels B (2 * k) H W x Hx); solve_range).
      rewrite (get_second_half x B k H W Hx) by lia.
      reflexivity.
  - eexists. split; [| split].
    + apply (additive_reverse_value E self x h B k H W o Hx HNN Hh).
    + apply (size_splice B (2 * k) H W x Hx).
    + intros b c i j Hb Hc Hi Hj.
      rewrite (get_coupled x B k H W Hx) by assumption.
      destruct (Nat.ltb_spec c k); [reflexivity |].
      rewrite get_zip_with
        by (rewrite (size_channels B (2 * k) H W x Hx); solve_range).
      rewrite (get_second_half x B k H W Hx) by lia.
      reflexivity.
Qed.

(** X8, at a network that returns ones. *)
Lemma AdditiveCoupling_spec_witness :
  exists y,
    forward_and_jacobian example_collaborators
      (LAdditiveCoupling example_additive) (Some example_x) (scalar 0%R)
    = Ok (Some y, scalar 0%R)
    /\ get y [0; 1; 0; 0] = (0 + 1)%R.
Proof.
  destruct (AdditiveCoupling_spec example_collaborators example_additive
              example_x (full [1; 1; 1; 1] 1%R) 1 1 1 1 (scalar 0%R)
              eq_refl eq_refl eq_refl)
    as ((y & Hf & _ & Hy) & _).
  exists y. split; [exact Hf |].
  rewrite (Hy 0 1 0 0) by lia. reflexivity.
Defined.

(* ------------------------------------------------------------------ *)
(** * A singular weight *)

(** X9. The reverse direction of [Invertible1x1Conv] returns exactly
    when the weight matrix is invertible: with a determinant other than
    zero it returns the convolution with the inverse matrix, and with
    determinant zero it raises the [RuntimeError] of [torch.inverse],
    although the forward direction accepts the same layer and array. *)
Theorem Invertible1x1Conv_reverse_needs_inverse :
  forall (self : Invertible1x1Conv.t) (x : tensor R) (objective : objective_t)
         (B C H W : nat),
    Invertible1x1Conv.attrs self = conv1x1_attrs ->
    size (Invertible1x1Conv.weight self) = [C; C; 1; 1] ->
    2 <= C ->
    size x = [B; C; H; W] ->
    0 < H -> 0 < W ->
    let M := squeeze (Invertible1x1Conv.weight self) in
    (det_of M C = 0%R ->
     Invertible1x1Conv.reverse_and_jacobian self x objective
     = Raise RuntimeError
     /\ exists y o',
          Invertible1x1Conv.forward_and_jacobian self x objective
          = Ok (y, o'))
    /\ (det_of M C <> 0%R ->
        exists y o',
          Invertible1x1Conv.reverse_and_jacobian self x objective
          = Ok (y, o')
          /\ size y = [B; C; H; W]).
Proof.
  intros self x o B C H W Ha Hw HC Hx HH HW M. split.
  - intro Hdet. split.
    + unfold Invertible1x1Conv.reverse_and_jacobian.
      rewrite (dlogdet_eq self x B C H W Hw HC Hx HH HW). cbn [Py.bind].
      unfold inverse. rewrite (size_squeeze_weight self C H W Hw HC HH HW).
      rewrite Nat.eqb_refl.
      destruct (Req_EM_T _ _) as [_ | Hne]; [reflexivity |].
      exfalso. apply Hne. exact Hdet.
    + rewrite (Invertible1x1Conv_forward_eq self x B C H W Ha Hw HC Hx HH HW).
      eexists. eexists. reflexivity.
  - intro Hdet.
    destruct (inverse M) as [Minv | e] eqn:Hinv.
    + rewrite (Invertible1x1Conv_reverse_eq self x B C H W Ha Hw HC Hx HH HW
                 o Minv Hinv).
      eexists. eexists. split; reflexivity.
    + exfalso. unfold inverse in Hinv. unfold M in Hinv.
      rewrite (size_squeeze_weight self C H W Hw HC HH HW), Nat.eqb_refl in Hinv.
      destruct (Req_EM_T _ _) as [Hz | _]; [| discriminate].
      apply Hdet. exact Hz.
Qed.

(** X9, at a weight whose two rows are equal. *)
Lemma Invertible1x1Conv_reverse_needs_inverse_witness :
  Invertible1x1Conv.reverse_and_jacobian example_singular_conv example_x
    (scalar 0%R)
  = Raise RuntimeError.
Proof.
  apply (Invertible1x1Conv_reverse_needs_inverse example_singular_conv
           example_x (scalar 0%R)
           1 2 1 1 eq_refl eq_refl (le_n 2) eq_refl (le_n 1) (le_n 1)).
  vm_compute. ring.
Defined.

(* ------------------------------------------------------------------ *)
(** * The scale of the affine coupling *)






(** X11, at a store that holds the example array. *)
Lemma additive_round_trip_in_store_witness :
  exists s',
    (' (y, o1) <- AdditiveCoupling.forward_and_jacobian example_additive
                    (Store.ref 0 None) (scalar 0%R) ;;
     r <- Store.alloc y ;;
     AdditiveCoupling.reverse_and_jacobian example_additive r o1)%store
      [example_x]
    = Ok ((example_x, scalar 0%R), s').
Proof.
  eexists.
  apply (additive_round_trip_in_store example_additive [example_x] 0
           example_x (full [1; 1; 1; 1] 1%R) 1 1 1 1 (scalar 0%R)
           eq_refl eq_refl eq_refl eq_refl eq_refl).
Defined.

(* ------------------------------------------------------------------ *)
(** * Reverse, then forward *)

Lemma iadd_isub : forall (o : objective_t) (q : R), iadd (isub o q) q = o.
Proof.
  intros [sh d] q. unfold isub, iadd, pointwise. cbn [size data].
  f_equal. rewrite map_map. rewrite <- (map_id d) at 2.
  apply map_ext. intro v. lra.
Qed.

Lemma bijective_layer_list : forall B C H W layers,
  bijective_layer B C H W (LLayerList layers)
  <-> Forall (bijective_layer B C H W) layers.
Proof.
  intros B C H W layers. induction layers as [| l layers IH].
  - split; intros; [constructor | exact I].
  - split.
    + intros [Hl Hrest]. constructor; [exact Hl | apply IH; exact Hrest].
    + intro Hall. inversion Hall; subst. split; [assumption |].
      apply IH. assumption.
Qed.

Lemma Shuffle_inverts_back : forall E B C H W self,
  shuffle_built C self -> inverts_back_at E [B; C; H; W] (LShuffle self).
Proof.
  intros E B C H W self [Hperm Hrev] y o Hwf Hy.
  pose proof (indices_length C _ Hperm) as Hlen.
  pose proof (invert_length C (Shuffle.indices self)) as Hlen'.
  eexists. exists o.
  cbn [forward_and_jacobian reverse_and_jacobian as_tensor of_option Py.bind].
  unfold Shuffle.forward_and_jacobian, Shuffle.reverse_and_jacobian.
  rewrite Hrev.
  rewrite (index_select_channels y B C H W _ Hy
             (invert_bounded C _ Hperm)).
  cbn [Py.bind some_array]. split; [reflexivity |].
  split; [apply wf_tabulate |].
  split; [rewrite size_tabulate, Hlen'; reflexivity |].
  rewrite (index_select_channels _ B C H W (Shuffle.indices self)).
  - cbn [Py.bind some_array]. do 3 f_equal.
    rewrite Hlen, Hlen'. symmetry. apply tensor_ext.
    + exact Hwf.
    + apply wf_tabulate.
    + rewrite Hy. reflexivity.
    + intros idx Hr. rewrite Hy in Hr. split_index Hr.
      rewrite get_tabulate by solve_range. cbn [map_at].
      rewrite get_tabulate
        by (apply in_range4; try assumption;
            apply (indices_bounded C _ Hperm); assumption).
      cbn [map_at]. rewrite (invert_left C _ Hperm) by assumption.
      reflexivity.
  - rewrite size_tabulate, Hlen'. reflexivity.
  - apply indices_Forall. exact Hperm.
Qed.

Lemma AdditiveCoupling_inverts_back : forall E B k H W self,
  NN_contract (AdditiveCoupling.NN self) B k k H W ->
  inverts_back_at E [B; 2 * k; H; W] (LAdditiveCoupling self).
Proof.
  intros E B k H W self HNN y o Hwf Hy.
  destruct (HNN (channels y 0 k) (size_channels B (2 * k) H W y Hy 0 k))
    as (h & Hh & Hhs).
  set (v := zip_with Rminus (channels y k k) h).
  set (x := Store.splice y k k v).
  assert (Hx : size x = [B; 2 * k; H; W])
    by apply (size_splice B (2 * k) H W y Hy).
  assert (Hsz : size (channels y k k) = [B; k; H; W])
    by apply (size_channels B (2 * k) H W y Hy).
  assert (Hszx : size (channels x k k) = [B; k; H; W])
    by apply (size_channels B (2 * k) H W x Hx).
  exists x, o. split; [| split; [| split]].
  - apply (additive_reverse_value E self y h B k H W o Hy Hh Hhs).
  - apply wf_tabulate.
  - exact Hx.
  - rewrite (additive_forward_value E self x h B k H W o Hx).
    + do 3 f_equal. unfold x.
      apply (splice_restore y v _ B k H W Hwf Hy).
      intros b c i j Hb Hc Hi Hj.
      rewrite get_zip_with by (fold x; rewrite Hszx; solve_range).
      rewrite (get_replaced_half y v B k H W b c i j Hy) by assumption.
      unfold v. rewrite get_zip_with by (rewrite Hsz; solve_range).
      rewrite (get_channels B (2 * k) H W y Hy) by assumption.
      lra.
    + unfold x.
      rewrite (channels_splice_before B (2 * k) H W y Hy) by lia.
      exact Hh.
    + exact Hhs.
Qed.

Lemma AffineCoupling_inverts_back : forall E B k H W self,
  NN_contract (AffineCoupling.NN self) B k (2 * k) H W ->
  inverts_back_at E [B; 2 * k; H; W] (LAffineCoupling self).
Proof.
  intros E B k H W self HNN y o Hwf Hy.
  destruct (HNN (channels y 0 k) (size_channels B (2 * k) H W y Hy 0 k))
    as (h & Hh & Hhs).
  set (shift := strided_channels h 0 2 k).
  set (scale := scale_tensor h k).
  set (v := zip_with Rminus (zip_with Rdiv (channels y k k) scale) shift).
  set (x := Store.splice y k k v).
  assert (Hx : size x = [B; 2 * k; H; W])
    by apply (size_splice B (2 * k) H W y Hy).
  assert (Hsz : size (channels y k k) = [B; k; H; W])
    by apply (size_channels B (2 * k) H W y Hy).
  assert (Hszx : size (channels x k k) = [B; k; H; W])
    by apply (size_channels B (2 * k) H W x Hx).
  exists x, (isub o (sum_all (pointwise ln scale))).
  split; [| split; [| split]].
  - apply (affine_reverse_value E self y h B k H W o Hy Hh Hhs).
  - apply wf_tabulate.
  - exact Hx.
  - rewrite (affine_forward_value E self x h B k H W _ Hx).
    + fold scale shift. rewrite iadd_isub. do 3 f_equal. unfold x.
      apply (splice_restore y v _ B k H W Hwf Hy).
      intros b c i j Hb Hc Hi Hj.
      rewrite get_zip_with
        by (unfold zip_with; rewrite size_tabulate; fold x; rewrite Hszx;
            solve_range).
      rewrite get_zip_with by (fold x; rewrite Hszx; solve_range).
      rewrite (get_replaced_half y v B k H W b c i j Hy) by assumption.
      unfold v.
      rewrite get_zip_with
        by (unfold zip_with; rewrite size_tabulate, Hsz; solve_range).
      rewrite get_zip_with by (rewrite Hsz; solve_range).
      rewrite (get_channels B (2 * k) H W y Hy) by assumption.
      unfold scale. rewrite (get_scale_tensor h B k H W Hhs) by assumption.
      unfold shift. rewrite (get_shift_tensor h B k H W Hhs) by assumption.
      pose proof (sigmoid_pos (get h [b; 2 * c + 1; i; j] + 2)).
      field. lra.
    + unfold x.
      rewrite (channels_splice_before B (2 * k) H W y Hy) by lia.
      exact Hh.
    + exact Hhs.
Qed.

Lemma Invertible1x1Conv_inverts_back : forall E B C H W self,
  conv_invertible C H W self ->
  (forall Minv,
      inverse (squeeze (Invertible1x1Conv.weight self)) = Ok Minv ->
      left_inverse (squeeze (Invertible1x1Conv.weight self)) Minv C) ->
  inverts_back_at E [B; C; H; W] (LInvertible1x1Conv self).
Proof.
  intros E B C H W self (Ha & Hw & HC & HH & HW & Minv & Hinv & _) Hright
         y o Hwf Hy.
  specialize (Hright Minv Hinv).
  set (M := squeeze (Invertible1x1Conv.weight self)) in *.
  set (q := (ln (Rabs (det_of M C)) * INR H * INR W)%R).
  set (x := tabulate [B; C; H; W]
              (fun idx => mix_channels Minv y C (nth 0 idx 0) (nth 1 idx 0)
                                       (nth 2 idx 0) (nth 3 idx 0))).
  exists x, (isub o q).
  cbn [forward_and_jacobian reverse_and_jacobian as_tensor of_option Py.bind].
  rewrite (Invertible1x1Conv_reverse_eq self y B C H W Ha Hw HC Hy HH HW
             o Minv Hinv).
  fold M q x. cbn [some_array Py.bind].
  split; [reflexivity |].
  split; [apply wf_tabulate |].
  split; [reflexivity |].
  rewrite (Invertible1x1Conv_forward_eq self x B C H W Ha Hw HC eq_refl
             HH HW).
  fold M q. cbn [some_array Py.bind]. rewrite iadd_isub. do 3 f_equal.
  symmetry. apply tensor_ext.
  - exact Hwf.
  - apply wf_tabulate.
  - rewrite Hy. reflexivity.
  - intros idx Hr. rewrite Hy in Hr. split_index Hr.
    rewrite get_tabulate by solve_range. cbn [nth].
    symmetry. apply (mix_channels_inverse Minv M y x C); try assumption.
    intros co Hco. unfold x. rewrite get_tabulate by solve_range.
    reflexivity.
Qed.

Lemma LayerList_inverts_back : forall E sh layers,
  Forall (inverts_back_at E sh) layers ->
  inverts_back_at E sh (LLayerList layers).
Proof.
  intros E sh layers Hall. induction Hall as [| l layers Hl _ IH].
  - intros y o Hwf Hy. exists y, o. repeat split; assumption.
  - intros y o Hwf Hy.
    destruct (IH y o Hwf Hy) as (x1 & o1 & Hr1 & Hwf1 & Hx1 & Hf1).
    destruct (Hl x1 o1 Hwf1 Hx1) as (x & o' & Hr & Hwfx & Hx & Hf).
    exists x, o'.
    cbn [forward_and_jacobian reverse_and_jacobian
         LayerList.forward_and_jacobian LayerList.reverse_and_jacobian] in *.
    rewrite Hr1. cbn [Py.bind]. split; [exact Hr |].
    split; [exact Hwfx |]. split; [exact Hx |].
    rewrite Hf. cbn [Py.bind]. exact Hf1.
Qed.

Lemma bijective_layer_inverts_back : forall E B C H W l,
  bijective_layer B C H W l -> inverts_back_at E [B; C; H; W] l.
Proof.
  intros E B C H W l.
  induction l as [s | s | s | s | s | s | s | s | layers IHl]
    using layer_ind_nested; intro Hbij; try contradiction.
  - apply Shuffle_inverts_back. exact Hbij.
  - destruct Hbij as [Hconv Hright].
    apply Invertible1x1Conv_inverts_back; assumption.
  - destruct Hbij as (k & -> & HNN). apply AdditiveCoupling_inverts_back.
    exact HNN.
  - destruct Hbij as (k & -> & HNN). apply AffineCoupling_inverts_back.
    exact HNN.
  - apply LayerList_inverts_back. apply bijective_layer_list in Hbij.
    rewrite Forall_forall in *. intros l Hl. apply IHl; [exact Hl |].
    apply Hbij. exact Hl.
Qed.

(** X12. The flow layers are inverted from the other side too: for
    every [Shuffle], every [Invertible1x1Conv] whose weight has a
    two-sided inverse, every coupling layer whose network keeps its
    channel contract, and every [LayerList] of such layers, and for every
    well-formed array [y] of the size of the layer and every objective
    [o], [forward_and_jacobian] applied to the result of
    [reverse_and_jacobian(y, o)] returns [(y, o)]: what reverse decodes,
    forward encodes back, log-determinant included. *)
Theorem flow_reverse_then_forward :
  forall (E : Collaborators) (B C H W : nat) (l : layer) (y : tensor R)
         (objective : objective_t),
    bijective_layer B C H W l ->
    wf y ->
    size y = [B; C; H; W] ->
    (' (x, objective') <- reverse_and_jacobian E l (Some y) objective ;;
     forward_and_jacobian E l x objective')
    = Ok (Some y, objective).
Proof.
  intros E B C H W l y o Hbij Hwf Hy.
  destruct (bijective_layer_inverts_back E B C H W l Hbij y o Hwf Hy)
    as (x & o' & Hr & _ & _ & Hf).
  rewrite Hr. cbn [Py.bind]. exact Hf.
Qed.

Lemma example_conv_right_inverse : forall Minv,
  inverse (squeeze (Invertible1x1Conv.weight example_conv)) = Ok Minv ->
  left_inverse (squeeze (Invertible1x1Conv.weight example_conv)) Minv 2.
Proof.
  intros Minv Hinv. unfold inverse in Hinv.
  cbn [example_conv Invertible1x1Conv.weight squeeze size filter Nat.eqb
       negb data] in Hinv.
  destruct (Req_EM_T _ _) as [Hd | Hd]; [discriminate |].
  inversion Hinv; subst Minv. clear Hinv.
  intros c ci Hc Hci.
  assert (Hcases : (c = 0 \/ c = 1) /\ (ci = 0 \/ ci = 1)) by lia.
  destruct Hcases as [[-> | ->] [-> | ->]]; vm_compute; field;
    vm_compute in Hd; lra.
Qed.

Lemma example_bijective :
  bijective_layer 1 2 1 1
    (LLayerList [LShuffle example_shuffle;
                 LInvertible1x1Conv example_conv;
                 LLayerList [LAdditiveCoupling example_additive;
                             LAffineCoupling example_affine]]).
Proof.
  cbn [bijective_layer]. repeat split.
  - apply perm_swap.
  - repeat constructor.
  - repeat constructor.
  - repeat constructor.
  - apply example_conv_inverse.
  - apply example_conv_right_inverse.
  - exists 1. split; [reflexivity | apply example_NN_contract_additive].
  - exists 1. split; [reflexivity | apply example_NN_contract_affine].
Qed.

(** X12, at a list that holds one layer of each kind. *)
Lemma flow_reverse_then_forward_witness :
  (' (x, objective') <-
     reverse_and_jacobian example_collaborators
       (LLayerList [LShuffle example_shuffle;
                    LInvertible1x1Conv example_conv;
                    LLayerList [LAdditiveCoupling example_additive;
                                LAffineCoupling example_affine]])
       (Some example_x) (scalar 0%R) ;;
   forward_and_jacobian example_collaborators
     (LLayerList [LShuffle example_shuffle;
                  LInvertible1x1Conv example_conv;
                  LLayerList [LAdditiveCoupling example_additive;
                              LAffineCoupling example_affine]])
     x objective')
  = Ok (Some example_x, scalar 0%R).
Proof.
  apply (flow_reverse_then_forward example_collaborators 1 2 1 1).
  - exact example_bijective.
  - reflexivity.
  - reflexivity.
Defined.

(* ------------------------------------------------------------------ *)
(** * A step with batch normalization *)

(** X20. A [RevNetStep] configured with ['batchnorm'] is built, but it
    cannot be run in reverse: its list starts with the [BatchNorm] layer,
    which the reversed loop reaches last and which has no
    [reverse_and_jacobian] of its own, so on every input the call raises
    (the error of a later layer, or else [NotImplementedError]). *)
Theorem RevNetStep_batchnorm_no_reverse :
  forall (E : Collaborators) (num_channels : nat) (args : Args) (step : layer)
         (x : option (tensor R)) (o : objective_t),
    is_str (norm args) "batchnorm" = true ->
    RevNetStep.init E num_channels args = Ok step ->
    (exists bn rest, step = LLayerList (LBatchNorm bn :: rest))
    /\ exists e, reverse_and_jacobian E step x o = Raise e.
Proof.
  intros E C args step x o Hbn Hi.
  destruct (RevNetStep_layout E C args step Hi)
    as (layers & -> & norm_part & perm & coup & -> & Hnorm & _).
  rewrite Hbn in Hnorm. destruct Hnorm as [bn ->].
  split; [exists bn, [perm; coup]; reflexivity |].
  cbn [app reverse_and_jacobian LayerList.reverse_and_jacobian].
  cbn [Py.bind].
  destruct (reverse_and_jacobian E coup x o) as [[x1 o1] | e];
    cbn [Py.bind]; [| eexists; reflexivity].
  destruct (reverse_and_jacobian E perm x1 o1) as [[x2 o2] | e];
    cbn [Py.bind]; eexists; reflexivity.
Qed.

(** X20, at the configuration of the end-to-end scenario with batch
    normalization switched on. *)
Lemma RevNetStep_batchnorm_no_reverse_witness :
  let args := {| norm := Some "batchnorm"%string;
                 permutation := Some "shuffle"%string;
                 coupling := Some "additive"%string;
                 depth := 1; n_levels := 2; learntop := false |} in
  exists step e,
    RevNetStep.init example_collaborators 4 args = Ok step
    /\ reverse_and_jacobian example_collaborators step
         (Some (full [1; 4; 1; 1] 0%R)) (scalar 0%R)
       = Raise e.
Proof.
  intro args.
  destruct (RevNetStep.init example_collaborators 4 args) as [step |] eqn:Hi.
  - destruct (RevNetStep_batchnorm_no_reverse example_collaborators 4 args
                step (Some (full [1; 4; 1; 1] 0%R)) (scalar 0%R)
                eq_refl Hi) as [_ [e He]].
    exists step, e. split; [reflexivity | exact He].
  - vm_compute in Hi. discriminate.
Defined.

(* ------------------------------------------------------------------ *)
(** * The objective is only added to *)

Lemma iadd_0 : forall o : objective_t, iadd o 0 = o.
Proof.
  intros [sh d]. unfold iadd, pointwise. cbn [size data]. f_equal.
  rewrite <- (map_id d) at 2. apply map_ext. intro v. lra.
Qed.

Lemma iadd_iadd : forall (o : objective_t) (a b : R),
  iadd (iadd o a) b = iadd o (a + b).
Proof.
  intros [sh d] a b. unfold iadd, pointwise. cbn [size data]. f_equal.
  rewrite map_map. apply map_ext. intro v. lra.
Qed.

(** Forward of one layer on arrays of size [sh]: the array that comes
    out has the same size, and the objective that comes out is the one
    that went in plus a quantity that does not depend on it. *)
Lemma flow_layer_adds : forall E B C H W l,
  flow_layer B C H W l ->
  forall x, wf x -> size x = [B; C; H; W] ->
    exists y q,
      wf y /\ size y = [B; C; H; W]
      /\ forall o, forward_and_jacobian E l (Some x) o
                   = Ok (Some y, iadd o q).
Proof.
  intros E B C H W l.
  induction l as [s | s | s | s | s | s | s | s | layers IHl]
    using layer_ind_nested; intros Hflow x Hwf Hx; try contradiction.
  - (* Shuffle *)
    destruct Hflow as [Hperm _].
    eexists. exists 0%R. split; [| split].
    3: { intro o.
         cbn [forward_and_jacobian as_tensor of_option Py.bind].
         unfold Shuffle.forward_and_jacobian.
         rewrite (index_select_channels x B C H W _ Hx
                    (indices_Forall C _ Hperm)).
         cbn [Py.bind some_array]. rewrite iadd_0. reflexivity. }
    + apply wf_tabulate.
    + rewrite size_tabulate, (indices_length C _ Hperm). reflexivity.
  - (* Invertible1x1Conv *)
    destruct Hflow as (Ha & Hw & HC & HH & HW & _).
    eexists. eexists. split; [| split].
    3: { intro o.
         cbn [forward_and_jacobian as_tensor of_option Py.bind].
         rewrite (Invertible1x1Conv_forward_eq s x B C H W Ha Hw HC Hx
                    HH HW).
         reflexivity. }
    + apply wf_tabulate.
    + reflexivity.
  - (* AdditiveCoupling *)
    destruct Hflow as (k & -> & HNN).
    destruct (HNN (channels x 0 k) (size_channels B (2 * k) H W x Hx 0 k))
      as (h & Hh & Hhs).
    eexists. exists 0%R. split; [| split].
    3: { intro o.
         rewrite (additive_forward_value E s x h B k H W o Hx Hh Hhs).
         rewrite iadd_0. reflexivity. }
    + apply wf_tabulate.
    + apply (size_splice B (2 * k) H W x Hx).
  - (* AffineCoupling *)
    destruct Hflow as (k & -> & HNN).
    destruct (HNN (channels x 0 k) (size_channels B (2 * k) H W x Hx 0 k))
      as (h & Hh & Hhs).
    eexists. eexists. split; [| split].
    3: { intro o.
         rewrite (affine_forward_value E s x h B k H W o Hx Hh Hhs).
         reflexivity. }
    + apply wf_tabulate.
    + apply (size_splice B (2 * k) H W x Hx).
  - (* LayerList *)
    apply flow_layer_list in Hflow.
    revert x Hwf Hx. induction layers as [| l layers IHlayers];
      intros x Hwf Hx.
    + exists x, 0%R. split; [exact Hwf | split; [exact Hx |]].
      intro o. cbn [forward_and_jacobian LayerList.forward_and_jacobian].
      rewrite iadd_0. reflexivity.
    + inversion IHl as [| ? ? Hl Hrest]; subst.
      inversion Hflow as [| ? ? Hfl Hfrest]; subst.
      destruct (Hl Hfl x Hwf Hx) as (x1 & q1 & Hwf1 & Hx1 & Hf1).
      destruct (IHlayers Hrest Hfrest x1 Hwf1 Hx1)
        as (y & q2 & Hwfy & Hy & Hf2).
      exists y, (q1 + q2)%R. split; [exact Hwfy | split; [exact Hy |]].
      intro o.
      cbn [forward_and_jacobian LayerList.forward_and_jacobian] in *.
      rewrite Hf1. cbn [Py.bind]. rewrite Hf2, iadd_iadd. reflexivity.
Qed.

(** X21. The flow layers only add to the objective.  For every
    [Shuffle], invertible [Invertible1x1Conv], coupling layer and
    [LayerList] of such layers, and every well-formed array [x] of the
    size of the layer, forward returns an array of the same size and the
    objective it was given plus a quantity [q] that depends on the layer
    and on [x] but not on that objective: the log-determinants can be
    accumulated from any starting value. *)
Theorem flow_forward_accumulates :
  forall (E : Collaborators) (B C H W : nat) (l : layer) (x : tensor R),
    flow_layer B C H W l ->
    wf x ->
    size x = [B; C; H; W] ->
    exists (y : tensor R) (q : R),
      size y = [B; C; H; W]
      /\ forall objective,
           forward_and_jacobian E l (Some x) objective
           = Ok (Some y, iadd objective q).
Proof.
  intros E B C H W l x Hflow Hwf Hx.
  destruct (flow_layer_adds E B C H W l Hflow x Hwf Hx)
    as (y & q & _ & Hy & Hf).
  exists y, q. split; assumption.
Qed.

(** X21, at a list that holds one layer of each kind. *)
Lemma flow_forward_accumulates_witness :
  exists (y : tensor R) (q : R),
    forall objective,
      forward_and_jacobian example_collaborators
        (LLayerList [LShuffle example_shuffle;
                     LInvertible1x1Conv example_conv;
                     LLayerList [LAdditiveCoupling example_additive;
                                 LAffineCoupling example_affine]])
        (Some example_x) objective
      = Ok (Some y, iadd objective q).
Proof.
  destruct (flow_forward_accumulates example_collaborators 1 2 1 1 _
              example_x example_flow eq_refl eq_refl) as (y & q & _ & Hf).
  exists y, q. exact Hf.
Defined.

(* ------------------------------------------------------------------ *)
(** * Views: the stride computation is sound *)

Section RowMajorOffsets.

Lemma roffset_app : forall l1 l2 n,
  roffset (l1 ++ l2) n = roffset l1 n + roffset l2 (n / rnumel l1).
Proof.
  induction l1 as [| [sz st] l1 IH]; intros l2 n.
  - cbn [app roffset rnumel fold_right]. rewrite Nat.div_1_r. reflexivity.
  - cbn [app roffset rnumel fold_right fst]. fold (rnumel l1).
    rewrite IH. rewrite Nat.Div0.div_div. lia.
Qed.

Lemma rnumel_app : forall l1 l2, rnumel (l1 ++ l2) = rnumel l1 * rnumel l2.
Proof.
  induction l1 as [| [sz st] l1 IH]; intros l2; simpl.
  - lia.
  - fold (rnumel (l1 ++ l2)) (rnumel l1). rewrite IH. lia.
Qed.

Lemma rnumel_rev : forall l, rnumel (rev l) = rnumel l.
Proof.
  induction l as [| [sz st] l IH]; simpl.
  - reflexivity.
  - fold (rnumel l). rewrite rnumel_app, IH. simpl. lia.
Qed.

Lemma rnumel_combine : forall sh st,
  length st = length sh -> rnumel (combine sh st) = numel sh.
Proof.
  induction sh as [| m sh IH]; intros [| s st] Hlen; simpl in *;
    try reflexivity; try discriminate.
  fold (rnumel (combine sh st)) (numel sh). rewrite IH by congruence.
  reflexivity.
Qed.

Lemma roffset_mod : forall l n,
  rnumel l <> 0 -> roffset l (n mod rnumel l) = roffset l n.
Proof.
  induction l as [| [sz st] l IH]; intros n Hnz; simpl in *.
  - reflexivity.
  - fold (rnumel l) in *.
    assert (Hsz : sz <> 0) by (intro Hz; subst; simpl in Hnz; lia).
    assert (Hl : rnumel l <> 0) by (intro Hz; rewrite Hz in Hnz; lia).
    rewrite Nat.Div0.mod_mul_r.
    replace ((n mod sz + sz * ((n / sz) mod rnumel l)) mod sz)
      with (n mod sz).
    2: { rewrite (Nat.mul_comm sz), Nat.Div0.mod_add, Nat.Div0.mod_mod.
         reflexivity. }
    replace ((n mod sz + sz * ((n / sz) mod rnumel l)) / sz)
      with ((n / sz) mod rnumel l).
    2: { rewrite Nat.add_comm, (Nat.mul_comm sz), Nat.div_add_l by exact Hsz.
         rewrite (Nat.div_small (n mod sz))
           by (apply Nat.mod_upper_bound; exact Hsz).
         lia. }
    rewrite IH by exact Hl. reflexivity.
Qed.

(** The offset of the [n]-th element, through its multi-index. *)
Lemma offset_unravel : forall sh st n,
  length st = length sh -> n < numel sh ->
  Strided.offset st (unravel sh n) = roffset (rev (combine sh st)) n.
Proof.
  induction sh as [| m sh IH]; intros [| s st] n Hlen Hn; simpl in *;
    try reflexivity; try discriminate.
  fold (numel sh) in *.
  assert (Hnz : numel sh <> 0) by (intro Hz; rewrite Hz in Hn; lia).
  rewrite IH by (try congruence; apply Nat.mod_upper_bound; exact Hnz).
  assert (Hnum : rnumel (rev (combine sh st)) = numel sh)
    by (rewrite rnumel_rev; apply rnumel_combine; congruence).
  pose proof (roffset_mod (rev (combine sh st)) n) as Hmod.
  rewrite Hnum in Hmod. rewrite (Hmod Hnz).
  rewrite roffset_app, Hnum. cbn [roffset].
  rewrite (Nat.mod_small (n / numel sh))
    by (apply Nat.Div0.div_lt_upper_bound; lia).
  lia.
Qed.

Lemma combine_app : forall {A B} (l1 l1' : list A) (l2 l2' : list B),
  length l1 = length l2 ->
  combine (l1 ++ l1') (l2 ++ l2') = combine l1 l2 ++ combine l1' l2'.
Proof.
  intros A B. induction l1 as [| a l1 IH]; intros l1' [| b l2] l2' Hlen;
    simpl in *; try reflexivity; try discriminate.
  f_equal. apply IH. congruence.
Qed.

Lemma rev_combine : forall {A B} (l1 : list A) (l2 : list B),
  length l1 = length l2 ->
  rev (combine l1 l2) = combine (rev l1) (rev l2).
Proof.
  intros A B. induction l1 as [| a l1 IH]; intros [| b l2] Hlen;
    simpl in *; try reflexivity; try discriminate.
  rewrite IH by congruence.
  rewrite combine_app by (rewrite !length_rev; congruence).
  reflexivity.
Qed.

End RowMajorOffsets.

Section ComputeStride.

Lemma fill_chunk_sound :
  forall rview vn tn base acc rview' vn' acc',
    Strided.fill_chunk rview vn tn base acc = (rview', vn', acc') ->
    exists taken vst,
      rview = taken ++ rview'
      /\ length vst = length taken
      /\ acc' = rev vst ++ acc
      /\ vn' = vn * numel taken
      /\ forall m, roffset (combine taken vst) m
                   = (m mod numel taken) * (vn * base).
Proof.
  induction rview as [| v rview IH];
    intros vn tn base acc rview' vn' acc' Hf; simpl in Hf.
  - inversion Hf; subst. exists [], []. simpl.
    repeat split; try lia.
  - destruct ((vn <? tn) || (v =? 1)).
    + apply IH in Hf.
      destruct Hf as (taken & vst & -> & Hlen & -> & -> & Hoff).
      exists (v :: taken), (vn * base :: vst). simpl.
      fold (numel taken).
      split; [reflexivity |]. split; [congruence |].
      split; [rewrite <- app_assoc; reflexivity |].
      split; [lia |].
      intro m. rewrite Hoff. rewrite Nat.Div0.mod_mul_r. lia.
    + inversion Hf; subst. exists [], []. simpl.
      repeat split; try lia.
Qed.

Lemma roffset_cons : forall sz st rest n,
  roffset ((sz, st) :: rest) n = (n mod sz) * st + roffset rest (n / sz).
Proof. reflexivity. Qed.

Lemma chunk_step : forall n tn sz s0 base,
  sz = 1 \/ s0 = tn * base ->
  (n mod tn) * base + (n / tn) mod sz * s0 = (n mod (tn * sz)) * base.
Proof.
  intros n tn sz s0 base [-> | ->].
  - rewrite Nat.mod_1_r, Nat.mul_1_r. lia.
  - rewrite Nat.Div0.mod_mul_r. lia.
Qed.

Lemma compute_stride_loop_sound :
  forall rold rview base tn acc st,
    Strided.compute_stride_loop rold rview base tn 1 acc = Some st ->
    match rold with
    | (sz, s0) :: _ => sz = 1 \/ s0 = tn * base
    | [] => False
    end ->
    exists vst,
      st = rev vst ++ acc
      /\ length vst = length rview
      /\ forall n, roffset (combine rview vst) n
                   = (n mod tn) * base + roffset rold (n / tn).
Proof.
  induction rold as [| [sz s0] rest IH];
    intros rview base tn acc st Hloop Hinv; [contradiction |].
  cbn [Strided.compute_stride_loop] in Hloop. cbv zeta in Hloop.
  destruct rest as [| [psz pst] rest'].
  - (* the outermost dimension closes the last chunk *)
    destruct (Strided.fill_chunk rview 1 (tn * sz) base acc)
      as [[rview' vn'] acc'] eqn:Hfill.
    destruct (Nat.eqb_spec vn' (tn * sz)) as [Hvn |]; [| discriminate].
    cbn [Strided.compute_stride_loop] in Hloop.
    destruct rview' as [| v rview']; [| discriminate].
    inversion Hloop; subst st. clear Hloop.
    apply fill_chunk_sound in Hfill.
    destruct Hfill as (taken & vst & -> & Hlen & -> & Hnum & Hoff).
    rewrite app_nil_r. exists vst.
    split; [reflexivity | split; [exact Hlen |]].
    intro n. rewrite Hoff. cbn [roffset].
    rewrite Nat.add_0_r, Nat.mul_1_l.
    replace (numel taken) with (tn * sz) by lia.
    symmetry. apply chunk_step. exact Hinv.
  - destruct (negb (psz =? 1) && negb (pst =? tn * sz * base)) eqn:Hb.
    + (* a chunk ends here and the next one starts *)
      destruct (Strided.fill_chunk rview 1 (tn * sz) base acc)
        as [[rview' vn'] acc'] eqn:Hfill.
      destruct (Nat.eqb_spec vn' (tn * sz)) as [Hvn |]; [| discriminate].
      apply fill_chunk_sound in Hfill.
      destruct Hfill as (taken & vst1 & -> & Hlen & -> & Hnum & Hoff).
      apply IH in Hloop; [| right; lia].
      destruct Hloop as (vst2 & -> & Hlen2 & Hoff2).
      exists (vst1 ++ vst2).
      split; [rewrite rev_app_distr, <- app_assoc; reflexivity |].
      split; [rewrite !length_app; congruence |].
      intro n.
      rewrite combine_app by (symmetry; exact Hlen).
      rewrite roffset_app, Hoff, Hoff2.
      rewrite rnumel_combine by exact Hlen.
      rewrite Nat.mod_1_r, Nat.div_1_r, Nat.mul_1_l.
      replace (numel taken) with (tn * sz) by lia.
      rewrite (roffset_cons sz s0 _ (n / tn)), Nat.Div0.div_div.
      pose proof (chunk_step n tn sz s0 base Hinv). lia.
    + (* the chunk goes on *)
      apply IH in Hloop.
      * destruct Hloop as (vst & -> & Hlen & Hoff).
        exists vst. split; [reflexivity | split; [exact Hlen |]].
        intro n. rewrite Hoff.
        rewrite (roffset_cons sz s0 _ (n / tn)), Nat.Div0.div_div.
        pose proof (chunk_step n tn sz s0 base Hinv). lia.
      * apply andb_false_iff in Hb.
        destruct Hb as [Hb | Hb]; apply negb_false_iff in Hb;
          apply Nat.eqb_eq in Hb; [left | right]; exact Hb.
Qed.

Lemma rev_combine_head : forall (sh st : list nat) sz s0 rest,
  length st = length sh ->
  rev (combine sh st) = (sz, s0) :: rest -> s0 = last st 1.
Proof.
  intros sh st sz s0 rest Hlen Hrev.
  rewrite rev_combine in Hrev by (symmetry; exact Hlen).
  destruct (rev st) as [| s rst] eqn:Hst.
  - destruct (rev sh); discriminate.
  - destruct (rev sh) as [| m rsh]; [discriminate |].
    inversion Hrev; subst.
    apply (f_equal (@rev nat)) in Hst. rewrite rev_involutive in Hst.
    rewrite Hst. simpl. symmetry. apply last_last.
Qed.

Lemma offset_nil_r : forall st, Strided.offset st [] = 0.
Proof. intros [| s st]; reflexivity. Qed.

Lemma offset_zeros : forall st k, Strided.offset st (repeat 0 k) = 0.
Proof.
  induction st as [| s st IH]; intros [| k]; simpl; try reflexivity.
  apply IH.
Qed.

Lemma unravel_numel_1 : forall sh n,
  numel sh = 1 -> unravel sh n = repeat 0 (length sh) \/ n <> 0.
Proof.
  intros sh n Hone. destruct n as [| n]; [left | right; discriminate].
  clear Hone. induction sh as [| m sh IH]; simpl; [reflexivity |].
  rewrite Nat.Div0.div_0_l, Nat.Div0.mod_0_l. f_equal. exact IH.
Qed.

Lemma length_contiguous_strides : forall sh,
  length (Strided.contiguous_strides sh) = length sh.
Proof. induction sh as [| m sh IH]; simpl; congruence. Qed.

(** When [view] finds strides for the requested size, the view reads
    the same elements in the same row-major order. *)
Lemma compute_stride_sound : forall oldsize oldstride newsize st,
  length oldstride = length oldsize ->
  numel oldsize = numel newsize ->
  Strided.compute_stride oldsize oldstride newsize = Some st ->
  length st = length newsize
  /\ forall n, n < numel newsize ->
       Strided.offset st (unravel newsize n)
       = Strided.offset oldstride (unravel oldsize n).
Proof.
  intros oldsize oldstride newsize st Hlen Hnum Hcs.
  unfold Strided.compute_stride in Hcs.
  destruct oldsize as [| m oldsize'] eqn:Hold.
  - inversion Hcs; subst st. split; [apply length_map |].
    intros n Hn. simpl in Hnum. rewrite <- Hnum in Hn.
    assert (n = 0) by lia. subst n.
    destruct (unravel_numel_1 newsize 0 (eq_sym Hnum)) as [-> | Hne];
      [| congruence].
    rewrite offset_zeros. simpl. symmetry. apply offset_nil_r.
  - rewrite <- Hold in *.
    destruct (Nat.eqb_spec (numel oldsize) 0) as [Hz | Hnz].
    + split; [| intros n Hn; lia].
      destruct (list_eq_dec Nat.eq_dec oldsize newsize);
        inversion Hcs; subst.
      * exact Hlen.
      * apply length_contiguous_strides.
    + destruct (rev (combine oldsize oldstride)) as [| [sz s0] rest]
        eqn:Hrold.
      { apply (f_equal (@length _)) in Hrold.
        rewrite length_rev, length_combine, Hlen, Nat.min_id in Hrold.
        rewrite Hold in Hrold. discriminate. }
      pose proof (rev_combine_head _ _ _ _ _ Hlen Hrold) as Hs0.
      apply compute_stride_loop_sound in Hcs; [| right; lia].
      destruct Hcs as (vst & -> & Hvlen & Hoff).
      rewrite app_nil_r. rewrite length_rev in Hvlen.
      split; [rewrite length_rev; exact Hvlen |].
      intros n Hn.
      rewrite offset_unravel by (rewrite ?length_rev; congruence).
      rewrite offset_unravel by (try exact Hlen; lia).
      rewrite rev_combine by (rewrite length_rev; congruence).
      rewrite rev_involutive, Hoff, Hrold.
      rewrite Nat.mod_1_r, Nat.div_1_r. reflexivity.
Qed.

End ComputeStride.

(* ------------------------------------------------------------------ *)
(** * Views and their logical content *)

Section ViewFacts.
Context {A : Type} `{Default A}.

Lemma contiguous_stride_numel : forall sh,
  Forall (fun n => 0 < n) sh ->
  fold_right (fun n acc => Nat.max n 1 * acc) 1 sh = numel sh.
Proof.
  intros sh Hpos. induction Hpos as [| n sh Hn _ IH]; simpl.
  - reflexivity.
  - fold (numel sh). rewrite IH. f_equal. lia.
Qed.

Lemma in_range_positive : forall sh idx,
  in_range sh idx -> Forall (fun n => 0 < n) sh.
Proof.
  intros sh idx Hr. unfold in_range in Hr.
  induction Hr as [| i n idx sh Hlt _ IH]; constructor; [lia | exact IH].
Qed.

Lemma offset_contiguous : forall sh idx,
  in_range sh idx ->
  Strided.offset (Strided.contiguous_strides sh) idx = ravel sh idx.
Proof.
  intros sh idx Hr. unfold in_range in Hr.
  induction Hr as [| i n idx sh Hlt Hrest IH]; simpl.
  - reflexivity.
  - fold (numel sh).
    rewrite (contiguous_stride_numel sh (in_range_positive _ _ Hrest)).
    rewrite IH. reflexivity.
Qed.

Lemma vget_of_tensor : forall (t : tensor A) idx,
  in_range (size t) idx ->
  Strided.vget (Strided.of_tensor t) idx = get t idx.
Proof.
  intros t idx Hr. unfold Strided.vget, Strided.of_tensor, get.
  cbn [Strided.strides Strided.storage].
  rewrite (offset_contiguous _ _ Hr). reflexivity.
Qed.

Lemma to_tensor_of_tensor : forall t : tensor A,
  wf t -> Strided.to_tensor (Strided.of_tensor t) = t.
Proof.
  intros t Hwf. unfold Strided.to_tensor.
  change (Strided.sizes (Strided.of_tensor t)) with (size t).
  rewrite <- (tabulate_get t Hwf) at 3.
  apply tabulate_ext. intros idx Hr. apply vget_of_tensor. exact Hr.
Qed.

Lemma get_to_tensor : forall (v : Strided.view A) idx,
  in_range (Strided.sizes v) idx ->
  get (Strided.to_tensor v) idx = Strided.vget v idx.
Proof.
  intros v idx Hr. unfold Strided.to_tensor.
  rewrite get_tabulate by exact Hr. reflexivity.
Qed.

Lemma to_tensor_contiguous : forall v : Strided.view A,
  Strided.to_tensor (Strided.contiguous v) = Strided.to_tensor v.
Proof.
  intro v. unfold Strided.contiguous.
  destruct (Strided.is_contiguous v); [reflexivity |].
  apply to_tensor_of_tensor. apply wf_tabulate.
Qed.

Lemma sizes_contiguous : forall v : Strided.view A,
  Strided.sizes (Strided.contiguous v) = Strided.sizes v.
Proof.
  intro v. unfold Strided.contiguous.
  destruct (Strided.is_contiguous v); reflexivity.
Qed.

Lemma strides_contiguous : forall v : Strided.view A,
  length (Strided.strides v) = length (Strided.sizes v) ->
  length (Strided.strides (Strided.contiguous v))
  = length (Strided.sizes v).
Proof.
  intros v Hlen. unfold Strided.contiguous.
  destruct (Strided.is_contiguous v); [exact Hlen |].
  cbn [Strided.of_tensor Strided.strides Strided.to_tensor size tabulate].
  apply length_contiguous_strides.
Qed.

(** The numbers that [view] and [reshape] accept account for every
    element. *)
Lemma infer_size_numel : forall n spec sz,
  Strided.infer_size n spec = Ok sz -> numel sz = n.
Proof.
  intros n spec sz Hi. unfold Strided.infer_size in Hi.
  set (known := fold_right _ 1 spec) in Hi.
  set (fill q := List.map (fun o : option nat =>
                             match o with Some k => k | None => q end)
                          spec).
  assert (Hfill : forall q,
             numel (fill q)
             = known * q ^ length (filter (fun o : option nat =>
                                             match o with
                                             | None => true
                                             | _ => false
                                             end) spec)).
  { intro q. unfold fill, known. clear.
    induction spec as [| [k |] spec IH]; simpl.
    - reflexivity.
    - fold (numel (List.map (fun o : option nat =>
                               match o with Some k => k | None => q end)
                            spec)).
      rewrite IH. lia.
    - fold (numel (List.map (fun o : option nat =>
                               match o with Some k => k | None => q end)
                            spec)).
      rewrite IH. lia. }
  destruct (length (filter _ spec)) as [| [| u]] eqn:Hu.
  - destruct (Nat.eqb_spec known n) as [Hk |]; inversion Hi.
    change (numel (fill 0) = n). rewrite Hfill. simpl. lia.
  - destruct (Nat.eqb_spec known 0) as [| Hk0]; [discriminate |].
    destruct (Nat.eqb_spec (n mod known) 0) as [Hm |]; [| discriminate].
    cbn [orb negb] in Hi. inversion Hi.
    change (numel (fill (n / known)) = n). rewrite Hfill. simpl.
    rewrite Nat.mul_1_r. symmetry. apply Nat.Div0.div_exact. exact Hm.
  - discriminate.
Qed.

(** [reshape] succeeds whenever the requested size fits, and the
    result holds the elements of its argument in the same row-major
    order. *)
Lemma reshape_sound : forall (v : Strided.view A) spec sz,
  length (Strided.strides v) = length (Strided.sizes v) ->
  Strided.infer_size (numel (Strided.sizes v)) spec = Ok sz ->
  exists v',
    Strided.reshape v spec = Ok v'
    /\ Strided.sizes v' = sz
    /\ length (Strided.strides v') = length sz
    /\ Strided.to_tensor v'
       = Tensor.mk sz (data (Strided.to_tensor v)).
Proof.
  intros v spec sz Hlen Hi. unfold Strided.reshape. rewrite Hi.
  cbn [Py.bind].
  pose proof (infer_size_numel _ _ _ Hi) as Hnum.
  destruct (Strided.compute_stride _ _ sz) as [st |] eqn:Hcs.
  - destruct (compute_stride_sound _ _ _ _ Hlen (eq_sym Hnum) Hcs)
      as [Hst Hoff].
    eexists. split; [reflexivity |].
    cbn [Strided.sizes Strided.strides].
    split; [reflexivity | split; [exact Hst |]].
    unfold Strided.to_tensor, tabulate.
    cbn [Strided.sizes data]. rewrite Hnum. f_equal.
    apply map_ext_in. intros n Hn. apply in_seq in Hn.
    unfold Strided.vget. cbn [Strided.strides Strided.storage].
    rewrite Hoff by lia. reflexivity.
  - eexists. split; [reflexivity |].
    cbn [Strided.sizes Strided.strides].
    split; [reflexivity | split; [apply length_contiguous_strides |]].
    apply (to_tensor_of_tensor
             (Tensor.mk sz (data (Strided.to_tensor v)))).
    unfold wf. cbn [data size]. unfold Strided.to_tensor, tabulate.
    cbn [data]. rewrite length_map, length_seq. symmetry. exact Hnum.
Qed.

(** Reading a reshaped tensor: the entry at [idx] is the entry of the
    original whose row-major position is the same. *)
Lemma get_same_position : forall (t : tensor A) sz idx idx',
  ravel sz idx = ravel (size t) idx' ->
  get (Tensor.mk sz (data t)) idx = get t idx'.
Proof.
  intros t sz idx idx' Hr. unfold get. cbn [size data]. rewrite Hr.
  reflexivity.
Qed.

Lemma transpose_3_1 : forall (v : Strided.view A) a b c d,
  Strided.sizes v = [a; b; c; d] ->
  length (Strided.strides v) = 4 ->
  exists v',
    Strided.transpose v 3 1 = Ok v'
    /\ Strided.sizes v' = [a; d; c; b]
    /\ length (Strided.strides v') = 4
    /\ forall i0 i1 i2 i3,
         Strided.vget v' [i0; i3; i2; i1] = Strided.vget v [i0; i1; i2; i3].
Proof.
  intros [sizes strides storage] a b c d Hs Hl.
  cbn [Strided.sizes Strided.strides] in *. subst sizes.
  destruct strides as [| s0 [| s1 [| s2 [| s3 [| s4 strides]]]]];
    try discriminate.
  eexists. split; [reflexivity |].
  cbn [Strided.sizes Strided.strides].
  split; [reflexivity | split; [reflexivity |]].
  intros i0 i1 i2 i3. unfold Strided.vget. simpl. f_equal. lia.
Qed.

Lemma permute_blocks : forall (v : Strided.view A) a0 a1 a2 a3 a4 a5,
  Strided.sizes v = [a0; a1; a2; a3; a4; a5] ->
  length (Strided.strides v) = 6 ->
  exists v',
    Strided.permute v [0; 1; 3; 5; 2; 4] = Ok v'
    /\ Strided.sizes v' = [a0; a1; a3; a5; a2; a4]
    /\ length (Strided.strides v') = 6
    /\ forall i0 i1 i2 i3 i4 i5,
         Strided.vget v' [i0; i1; i3; i5; i2; i4]
         = Strided.vget v [i0; i1; i2; i3; i4; i5].
Proof.
  intros [sizes strides storage] a0 a1 a2 a3 a4 a5 Hs Hl.
  cbn [Strided.sizes Strided.strides] in *. subst sizes.
  destruct strides
    as [| s0 [| s1 [| s2 [| s3 [| s4 [| s5 [| s6 strides]]]]]]];
    try discriminate.
  eexists. split; [reflexivity |].
  cbn [Strided.sizes Strided.strides].
  split; [reflexivity | split; [reflexivity |]].
  intros i0 i1 i2 i3 i4 i5. unfold Strided.vget. simpl. f_equal. lia.
Qed.

End ViewFacts.

(* ------------------------------------------------------------------ *)
(** * What [squeeze_bchw] computes *)

Lemma infer_size_lead_6 : forall n a b c d e,
  a * (b * (c * (d * (e * 1)))) <> 0 ->
  n mod (a * (b * (c * (d * (e * 1))))) = 0 ->
  Strided.infer_size n [None; Some a; Some b; Some c; Some d; Some e]
  = Ok [n / (a * (b * (c * (d * (e * 1))))); a; b; c; d; e].
Proof.
  intros n a b c d e Hnz Hmod. unfold Strided.infer_size.
  cbn [fold_right filter length List.map].
  destruct (Nat.eqb_spec (a * (b * (c * (d * (e * 1))))) 0); [contradiction |].
  rewrite Hmod. reflexivity.
Qed.

Lemma infer_size_lead_4 : forall n a b c,
  a * (b * (c * 1)) <> 0 ->
  n mod (a * (b * (c * 1))) = 0 ->
  Strided.infer_size n [None; Some a; Some b; Some c]
  = Ok [n / (a * (b * (c * 1))); a; b; c].
Proof.
  intros n a b c Hnz Hmod. unfold Strided.infer_size.
  cbn [fold_right filter length List.map].
  destruct (Nat.eqb_spec (a * (b * (c * 1))) 0); [contradiction |].
  rewrite Hmod. reflexivity.
Qed.

Lemma in_range6 : forall a0 a1 a2 a3 a4 a5 i0 i1 i2 i3 i4 i5,
  i0 < a0 -> i1 < a1 -> i2 < a2 -> i3 < a3 -> i4 < a4 -> i5 < a5 ->
  in_range [a0; a1; a2; a3; a4; a5] [i0; i1; i2; i3; i4; i5].
Proof. intros. repeat constructor; assumption. Qed.

Section SqueezeForward.
Context {A : Type} {default_A : Default A}.

Lemma squeeze_bchw_entries :
  forall (self : Squeeze.t) (x : tensor A) (B C H W : nat),
    let f := Squeeze.factor self in
    size x = [B; C; H; W] ->
    0 < f -> H mod f = 0 -> W mod f = 0 ->
    0 < C -> 0 < H -> 0 < W ->
    exists y,
      Squeeze.squeeze_bchw self x = Ok y
      /\ wf y
      /\ size y = [B; C * f ^ 2; W / f; H / f]
      /\ forall b c q s r p,
           b < B -> c < C -> q < f -> s < f -> r < W / f -> p < H / f ->
           get y [b; (c * f + q) * f + s; r; p]
           = get x [b; c; ((p * f + q) * W + (r * f + s)) mod H;
                    ((p * f + q) * W + (r * f + s)) / H].
Proof.
  intros self x B C H W f Hx Hf HHm HWm HC HH HW.
  assert (HHe : H = f * (H / f)) by (apply Nat.Div0.div_exact; exact HHm).
  assert (HWe : W = f * (W / f)) by (apply Nat.Div0.div_exact; exact HWm).
  set (h' := H / f) in *. set (w' := W / f) in *.
  assert (Hh' : 0 < h') by nia. assert (Hw' : 0 < w') by nia.
  unfold Squeeze.squeeze_bchw. fold f. rewrite Hx.
  cbn [unpack4 Py.bind]. rewrite HHm, HWm. fold h' w'.
  cbn [Nat.eqb andb assert Py.bind].
  (* x.transpose(3, 1).contiguous() *)
  destruct (transpose_3_1 (Strided.of_tensor x) B C H W)
    as (v1 & -> & Hs1 & Hl1 & Hg1).
  { exact Hx. }
  { cbn [Strided.of_tensor Strided.strides].
    rewrite length_contiguous_strides, Hx. reflexivity. }
  cbn [Py.bind].
  pose proof (to_tensor_contiguous v1) as HT1.
  pose proof (sizes_contiguous v1) as Hs1c.
  pose proof (strides_contiguous v1) as Hl1c.
  rewrite Hs1 in Hs1c, Hl1c. specialize (Hl1c Hl1).
  set (v1c := Strided.contiguous v1) in *.
  (* x.reshape(-1, h // f, f, w // f, f, c) *)
  assert (Hn1 : numel (Strided.sizes v1c)
                = B * (h' * (f * (w' * (f * (C * 1))))))
    by (rewrite Hs1c; cbn [numel fold_right]; rewrite HHe, HWe at 1; lia).
  destruct (reshape_sound v1c
              [None; Some h'; Some f; Some w'; Some f; Some C]
              [B; h'; f; w'; f; C])
    as (v2 & -> & Hs2 & Hl2 & HT2).
  { rewrite Hs1c. exact Hl1c. }
  { rewrite Hn1, infer_size_lead_6.
    - rewrite Nat.div_mul by nia. reflexivity.
    - nia.
    - apply Nat.Div0.mod_mul. }
  cbn [Py.bind].
  (* x.permute(0, 1, 3, 5, 2, 4) *)
  destruct (permute_blocks v2 B h' f w' f C Hs2 Hl2)
    as (v3 & -> & Hs3 & Hl3 & Hg3).
  cbn [Py.bind].
  (* x.reshape(-1, h // f, w // f, c * f ** 2) *)
  assert (Hn3 : numel (Strided.sizes v3) = B * (h' * (w' * (C * f ^ 2 * 1))))
    by (rewrite Hs3; cbn [numel fold_right Nat.pow]; lia).
  destruct (reshape_sound v3
              [None; Some h'; Some w'; Some (C * f ^ 2)]
              [B; h'; w'; C * f ^ 2])
    as (v4 & -> & Hs4 & Hl4 & HT4).
  { rewrite Hs3. exact Hl3. }
  { rewrite Hn3, infer_size_lead_4.
    - rewrite Nat.div_mul by (cbn [Nat.pow]; nia). reflexivity.
    - cbn [Nat.pow]. nia.
    - apply Nat.Div0.mod_mul. }
  cbn [Py.bind].
  (* x.transpose(3, 1).contiguous() *)
  destruct (transpose_3_1 v4 B h' w' (C * f ^ 2) Hs4 Hl4)
    as (v5 & -> & Hs5 & Hl5 & Hg5).
  cbn [Py.bind].
  eexists. split; [reflexivity |].
  rewrite to_tensor_contiguous.
  split; [apply wf_tabulate |].
  split; [exact Hs5 |].
  intros b c q s r p Hb Hc Hq Hs Hr Hp.
  set (k := (c * f + q) * f + s).
  set (L := (p * f + q) * W + (r * f + s)).
  assert (Hcq : c * f + q < C * f) by nia.
  assert (Hpq : p * f + q < H) by nia.
  assert (Hrs : r * f + s < W) by nia.
  assert (Hk : k < C * f ^ 2) by (unfold k; cbn [Nat.pow]; nia).
  assert (HL : L < W * H) by (unfold L; nia).
  assert (HLd : L / H < W) by (apply Nat.Div0.div_lt_upper_bound; lia).
  assert (HLm : L mod H < H) by (apply Nat.mod_upper_bound; lia).
  rewrite get_to_tensor by (rewrite Hs5; solve_range).
  rewrite (Hg5 b p r k).
  rewrite <- get_to_tensor by (rewrite Hs4; solve_range).
  rewrite HT4.
  rewrite (get_same_position _ _ _ [b; p; r; c; q; s]).
  2: { unfold Strided.to_tensor, tabulate. cbn [size]. rewrite Hs3.
       unfold k. cbn [ravel numel fold_right Nat.pow]. ring. }
  rewrite get_to_tensor by (rewrite Hs3; apply in_range6; assumption).
  rewrite (Hg3 b p q r s c).
  rewrite <- get_to_tensor by (rewrite Hs2; apply in_range6; assumption).
  rewrite HT2.
  rewrite (get_same_position _ _ _ [b; L / H; L mod H; c]).
  2: { unfold Strided.to_tensor, tabulate. cbn [size]. rewrite Hs1c.
       cbn [ravel numel fold_right].
       pose proof (Nat.div_mod_eq L H) as HLe.
       assert (HLC : L / H * (H * (C * 1)) + L mod H * (C * 1)
                     = L * C) by nia.
       unfold L in HLC |- *. rewrite HWe at 1. rewrite HHe at 1. nia. }
  rewrite HT1.
  rewrite get_to_tensor by (rewrite Hs1; solve_range).
  rewrite (Hg1 b c (L mod H) (L / H)).
  apply vget_of_tensor. rewrite Hx. solve_range.
Qed.

End SqueezeForward.

(** X13. [Squeeze.forward_and_jacobian] on an array of size
    [(B, C, H, W)] whose height and width are multiples of the factor [f]
    returns the objective unchanged and an array of size
    [(B, C * f ** 2, W // f, H // f)] (width before height) that holds every
    entry of the input exactly once: seen after [transpose(3, 1)] as
    [B] blocks of [W * H] positions, position
    [L = (p * f + q) * W + r * f + s] of every channel [c] goes to channel
    [(c * f + q) * f + s], row [r], column [p]. *)
Theorem Squeeze_forward_entries :
  forall (self : Squeeze.t) (x : tensor R) (objective : objective_t)
         (B C H W : nat),
    let f := Squeeze.factor self in
    size x = [B; C; H; W] ->
    0 < f -> H mod f = 0 -> W mod f = 0 ->
    0 < C -> 0 < H -> 0 < W ->
    exists y,
      Squeeze.forward_and_jacobian self x objective = Ok (y, objective)
      /\ wf y
      /\ size y = [B; C * f ^ 2; W / f; H / f]
      /\ forall b c q s r p,
           b < B -> c < C -> q < f -> s < f -> r < W / f -> p < H / f ->
           get y [b; (c * f + q) * f + s; r; p]
           = get x [b; c; ((p * f + q) * W + (r * f + s)) mod H;
                    ((p * f + q) * W + (r * f + s)) / H].
Proof.
  intros self x o B C H W f Hx Hf HHm HWm HC HH HW.
  destruct (squeeze_bchw_entries self x B C H W Hx Hf HHm HWm HC HH HW)
    as (y & Hy & Hwf & Hsize & Hget).
  fold f in Hsize, Hget.
  exists y. unfold Squeeze.forward_and_jacobian. rewrite Hx.
  cbn [length Nat.eqb raise_unless Py.bind]. rewrite Hy. cbn [Py.bind].
  repeat split; assumption.
Qed.

(** X13, at an array of size [(1, 1, 2, 4)] and factor 2. *)
Lemma Squeeze_forward_entries_witness :
  exists y,
    Squeeze.forward_and_jacobian (Squeeze.make 2 [1; 1; 2; 4])
      (Tensor.mk [1; 1; 2; 4]
         [0%R; 1%R; 2%R; 3%R; 4%R; 5%R; 6%R; 7%R]) (scalar 0%R)
    = Ok (y, scalar 0%R)
    /\ size y = [1; 4; 2; 1].
Proof.
  destruct (Squeeze_forward_entries (Squeeze.make 2 [1; 1; 2; 4])
              (Tensor.mk [1; 1; 2; 4]
                 [0%R; 1%R; 2%R; 3%R; 4%R; 5%R; 6%R; 7%R]) (scalar 0%R)
              1 1 2 4 eq_refl (le_S _ _ (le_n 1)) eq_refl eq_refl
              (le_n 1) (le_S _ _ (le_n 1))
              (le_S _ _ (le_S _ _ (le_S _ _ (le_n 1)))))
    as (y & Hf & _ & Hsize & _).
  exists y. split; [exact Hf | exact Hsize].
Defined.

(** X14. On square inputs [Squeeze] is the space-to-depth rearrangement:
    for an array of size [(B, C, N, N)] and a factor [f] that divides [N],
    the result has the size that [output_shape] announces, and its channel
    [(c * f + q) * f + s] at row [i], column [j] is channel [c] of the
    input at row [i * f + s], column [j * f + q]: every [f] by [f] block of
    positions becomes [f * f] channels. *)
Theorem Squeeze_square_space_to_depth :
  forall (self : Squeeze.t) (x : tensor R) (objective : objective_t)
         (B C N : nat),
    let f := Squeeze.factor self in
    Squeeze.input_shape self = [B; C; N; N] ->
    size x = [B; C; N; N] ->
    0 < f -> N mod f = 0 -> 0 < C -> 0 < N ->
    exists y,
      Squeeze.forward_and_jacobian self x objective = Ok (y, objective)
      /\ Squeeze.output_shape self = Ok (size y)
      /\ forall b c q s i j,
           b < B -> c < C -> q < f -> s < f -> i < N / f -> j < N / f ->
           get y [b; (c * f + q) * f + s; i; j]
           = get x [b; c; i * f + s; j * f + q].
Proof.
  intros self x o B C N f Hshape Hx Hf HNm HC HN.
  destruct (squeeze_bchw_entries self x B C N N Hx Hf HNm HNm HC HN HN)
    as (y & Hy & Hwf & Hsize & Hget).
  fold f in Hsize, Hget.
  exists y. unfold Squeeze.forward_and_jacobian. rewrite Hx.
  cbn [length Nat.eqb raise_unless Py.bind]. rewrite Hy. cbn [Py.bind].
  split; [reflexivity | split].
  - unfold Squeeze.output_shape. rewrite Hshape, Hsize.
    cbn [unpack4 Py.bind Nat.pow]. fold f. do 3 f_equal. lia.
  - intros b c q s i j Hb Hc Hq Hs Hi Hj.
    rewrite (Hget b c q s i j) by assumption.
    assert (HNe : N = f * (N / f)) by (apply Nat.Div0.div_exact; exact HNm).
    assert (His : i * f + s < N) by nia.
    replace (((j * f + q) * N + (i * f + s)) mod N) with (i * f + s).
    2: { apply Nat.mod_unique with (q := j * f + q); [exact His | lia]. }
    replace (((j * f + q) * N + (i * f + s)) / N) with (j * f + q).
    2: { apply Nat.div_unique with (r := i * f + s); [exact His | lia]. }
    reflexivity.
Qed.

(** X14, at an array of size [(1, 1, 2, 2)] and factor 2: the four
    positions become the four channels. *)
Lemma Squeeze_square_space_to_depth_witness :
  exists y,
    Squeeze.forward_and_jacobian (Squeeze.make 2 [1; 1; 2; 2])
      (Tensor.mk [1; 1; 2; 2] [0%R; 1%R; 2%R; 3%R]) (scalar 0%R)
    = Ok (y, scalar 0%R)
    /\ size y = [1; 4; 1; 1]
    /\ get y [0; 1; 0; 0] = 2%R
    /\ get y [0; 2; 0; 0] = 1%R.
Proof.
  destruct (Squeeze_square_space_to_depth (Squeeze.make 2 [1; 1; 2; 2])
              (Tensor.mk [1; 1; 2; 2] [0%R; 1%R; 2%R; 3%R]) (scalar 0%R)
              1 1 2 eq_refl eq_refl (le_S _ _ (le_n 1)) eq_refl
              (le_n 1) (le_S _ _ (le_n 1)))
    as (y & Hf & Hshape & Hget).
  exists y. split; [exact Hf |].
  cbn in Hshape. inversion Hshape as [Hsize].
  split; [reflexivity | split].
  - apply (Hget 0 0 0 1 0 0); cbn; lia.
  - apply (Hget 0 0 1 0 0 0); cbn; lia.
Defined.

(** X15. [Squeeze.output_shape] announces [(bs, c * f * f, h // f, w // f)],
    but the array that forward returns has width and height exchanged:
    the announced size is the size of the result exactly when
    [h // f = w // f]. *)
Theorem Squeeze_output_shape_agrees_iff :
  forall (self : Squeeze.t) (x : tensor R) (objective : objective_t)
         (B C H W : nat),
    let f := Squeeze.factor self in
    Squeeze.input_shape self = [B; C; H; W] ->
    size x = [B; C; H; W] ->
    0 < f -> H mod f = 0 -> W mod f = 0 ->
    0 < C -> 0 < H -> 0 < W ->
    exists y,
      Squeeze.forward_and_jacobian self x objective = Ok (y, objective)
      /\ (Squeeze.output_shape self = Ok (size y) <-> H / f = W / f).
Proof.
  intros self x o B C H W f Hshape Hx Hf HHm HWm HC HH HW.
  destruct (squeeze_bchw_entries self x B C H W Hx Hf HHm HWm HC HH HW)
    as (y & Hy & Hwf & Hsize & Hget).
  fold f in Hsize, Hget.
  exists y. unfold Squeeze.forward_and_jacobian. rewrite Hx.
  cbn [length Nat.eqb raise_unless Py.bind]. rewrite Hy. cbn [Py.bind].
  split; [reflexivity |].
  unfold Squeeze.output_shape. rewrite Hshape, Hsize.
  cbn [unpack4 Py.bind]. fold f. split.
  - intro Heq. inversion Heq. reflexivity.
  - intro Heq. rewrite Heq. cbn [Nat.pow]. do 3 f_equal. lia.
Qed.

(** X15, at an array of size [(1, 1, 2, 4)]: announced [(1, 4, 1, 2)],
    returned [(1, 4, 2, 1)]. *)
Lemma Squeeze_output_shape_agrees_iff_witness :
  exists y,
    Squeeze.forward_and_jacobian (Squeeze.make 2 [1; 1; 2; 4])
      (Tensor.mk [1; 1; 2; 4]
         [0%R; 1%R; 2%R; 3%R; 4%R; 5%R; 6%R; 7%R]) (scalar 0%R)
    = Ok (y, scalar 0%R)
    /\ Squeeze.output_shape (Squeeze.make 2 [1; 1; 2; 4]) <> Ok (size y).
Proof.
  destruct (Squeeze_output_shape_agrees_iff (Squeeze.make 2 [1; 1; 2; 4])
              (Tensor.mk [1; 1; 2; 4]
                 [0%R; 1%R; 2%R; 3%R; 4%R; 5%R; 6%R; 7%R]) (scalar 0%R)
              1 1 2 4 eq_refl eq_refl (le_S _ _ (le_n 1)) eq_refl eq_refl
              (le_n 1) (le_S _ _ (le_n 1))
              (le_S _ _ (le_S _ _ (le_S _ _ (le_n 1)))))
    as (y & Hf & Hiff).
  exists y. split; [exact Hf |].
  intro Heq. apply Hiff in Heq. discriminate Heq.
Defined.

Lemma transpose_4_ok : forall {A : Type} {default_A : Default A}
                              (v : Strided.view A) a b c d,
  Strided.sizes v = [a; b; c; d] ->
  length (Strided.strides v) = 4 ->
  exists v', Strided.transpose v 3 1 = Ok v'
             /\ Strided.sizes v' = [a; d; c; b].
Proof.
  intros A dA v a b c d Hs Hl.
  destruct (transpose_3_1 v a b c d Hs Hl) as (v' & Ht & Hs' & _).
  exists v'. split; assumption.
Qed.

(** X16. What [Squeeze] refuses.  The constructor asserts a factor above
    one.  Forward raises [NotImplementedError] on an array that does not
    have four dimensions, [AssertionError] when the height or the width
    is not a multiple of the factor, and the [RuntimeError] of [reshape]
    on an array without elements per batch entry (a dimension of size
    zero cannot be inferred). *)
Theorem Squeeze_forward_rejects :
  forall (self : Squeeze.t) (x : tensor R) (objective : objective_t),
    let f := Squeeze.factor self in
    (forall self_cls input_shape factor,
        factor <= 1 ->
        PyClass.super_init PyClass.Squeeze self_cls = Ok tt ->
        Squeeze.init self_cls input_shape factor = Raise AssertionError)
    /\ (length (size x) <> 4 ->
        Squeeze.forward_and_jacobian self x objective
        = Raise NotImplementedError)
    /\ (forall B C H W,
          size x = [B; C; H; W] ->
          H mod f <> 0 \/ W mod f <> 0 ->
          Squeeze.forward_and_jacobian self x objective
          = Raise AssertionError)
    /\ (forall B C H W,
          size x = [B; C; H; W] ->
          H mod f = 0 -> W mod f = 0 ->
          C * H * W = 0 ->
          Squeeze.forward_and_jacobian self x objective
          = Raise RuntimeError).
Proof.
  intros self x o f. split; [| split; [| split]].
  - intros self_cls shape factor Hle Hsuper. unfold Squeeze.init.
    rewrite Hsuper. cbn [Py.bind].
    replace (1 <? factor) with false
      by (symmetry; apply Nat.ltb_ge; exact Hle).
    reflexivity.
  - intro Hlen. unfold Squeeze.forward_and_jacobian.
    destruct (Nat.eqb_spec (length (size x)) 4); [contradiction |].
    reflexivity.
  - intros B C H W Hx Hmod. unfold Squeeze.forward_and_jacobian.
    rewrite Hx. cbn [length Nat.eqb raise_unless Py.bind].
    unfold Squeeze.squeeze_bchw. rewrite Hx. cbn [unpack4 Py.bind].
    fold f.
    replace ((H mod f =? 0) && (W mod f =? 0)) with false; [reflexivity |].
    symmetry. apply andb_false_iff.
    destruct Hmod as [Hm | Hm]; [left | right]; apply Nat.eqb_neq; exact Hm.
  - intros B C H W Hx HHm HWm Hzero. unfold Squeeze.forward_and_jacobian.
    rewrite Hx. cbn [length Nat.eqb raise_unless Py.bind].
    unfold Squeeze.squeeze_bchw. rewrite Hx. cbn [unpack4 Py.bind].
    fold f. rewrite HHm, HWm. cbn [Nat.eqb andb assert Py.bind].
    destruct (transpose_4_ok (Strided.of_tensor x) B C H W)
      as (v1 & -> & Hs1).
    { exact Hx. }
    { cbn [Strided.of_tensor Strided.strides].
      rewrite length_contiguous_strides, Hx. reflexivity. }
    cbn [Py.bind]. unfold Strided.reshape at 1.
    replace (Strided.infer_size _ _) with (@Raise (list nat) RuntimeError);
      [reflexivity |].
    unfold Strided.infer_size. cbn [fold_right filter length].
    replace (H / f * (f * (W / f * (f * (C * 1)))) =? 0) with true;
      [reflexivity |].
    symmetry. apply Nat.eqb_eq.
    assert (HHe : H = f * (H / f)) by (apply Nat.Div0.div_exact; exact HHm).
    assert (HWe : W = f * (W / f)) by (apply Nat.Div0.div_exact; exact HWm).
    nia.
Qed.

(** X16, at an array whose height is odd and at one with three
    dimensions. *)
Lemma Squeeze_forward_rejects_witness :
  Squeeze.forward_and_jacobian (Squeeze.make 2 [1; 1; 3; 2])
    (full [1; 1; 3; 2] 0%R) (scalar 0%R)
  = Raise AssertionError
  /\ Squeeze.forward_and_jacobian (Squeeze.make 2 [1; 1; 3; 2])
       (full [1; 6; 1] 0%R) (scalar 0%R)
     = Raise NotImplementedError.
Proof.
  split.
  - apply (Squeeze_forward_rejects (Squeeze.make 2 [1; 1; 3; 2])
             (full [1; 1; 3; 2] 0%R) (scalar 0%R))
      with (B := 1) (C := 1) (H := 3) (W := 2).
    + reflexivity.
    + left. discriminate.
  - apply (Squeeze_forward_rejects (Squeeze.make 2 [1; 1; 3; 2])
             (full [1; 6; 1] 0%R) (scalar 0%R)).
    discriminate.
Defined.

(* ------------------------------------------------------------------ *)
(** * The statistics and the log-determinant of [BatchNorm] *)

Lemma sum_list_app : forall l1 l2,
  sum_list (l1 ++ l2) = (sum_list l1 + sum_list l2)%R.
Proof.
  intros l1 l2. induction l1 as [| v l1 IH]; unfold sum_list in *; simpl.
  - lra.
  - rewrite IH. lra.
Qed.

Lemma sum_list_flat_map : forall {T} (F : R -> R) (g : T -> list R) l,
  sum_list (List.map F (flat_map g l))
  = sum_list (List.map (fun a => sum_list (List.map F (g a))) l).
Proof.
  intros T F g l. induction l as [| a l IH]; simpl.
  - reflexivity.
  - rewrite map_app, sum_list_app, IH. reflexivity.
Qed.

Lemma length_flat_map_const : forall {S T} (g : S -> list T) l n,
  (forall a, length (g a) = n) -> length (flat_map g l) = length l * n.
Proof.
  intros S T g l n Hg. induction l as [| a l IH]; simpl.
  - reflexivity.
  - rewrite length_app, Hg, IH. reflexivity.
Qed.

Lemma sum_squared_deviations : forall (m : R) (l : list R),
  sum_list (List.map (fun v => (v - m) * (v - m))%R l)
  = (sum_list (List.map (fun v => v ^ 2)%R l)
     - 2 * m * sum_list l + INR (length l) * (m * m))%R.
Proof.
  intros m l. induction l as [| v l IH].
  - unfold sum_list. simpl. lra.
  - cbn [List.map length]. rewrite S_INR.
    unfold sum_list in *. cbn [fold_right]. rewrite IH. ring.
Qed.

(** The variance that batch normalization divides by, from the sum and
    the sum of squares. *)
Lemma var_list_sums : forall l,
  l <> [] ->
  var_list l
  = ((sum_list (List.map (fun v => v ^ 2)%R l)
      - sum_list l * (sum_list l / INR (length l))) / INR (length l))%R.
Proof.
  intros l Hne. unfold var_list, mean_list.
  assert (Hn : INR (length l) <> 0%R).
  { apply not_0_INR. destruct l; [contradiction | discriminate]. }
  rewrite sum_squared_deviations. field. exact Hn.
Qed.

Lemma ln_abs_inv_sqrt : forall v : R,
  ln (Rabs (Rpower v (- (1 / 2)))) = (- (1 / 2) * ln v)%R.
Proof.
  intro v. unfold Rpower.
  rewrite Rabs_right by (left; apply exp_pos).
  apply ln_exp.
Qed.

Lemma ravel_cons2 : forall B C rest b c idx,
  ravel (B :: C :: rest) (b :: c :: idx)
  = b * (C * numel rest) + (c * numel rest + ravel rest idx).
Proof. reflexivity. Qed.

Section BatchNormStatistics.
Variables (x : tensor R) (B C H W : nat).
Hypothesis x_wf : wf x.
Hypothesis x_size : size x = [B; C; H; W].
Hypothesis B_pos : 0 < B.
Hypothesis C_pos : 0 < C.
Hypothesis H_pos : 0 < H.
Hypothesis W_pos : 0 < W.

Lemma view_batch_channel_rest :
  view x [Some B; Some C; None] = Ok (Tensor.mk [B; C; H * W] (data x)).
Proof.
  unfold view, Strided.infer_size. rewrite x_size.
  cbn [numel fold_right filter length List.map].
  assert (Hk : B * (C * 1) <> 0) by nia.
  assert (Hn : B * (C * (H * (W * 1))) = H * W * (B * (C * 1))) by lia.
  rewrite Hn, Nat.Div0.mod_mul, Nat.div_mul by exact Hk.
  destruct (Nat.eqb_spec (B * (C * 1)) 0); [contradiction |].
  reflexivity.
Qed.

Lemma wf_view : wf (Tensor.mk [B; C; H * W] (data x)).
Proof.
  unfold wf in *. cbn [data size]. rewrite x_wf, x_size.
  cbn [numel fold_right]. lia.
Qed.

Lemma get_view : forall b c r,
  b < B -> c < C -> r < H * W ->
  get (Tensor.mk [B; C; H * W] (data x)) [b; c; r]
  = get x (b :: c :: unravel [H; W] r).
Proof.
  intros b c r Hb Hc Hr. unfold get. cbn [size data]. rewrite x_size.
  f_equal. rewrite !ravel_cons2.
  rewrite ravel_unravel by (cbn [numel fold_right]; lia).
  cbn [ravel numel fold_right]. lia.
Qed.

Lemma length_channel_values : forall c,
  length (channel_values x c) = B * (H * W).
Proof.
  intro c. unfold channel_values. rewrite x_size.
  rewrite (length_flat_map_const _ _ (H * W)).
  - rewrite length_seq. reflexivity.
  - intro b. rewrite length_map, length_seq. cbn [numel fold_right]. lia.
Qed.

(** Summing over the batch and then over the positions adds up the
    values of each channel. *)
Lemma sum_batch_positions : forall (F : R -> R) c,
  c < C ->
  sum_list
    (List.map
       (fun k => sum_list
                   (List.map
                      (fun b => F (get (Tensor.mk [B; C; H * W] (data x))
                                       [b; c; k]))
                      (seq 0 B)))
       (seq 0 (H * W)))
  = sum_list (List.map F (channel_values x c)).
Proof.
  intros F c Hc. unfold channel_values. rewrite x_size.
  rewrite sum_list_flat_map, sum_list_swap.
  apply sum_list_ext. intros b Hb. apply in_seq in Hb.
  rewrite map_map. replace (numel [H; W]) with (H * W)
    by (cbn [numel fold_right]; lia).
  apply sum_list_ext. intros r Hr. apply in_seq in Hr.
  rewrite get_view by lia. reflexivity.
Qed.

Lemma sum_over_batch_and_positions : forall t : tensor R,
  size t = [B; C; H * W] ->
  (t1 <- sum_at t 0 ;; sum_at t1 (-1))
  = Ok (tabulate [C]
          (fun idx =>
             sum_list
               (List.map
                  (fun k => sum_list
                              (List.map (fun b => get t [b; nth 0 idx 0; k])
                                        (seq 0 B)))
                  (seq 0 (H * W))))).
Proof.
  intros t Ht. unfold sum_at. rewrite Ht.
  change (norm_dim (length [B; C; H * W]) 0) with (@Ok nat 0).
  cbn [Py.bind]. unfold sum_dim at 1. rewrite Ht.
  cbn [nth_error of_option Py.bind remove_at size tabulate].
  change (norm_dim (length [C; H * W]) (-1)) with (@Ok nat 1).
  cbn [Py.bind]. unfold sum_dim.
  cbn [nth_error of_option Py.bind remove_at size tabulate].
  f_equal. apply tabulate_ext. intros idx Hr.
  inversion Hr as [| c ? idx' ? Hc Hnil]; subst. inversion Hnil; subst.
  cbn [nth insert_at].
  apply sum_list_ext. intros k Hk. apply in_seq in Hk.
  match goal with
  | |- get ?t1 [c; k] = _ =>
      change t1 with
        (tabulate [C; H * W]
           (fun idx => sum_list
                         (List.map (fun k0 => get t (insert_at 0 k0 idx))
                                   (seq 0 B))))
  end.
  rewrite get_tabulate by (repeat constructor; lia).
  reflexivity.
Qed.

End BatchNormStatistics.

Lemma size_at_first_last : forall (d : list R) a b c,
  size_at (Tensor.mk [a; b; c] d) 0 = Ok a
  /\ size_at (Tensor.mk [a; b; c] d) (-1) = Ok c.
Proof. intros. split; reflexivity. Qed.

Lemma unravel_1 : forall C n, unravel [C] n = [n].
Proof.
  intros C n. cbn [unravel numel fold_right]. rewrite Nat.div_1_r.
  reflexivity.
Qed.

Lemma data_tabulate_1 : forall (C : nat) (F : list nat -> R),
  data (tabulate [C] F) = List.map (fun c => F [c]) (seq 0 C).
Proof.
  intros C F. unfold tabulate. cbn [data numel fold_right].
  rewrite Nat.mul_1_r. apply map_ext. intro n. rewrite unravel_1.
  reflexivity.
Qed.

(** The value that [BatchNorm.forward_and_jacobian] computes: the sums
    and square-sums that the method recomputes give the variance that
    batch normalization divides by, clamped at [eps] from below. *)
Lemma BatchNorm_forward_eq :
  forall (self : BatchNorm.t) (x : tensor R) (objective : objective_t)
         (B C H W : nat),
    wf x ->
    size x = [B; C; H; W] ->
    0 < B -> 0 < C -> 0 < H -> 0 < W ->
    size (BatchNorm.running_mean self) = [C] ->
    size (BatchNorm.running_var self) = [C] ->
    (BatchNorm.training self = true -> B * (H * W) <> 1) ->
    exists y self',
      BatchNorm.forward_and_jacobian self x objective
      = Ok (y,
            iadd objective
              (sum_list
                 (List.map
                    (fun c => (- (1 / 2)
                               * ln (Rmax (var_list (channel_values x c))
                                          (BatchNorm.eps self))
                               * INR B * INR (H * W))%R)
                    (seq 0 C))),
            self').
Proof.
  intros self x o B C H W Hwf Hx HB HC HH HW Hrm Hrv Htrain.
  unfold BatchNorm.forward_and_jacobian.
  (* F.batch_norm returns *)
  unfold batch_norm at 1. rewrite Hx, Hrm, Hrv, !list_eqb_refl.
  replace (negb (BatchNorm.training self)
           || negb (B * numel [H; W] =? 1)) with true.
  2: { symmetry. destruct (BatchNorm.training self); [| reflexivity].
       cbn [negb orb]. apply negb_true_iff, Nat.eqb_neq.
       cbn [numel fold_right]. rewrite Nat.mul_1_r. apply Htrain.
       reflexivity. }
  cbn [andb raise_unless Py.bind].
  destruct (batch_norm_running _ _ _ _ _) as [rm rv].
  (* the statistics *)
  unfold BatchNorm.statistics. rewrite Hx.
  cbn [nth_error of_option Py.bind].
  rewrite (view_batch_channel_rest x B C H W Hx HB HC HH HW).
  cbn [Py.bind].
  destruct (size_at_first_last (data x) B C (H * W)) as [Hn0 Hn1].
  rewrite Hn0, Hn1. cbn [Py.bind].
  rewrite (sum_over_batch_and_positions B C H W HB HC HH HW
             (Tensor.mk [B; C; H * W] (data x)) eq_refl).
  rewrite (sum_over_batch_and_positions B C H W HB HC HH HW
             (pointwise (fun v => (v ^ 2)%R)
                        (Tensor.mk [B; C; H * W] (data x))) eq_refl).
  cbn [Py.bind].
  match goal with
  | |- context [binop Rmult ?s _] => set (SUM := s)
  end.
  match goal with
  | |- context [binop Rminus ?s _] => set (SSUM := s)
  end.
  rewrite binop_zip_with by reflexivity. cbn [Py.bind].
  rewrite binop_zip_with by reflexivity. cbn [Py.bind].
  rewrite Hn0, Hn1. cbn [Py.bind].
  eexists. eexists. do 2 f_equal. f_equal. f_equal.
  (* the sum over the channels *)
  set (n := B * (H * W)).
  set (MEAN := pointwise (fun v => (v / INR n)%R) SUM).
  unfold zip_with at 1. change (size SSUM) with [C].
  unfold sum_all, pointwise at 1 2 3. cbn [data].
  rewrite data_tabulate_1, !map_map.
  apply sum_list_ext. intros c Hc. apply in_seq in Hc.
  assert (Hr : in_range [C] [c]) by (repeat constructor; lia).
  assert (Hsum : get SUM [c] = sum_list (channel_values x c)).
  { unfold SUM. rewrite get_tabulate by exact Hr. cbn [nth].
    rewrite (sum_batch_positions x B C H W Hx HB HC HH HW (fun v => v) c)
      by lia.
    rewrite map_id. reflexivity. }
  assert (Hssum : get SSUM [c]
                  = sum_list (List.map (fun v => (v ^ 2)%R)
                                       (channel_values x c))).
  { unfold SSUM. rewrite get_tabulate by exact Hr. cbn [nth].
    rewrite <- (sum_batch_positions x B C H W Hx HB HC HH HW
                  (fun v => (v ^ 2)%R) c) by lia.
    apply sum_list_ext. intros k Hk. apply in_seq in Hk.
    apply sum_list_ext. intros b Hb. apply in_seq in Hb.
    apply get_pointwise.
    - apply (wf_view x B C H W Hwf Hx HB HC HH HW).
    - repeat constructor; lia. }
  rewrite Hssum.
  rewrite get_zip_with by exact Hr.
  unfold MEAN. rewrite get_pointwise by (try apply wf_tabulate; exact Hr).
  rewrite Hsum.
  rewrite ln_abs_inv_sqrt.
  assert (Hlen : length (channel_values x c) = n)
    by apply (length_channel_values x B C H W Hx HB HC HH HW).
  rewrite var_list_sums.
  - rewrite Hlen. unfold n. reflexivity.
  - intro Hnil. rewrite Hnil in Hlen. simpl in Hlen. unfold n in Hlen. nia.
Qed.

(* ------------------------------------------------------------------ *)
(** * The prior without a learned head *)




(* ------------------------------------------------------------------ *)
(** * The layers of a [Codec] *)

Lemma level_shape_next : forall bs c h w i,
  [bs; c * 4 * 2 ^ i * 2; h / 2 ^ (i + 1) / 2; w / 2 ^ (i + 1) / 2]
  = level_shape bs c h w (S i).
Proof.
  intros bs c h w i. unfold level_shape.
  rewrite !Nat.Div0.div_div.
  replace (S i + 1) with (S (i + 1)) by lia.
  rewrite !Nat.pow_succ_r'.
  replace (c * 4 * 2 ^ i * 2) with (c * 4 * (2 * 2 ^ i)) by ring.
  replace (2 ^ (i + 1) * 2) with (2 * 2 ^ (i + 1)) by ring.
  reflexivity.
Qed.

Lemma Split_init_ok : forall E bs c h w,
  exists split,
    Split.init E [bs; c; h; w] = Ok split
    /\ Codec.output_shape (LSplit split) = Ok [bs; c * 2; h / 2; w / 2].
Proof.
  intros E bs c h w. eexists. split; reflexivity.
Qed.

Lemma levels_layout :
  forall E args bs c h w k i layers layers' shape shape' l,
    i + k = n_levels args ->
    nth_error layers (length layers - 1) = Some l ->
    Codec.output_shape l = Ok (level_shape bs c h w i) ->
    Codec.levels E args (seq i k) layers shape = Ok (layers', shape') ->
    exists added,
      layers' = layers ++ added
      /\ length added = 2 * k - 1
      /\ (forall j, j < k ->
            exists net,
              nth_error added (2 * j) = Some net
              /\ RevNet.init E (level_shape bs c h w (i + j)) args = Ok net)
      /\ (forall j, j + 1 < k ->
            exists sp, nth_error added (2 * j + 1) = Some (LSplit sp)).
Proof.
  intros E args bs c h w k.
  induction k as [| k IH];
    intros i layers layers' shape shape' l Hik Hlast Hshape Hlev.
  - cbn [seq Codec.levels] in Hlev. inversion Hlev; subst.
    exists []. rewrite app_nil_r.
    split; [reflexivity | split; [reflexivity | split]]; intros j Hj; lia.
  - cbn [seq Codec.levels] in Hlev.
    rewrite Hlast in Hlev. cbn [of_option Py.bind] in Hlev.
    rewrite Hshape in Hlev. cbn [Py.bind] in Hlev.
    destruct (RevNet.init E (level_shape bs c h w i) args) as [net |] eqn:Hnet;
      [| discriminate].
    cbn [Py.bind] in Hlev.
    destruct k as [| k'].
    + (* the last level: no split *)
      replace (i <? n_levels args - 1) with false in Hlev
        by (symmetry; apply Nat.ltb_ge; lia).
      cbn [Py.bind seq Codec.levels] in Hlev. inversion Hlev; subst.
      exists [net]. split; [reflexivity | split; [reflexivity | split]].
      * intros j Hj. assert (j = 0) by lia. subst j.
        exists net. rewrite Nat.add_0_r. split; [reflexivity | exact Hnet].
      * intros j Hj. lia.
    + replace (i <? n_levels args - 1) with true in Hlev
        by (symmetry; apply Nat.ltb_lt; lia).
      destruct (Split_init_ok E bs (c * 4 * 2 ^ i) (h / 2 ^ (i + 1))
                  (w / 2 ^ (i + 1))) as (split & Hsplit & Hout).
      change (Split.init E (level_shape bs c h w i) = Ok split) in Hsplit.
      rewrite Hsplit in Hlev. cbn [Py.bind] in Hlev.
      rewrite level_shape_next in Hout.
      apply (IH (S i) _ _ _ _ (LSplit split)) in Hlev.
      * destruct Hlev as (added & -> & Hlen & Hnets & Hsplits).
        exists (net :: LSplit split :: added).
        split; [rewrite <- !app_assoc; reflexivity |].
        split; [cbn [length]; lia |]. split.
        -- intros [| j] Hj.
           ++ exists net. rewrite Nat.add_0_r.
              split; [reflexivity | exact Hnet].
           ++ destruct (Hnets j) as (net' & Hnth & Hinit); [lia |].
              exists net'. split.
              ** replace (2 * S j) with (S (S (2 * j))) by lia. exact Hnth.
              ** replace (i + S j) with (S i + j) by lia. exact Hinit.
        -- intros [| j] Hj.
           ++ exists split. reflexivity.
           ++ destruct (Hsplits j) as (sp & Hnth); [lia |].
              exists sp.
              replace (2 * S j + 1) with (S (S (2 * j + 1))) by lia.
              exact Hnth.
      * lia.
      * rewrite !length_app. cbn [length].
        replace (length layers + 1 + 1 - 1) with (length (layers ++ [net]))
          by (rewrite length_app; cbn [length]; lia).
        rewrite nth_error_app2 by lia.
        rewrite Nat.sub_diag. reflexivity.
      * exact Hout.
Qed.

(** X19. The layers of a [Codec] with [n = args.n_levels >= 1] levels
    on arrays of size [(bs, c, h, w)]: a [Squeeze] of factor two, then for
    every level [i] a [RevNet] built for the shape
    [(bs, 4 c 2^i, h / 2^(i+1), w / 2^(i+1))], followed by a [Split] after
    every level but the last, and the [GaussianPrior] at the end, [2 n + 1]
    layers in all. *)
Theorem Codec_layout :
  forall (E : Collaborators) (bs c h w : nat) (args : Args) (codec : layer),
    0 < n_levels args ->
    Codec.init E [bs; c; h; w] args = Ok codec ->
    exists layers,
      codec = LLayerList layers
      /\ length layers = 2 * n_levels args + 1
      /\ nth_error layers 0 = Some (LSqueeze (Squeeze.make 2 [bs; c; h; w]))
      /\ (forall i, i < n_levels args ->
            exists net,
              nth_error layers (2 * i + 1) = Some net
              /\ RevNet.init E (level_shape bs c h w i) args = Ok net)
      /\ (forall i, i + 1 < n_levels args ->
            exists sp, nth_error layers (2 * i + 2) = Some (LSplit sp))
      /\ exists prior,
           nth_error layers (2 * n_levels args) = Some (LGaussianPrior prior).
Proof.
  intros E bs c h w args codec Hn Hi. unfold Codec.init in Hi.
  cbn [PyClass.super_init PyClass.mro PyClass.after PyClass.cls_eqb
       PyClass.init_noargs Py.bind Squeeze.init Nat.ltb Nat.leb assert]
    in Hi.
  destruct (Codec.levels E args (seq 0 (n_levels args))
              [LSqueeze (Squeeze.make 2 [bs; c; h; w])] [bs; c; h; w])
    as [[layers shape'] |] eqn:Hlev; [| discriminate].
  cbn [Py.bind] in Hi.
  destruct (GaussianPrior.init E shape' (learntop args)) as [prior |];
    [| discriminate].
  cbn [Py.bind] in Hi. inversion Hi; subst codec. clear Hi.
  apply (levels_layout E args bs c h w _ 0 _ _ _ _
           (LSqueeze (Squeeze.make 2 [bs; c; h; w]))) in Hlev.
  - destruct Hlev as (added & -> & Hlen & Hnets & Hsplits).
    eexists. split; [reflexivity |].
    split; [rewrite !length_app; cbn [length]; lia |].
    split; [reflexivity |]. split; [| split].
    + intros i Hi. destruct (Hnets i Hi) as (net & Hnth & Hinit).
      exists net. split; [| exact Hinit].
      replace (2 * i + 1) with (S (2 * i)) by lia.
      cbn [app nth_error]. rewrite nth_error_app1 by lia. exact Hnth.
    + intros i Hi. destruct (Hsplits i Hi) as (sp & Hnth).
      exists sp. replace (2 * i + 2) with (S (2 * i + 1)) by lia.
      cbn [app nth_error]. rewrite nth_error_app1 by lia. exact Hnth.
    + exists prior.
      replace (2 * n_levels args) with (S (2 * n_levels args - 1)) by lia.
      cbn [app nth_error]. rewrite nth_error_app2 by lia.
      replace (2 * n_levels args - 1 - length added) with 0 by lia.
      reflexivity.
  - reflexivity.
  - reflexivity.
  - cbn [Codec.output_shape Squeeze.output_shape Squeeze.input_shape
         Squeeze.factor unpack4 Py.bind].
    unfold level_shape.
    change (2 ^ (0 + 1)) with 2. change (2 ^ 0) with 1.
    rewrite Nat.mul_1_r. replace (c * 4) with (c * 2 * 2) by lia.
    reflexivity.
Qed.

(** X19, at the [Codec] of the end-to-end scenario. *)
Lemma Codec_layout_witness :
  exists layers,
    Codec.init example_collaborators [1; 4; 8; 8] example_args
    = Ok (LLayerList layers)
    /\ length layers = 5.
Proof.
  destruct (Codec.init example_collaborators [1; 4; 8; 8] example_args)
    as [codec |] eqn:Hi.
  - destruct (Codec_layout example_collaborators 1 4 8 8 example_args codec
                (le_S _ _ (le_n 1)) Hi) as (layers & -> & Hlen & _).
    exists layers. split; [reflexivity | exact Hlen].
  - vm_compute in Hi. discriminate.
Defined.


(* ------------------------------------------------------------------ *)
(** * Un-squeezing never returns on arrays wider than one column *)

Lemma is_contiguous_from_sound : forall rdims expected,
  Strided.is_contiguous_from rdims expected = true ->
  forall m, roffset rdims m = (m mod rnumel rdims) * expected.
Proof.
  induction rdims as [| [sz st] rest IH]; intros expected Hc m.
  - cbn [roffset rnumel fold_right]. rewrite Nat.mod_1_r. reflexivity.
  - cbn [Strided.is_contiguous_from] in Hc.
    cbn [roffset rnumel fold_right fst]. fold (rnumel rest).
    destruct (Nat.eqb_spec sz 1) as [-> | Hne].
    + rewrite (IH _ Hc). rewrite Nat.mod_1_r, Nat.div_1_r, Nat.mul_1_l. lia.
    + apply andb_true_iff in Hc. destruct Hc as [Hst Hrest].
      apply Nat.eqb_eq in Hst. subst st.
      rewrite (IH _ Hrest). rewrite Nat.Div0.mod_mul_r. lia.
Qed.

Lemma infer_size_raises : forall n spec e,
  Strided.infer_size n spec = Raise e -> e = RuntimeError.
Proof.
  intros n spec e Hi. unfold Strided.infer_size in Hi.
  destruct (length (filter _ spec)) as [| [| u]].
  - destruct (_ =? n); congruence.
  - destruct (_ || _); congruence.
  - congruence.
Qed.

Lemma infer_size_lead_6_inv : forall n a b c d e sz,
  Strided.infer_size n [None; Some a; Some b; Some c; Some d; Some e] = Ok sz ->
  a * (b * (c * (d * (e * 1)))) <> 0
  /\ sz = [n / (a * (b * (c * (d * (e * 1))))); a; b; c; d; e].
Proof.
  intros n a b c d e sz Hi. unfold Strided.infer_size in Hi.
  cbn [fold_right filter length List.map] in Hi.
  destruct (Nat.eqb_spec (a * (b * (c * (d * (e * 1))))) 0) as [| Hnz];
    [discriminate |].
  destruct (negb _); [discriminate |].
  cbn [orb] in Hi. inversion Hi. split; [exact Hnz | reflexivity].
Qed.

Lemma infer_size_lead_4_inv : forall n a b c sz,
  Strided.infer_size n [None; Some a; Some b; Some c] = Ok sz ->
  a * (b * (c * 1)) <> 0
  /\ sz = [n / (a * (b * (c * 1))); a; b; c].
Proof.
  intros n a b c sz Hi. unfold Strided.infer_size in Hi.
  cbn [fold_right filter length List.map] in Hi.
  destruct (Nat.eqb_spec (a * (b * (c * 1))) 0) as [| Hnz];
    [discriminate |].
  destruct (negb _); [discriminate |].
  cbn [orb] in Hi. inversion Hi. split; [exact Hnz | reflexivity].
Qed.

Section Unsqueeze.
Context {A : Type} {default_A : Default A}.

(** In a contiguous view the [m]-th element sits at offset [m]. *)
Lemma contiguous_offset : forall (v : Strided.view A) m,
  length (Strided.strides v) = length (Strided.sizes v) ->
  m < numel (Strided.sizes v) ->
  Strided.offset (Strided.strides (Strided.contiguous v))
                 (unravel (Strided.sizes v) m)
  = m.
Proof.
  intros v m Hlen Hm. unfold Strided.contiguous.
  destruct (Strided.is_contiguous v) eqn:Hc.
  - unfold Strided.is_contiguous in Hc.
    destruct (Nat.eqb_spec (numel (Strided.sizes v)) 0) as [Hz |];
      [lia |].
    cbn [orb] in Hc.
    rewrite offset_unravel by assumption.
    rewrite (is_contiguous_from_sound _ _ Hc).
    rewrite rnumel_rev, rnumel_combine by exact Hlen.
    rewrite Nat.mod_small by exact Hm. lia.
  - cbn [Strided.of_tensor Strided.strides Strided.to_tensor size tabulate].
    rewrite offset_contiguous by (apply unravel_in_range; exact Hm).
    apply ravel_unravel. exact Hm.
Qed.

Lemma view_as_inv : forall (v v' : Strided.view A) spec,
  Strided.view_as v spec = Ok v' ->
  exists sz st,
    Strided.infer_size (numel (Strided.sizes v)) spec = Ok sz
    /\ Strided.compute_stride (Strided.sizes v) (Strided.strides v) sz
       = Some st
    /\ v' = Strided.mkv sz st (Strided.storage v).
Proof.
  intros v v' spec Hv. unfold Strided.view_as in Hv.
  destruct (Strided.infer_size _ spec) as [sz |] eqn:Hi; [| discriminate].
  cbn [Py.bind] in Hv.
  destruct (Strided.compute_stride _ _ sz) as [st |] eqn:Hc;
    [| discriminate].
  cbn [of_option Py.bind] in Hv. inversion Hv.
  exists sz, st. split; [reflexivity | split; [exact Hc | reflexivity]].
Qed.

Lemma view_as_raises : forall (v : Strided.view A) spec e,
  Strided.view_as v spec = Raise e -> e = RuntimeError.
Proof.
  intros v spec e Hv. unfold Strided.view_as in Hv.
  destruct (Strided.infer_size _ spec) as [sz |] eqn:Hi.
  - cbn [Py.bind] in Hv.
    destruct (Strided.compute_stride _ _ sz); cbn [of_option Py.bind] in Hv;
      congruence.
  - cbn [Py.bind] in Hv. inversion Hv; subst.
    apply (infer_size_raises _ _ _ Hi).
Qed.

Lemma unsqueeze_bchw_raises :
  forall (self : Squeeze.t) (x : tensor A) (B C H W : nat),
    let f := Squeeze.factor self in
    size x = [B; C; H; W] ->
    2 <= f -> 0 < B -> 0 < H -> 1 < W ->
    4 <= C -> C mod 4 = 0 ->
    Squeeze.unsqueeze_bchw self x = Raise RuntimeError.
Proof.
  intros self x B C H W f Hx Hf HB HH HW HC HCm.
  unfold Squeeze.unsqueeze_bchw. fold f. rewrite Hx.
  cbn [unpack4 Py.bind].
  replace (4 <=? C) with true by (symmetry; apply Nat.leb_le; exact HC).
  rewrite HCm. cbn [Nat.eqb andb assert Py.bind].
  destruct (transpose_3_1 (Strided.of_tensor x) B C H W)
    as (v1 & -> & Hs1 & Hl1 & _).
  { exact Hx. }
  { cbn [Strided.of_tensor Strided.strides].
    rewrite length_contiguous_strides, Hx. reflexivity. }
  cbn [Py.bind].
  assert (Hlen1 : length (Strided.strides v1) = length (Strided.sizes v1))
    by (rewrite Hs1; exact Hl1).
  pose proof (contiguous_offset v1) as Hpos.
  pose proof (sizes_contiguous v1) as Hs1c.
  pose proof (strides_contiguous v1 Hlen1) as Hl1c.
  set (v1c := Strided.contiguous v1) in *.
  set (K := C / f ^ 2).
  set (n := numel (Strided.sizes v1)) in *.
  assert (Hn : n = B * (W * (H * (C * 1))))
    by (unfold n; rewrite Hs1; reflexivity).
  (* the first view *)
  destruct (Strided.view_as v1c _) as [v2 | e] eqn:Hv2.
  2: { apply view_as_raises in Hv2. subst e. reflexivity. }
  cbn [Py.bind].
  apply view_as_inv in Hv2. destruct Hv2 as (sz2 & st2 & Hi2 & Hc2 & ->).
  rewrite Hs1c in Hi2, Hc2. fold n in Hi2.
  pose proof (infer_size_numel _ _ _ Hi2) as Hnum2.
  apply infer_size_lead_6_inv in Hi2. destruct Hi2 as [Hk2 Hsz2].
  set (B2 := n / (H * (W * (K * (f * (f * 1)))))) in *.
  assert (HK : 0 < K) by (destruct K; [lia | lia]).
  destruct (compute_stride_sound _ _ _ _ Hl1c (eq_sym Hnum2) Hc2)
    as [Hlst2 Hoff2].
  rewrite Hsz2 in Hlst2. cbn [length] in Hlst2.
  destruct st2 as [| u0 [| u1 [| u2 [| u3 [| u4 [| u5 [| u6 st2]]]]]]];
    try discriminate.
  rewrite Hsz2.
  (* the permutation *)
  change (Strided.permute
            (Strided.mkv [B2; H; W; K; f; f] [u0; u1; u2; u3; u4; u5]
                         (Strided.storage v1c))
            [0; 1; 4; 2; 5; 3])
    with (@Ok (Strided.view A)
            (Strided.mkv [B2; H; f; W; f; K] [u0; u1; u4; u2; u5; u3]
                         (Strided.storage v1c))).
  cbn [Py.bind].
  (* the second view *)
  destruct (Strided.view_as _ _) as [v4 | e] eqn:Hv4.
  2: { apply view_as_raises in Hv4. subst e. reflexivity. }
  exfalso.
  apply view_as_inv in Hv4. destruct Hv4 as (sz4 & st4 & Hi4 & Hc4 & _).
  cbn [Strided.sizes Strided.strides] in Hi4, Hc4.
  pose proof (infer_size_numel _ _ _ Hi4) as Hnum4.
  apply infer_size_lead_4_inv in Hi4. destruct Hi4 as [Hk4 Hsz4].
  set (n3 := numel [B2; H; f; W; f; K]) in *.
  set (B4 := n3 / (H * W * (W * f * (K * 1)))) in *.
  destruct (compute_stride_sound [B2; H; f; W; f; K]
              [u0; u1; u4; u2; u5; u3] sz4 st4 eq_refl (eq_sym Hnum4) Hc4)
    as [Hlst4 Hoff4].
  rewrite Hsz4 in Hlst4. cbn [length] in Hlst4.
  destruct st4 as [| t0 [| t1 [| t2 [| t3 [| t4 st4]]]]]; try discriminate.
  assert (HB2 : 0 < B2).
  { destruct B2; [| lia]. rewrite Hsz2 in Hnum2.
    cbn [numel fold_right] in Hnum2. nia. }
  assert (Hn3 : n3 = B2 * (H * (f * (W * (f * (K * 1))))))
    by reflexivity.
  assert (HB4 : 0 < B4).
  { destruct B4; [| lia]. rewrite Hsz4 in Hnum4.
    cbn [numel fold_right] in Hnum4. nia. }
  (* strides of the first view *)
  assert (Hn2 : n = B2 * (H * (W * (K * (f * (f * 1)))))).
  { rewrite <- Hnum2, Hsz2. reflexivity. }
  assert (Hbig : K * f * f * 2 <= n /\ 4 <= K * f * f).
  { rewrite Hn2.
    assert (Hp0 : K * (f * (f * 1)) = K * f * f) by ring.
    assert (Hp1 : 4 <= K * f * f) by nia.
    assert (Hp2 : K * f * f * 2 <= W * (K * (f * (f * 1)))) by nia.
    assert (Hp3 : W * (K * (f * (f * 1)))
                  <= H * (W * (K * (f * (f * 1))))) by nia.
    assert (Hp4 : H * (W * (K * (f * (f * 1))))
                  <= B2 * (H * (W * (K * (f * (f * 1)))))) by nia.
    lia. }
  destruct Hbig as [Hbig Hbig4].
  assert (Hoff2' : forall m, m < n ->
            Strided.offset [u0; u1; u2; u3; u4; u5]
                           (unravel [B2; H; W; K; f; f] m) = m).
  { intros m Hm. rewrite <- Hsz2.
    rewrite Hoff2 by (rewrite Hnum2; exact Hm).
    apply Hpos; assumption. }
  assert (Hu5 : u5 = 1).
  { pose proof (Hoff2' (ravel [B2; H; W; K; f; f] [0; 0; 0; 0; 0; 1]))
      as Hq.
    rewrite unravel_ravel in Hq by (apply in_range6; lia).
    cbn [Strided.offset ravel numel fold_right] in Hq.
    rewrite !Nat.mul_0_l, !Nat.add_0_l, !Nat.add_0_r, !Nat.mul_1_l in Hq.
    apply Hq. lia. }
  assert (Hu2 : u2 = K * f * f).
  { pose proof (Hoff2' (ravel [B2; H; W; K; f; f] [0; 0; 1; 0; 0; 0]))
      as Hq.
    rewrite unravel_ravel in Hq by (apply in_range6; lia).
    cbn [Strided.offset ravel numel fold_right] in Hq.
    rewrite !Nat.mul_0_l, !Nat.add_0_l, !Nat.add_0_r, !Nat.mul_1_l,
      !Nat.mul_1_r in Hq.
    rewrite Hq by lia. ring. }
  (* strides of the second view *)
  assert (Hn4 : n3 = B4 * (H * W * (W * f * (K * 1)))).
  { rewrite <- Hnum4, Hsz4. reflexivity. }
  assert (Hn34 : n3 = n) by (rewrite Hn3, Hn2; ring).
  assert (Hbig' : K * f * 2 <= n) by nia.
  assert (Ht2 : t2 = u5).
  { pose proof (Hoff4 (ravel [B4; H * W; W * f; K] [0; 0; 1; 0])) as Hq.
    rewrite Hsz4 in Hq.
    rewrite unravel_ravel in Hq by (apply in_range4; nia).
    cbn [ravel numel fold_right] in Hq.
    replace (0 * (H * W * (W * f * (K * 1))) + (0 * (W * f * (K * 1))
             + (1 * (K * 1) + (0 * 1 + 0))))
      with (ravel [B2; H; f; W; f; K] [0; 0; 0; 0; 1; 0]) in Hq
      by (cbn [ravel numel fold_right]; lia).
    rewrite unravel_ravel in Hq by (apply in_range6; lia).
    cbn [Strided.offset ravel numel fold_right] in Hq.
    rewrite !Nat.mul_0_l, !Nat.add_0_l, !Nat.add_0_r, !Nat.mul_1_l,
      !Nat.mul_1_r in Hq.
    apply Hq. nia. }
  assert (Ht2' : f * t2 = u2).
  { pose proof (Hoff4 (ravel [B4; H * W; W * f; K] [0; 0; f; 0])) as Hq.
    rewrite Hsz4 in Hq.
    rewrite unravel_ravel in Hq by (apply in_range4; nia).
    cbn [ravel numel fold_right] in Hq.
    replace (0 * (H * W * (W * f * (K * 1))) + (0 * (W * f * (K * 1))
             + (f * (K * 1) + (0 * 1 + 0))))
      with (ravel [B2; H; f; W; f; K] [0; 0; 0; 1; 0; 0]) in Hq
      by (cbn [ravel numel fold_right]; lia).
    rewrite unravel_ravel in Hq by (apply in_range6; lia).
    cbn [Strided.offset ravel numel fold_right] in Hq.
    rewrite !Nat.mul_0_l, !Nat.add_0_l, !Nat.add_0_r, !Nat.mul_1_l,
      !Nat.mul_1_r in Hq.
    apply Hq. nia. }
  nia.
Qed.

End Unsqueeze.

(** X22. [Squeeze] cannot be undone on arrays with more than one
    column.  For every array of size [(B, C, H, W)] with [W > 1] (and a
    factor of at least two), [reverse_and_jacobian] raises:
    [AssertionError] when the number of channels is not a positive
    multiple of four, and otherwise [RuntimeError], because no [view] of
    size [(-1, h * w, w * factor, c / factor ** 2)] exists for the layout
    that [permute] leaves (or already the first [view] is refused).  In
    particular, un-squeezing the result of a squeeze never returns. *)
Theorem Squeeze_reverse_never_returns :
  forall (self : Squeeze.t) (x : tensor R) (objective : objective_t)
         (B C H W : nat),
    size x = [B; C; H; W] ->
    2 <= Squeeze.factor self -> 0 < B -> 0 < H -> 1 < W ->
    Squeeze.reverse_and_jacobian self x objective
    = Raise (if (4 <=? C) && (C mod 4 =? 0) then RuntimeError
             else AssertionError).
Proof.
  intros self x o B C H W Hx Hf HB HH HW.
  unfold Squeeze.reverse_and_jacobian. rewrite Hx.
  cbn [length Nat.eqb raise_unless Py.bind].
  destruct ((4 <=? C) && (C mod 4 =? 0)) eqn:Hassert.
  - apply andb_true_iff in Hassert. destruct Hassert as [HC HCm].
    apply Nat.leb_le in HC. apply Nat.eqb_eq in HCm.
    rewrite (unsqueeze_bchw_raises self x B C H W Hx Hf HB HH HW HC HCm).
    reflexivity.
  - unfold Squeeze.unsqueeze_bchw. rewrite Hx. cbn [unpack4 Py.bind].
    rewrite Hassert. reflexivity.
Qed.

(** X22, at an array of size [(1, 4, 1, 2)] and factor 2. *)
Lemma Squeeze_reverse_never_returns_witness :
  Squeeze.reverse_and_jacobian (Squeeze.make 2 [1; 1; 2; 4])
    (full [1; 4; 1; 2] 0%R) (scalar 0%R)
  = Raise RuntimeError.
Proof.
  exact (Squeeze_reverse_never_returns (Squeeze.make 2 [1; 1; 2; 4])
           (full [1; 4; 1; 2] 0%R) (scalar 0%R) 1 4 1 2 eq_refl
           (le_n 2) (le_n 1) (le_n 1) (le_n 2)).
Defined.

(* ------------------------------------------------------------------ *)
(** * The determinant and the inverse of a matrix

    The matrix that the model of [torch.inverse] returns, the transposed
    cofactors over the determinant, is a left inverse: the determinant
    changes its sign when two neighbouring columns are exchanged, is zero
    when two columns are equal, and can be expanded along any column. *)

Ltac index_cases :=
  unfold minor, skip_index, swap_at;
  repeat match goal with
         | |- context [?a <? ?b] => destruct (Nat.ltb_spec a b)
         | |- context [?a =? ?b] => destruct (Nat.eqb_spec a b)
         end;
  try lia; try reflexivity; try (f_equal; lia).

Lemma nth_drop_nth : forall {B} j (l : list B) c d,
  nth c (drop_nth j l) d = nth (skip_index j c) l d.
Proof.
  intros B j. induction j as [| j IH]; intros l c d.
  - unfold drop_nth, skip_index. cbn [firstn app Nat.ltb Nat.leb].
    destruct l as [| x l]; [destruct c; reflexivity | reflexivity].
  - destruct l as [| x l].
    + unfold drop_nth. cbn [firstn skipn app].
      destruct c; destruct (skip_index (S j) _); reflexivity.
    + change (drop_nth (S j) (x :: l)) with (x :: drop_nth j l).
      destruct c as [| c].
      * reflexivity.
      * cbn [nth]. rewrite IH.
        replace (skip_index (S j) (S c)) with (S (skip_index j c))
          by index_cases.
        reflexivity.
Qed.

Lemma det_fun_ext : forall n f g,
  (forall r c, r < n -> c < n -> f r c = g r c) ->
  det_fun n f = det_fun n g.
Proof.
  induction n as [| n IH]; intros f g Hfg.
  - reflexivity.
  - cbn [det_fun]. apply sum_list_ext. intros j Hj. apply in_seq in Hj.
    rewrite (Hfg 0 j) by lia. f_equal. apply IH.
    intros r c Hr Hc. unfold minor. apply Hfg; index_cases.
Qed.

Lemma sum_list_seq_S : forall (F : nat -> R) n,
  sum_list (List.map F (seq 0 (S n)))
  = (F 0%nat + sum_list (List.map (fun j => F (S j)) (seq 0 n)))%R.
Proof.
  intros F n. cbn [seq List.map]. rewrite <- seq_shift, map_map.
  reflexivity.
Qed.

Lemma sum_list_opp : forall {T} (f : T -> R) l,
  sum_list (List.map (fun a => - f a)%R l) = (- sum_list (List.map f l))%R.
Proof.
  intros T f l.
  rewrite (sum_list_ext _ (fun a => (-1) * f a)%R) by (intros; lra).
  rewrite sum_list_scale. lra.
Qed.

Lemma sum_list_swap_at : forall (G : nat -> R) a n,
  S a < n ->
  sum_list (List.map (fun j => G (swap_at a j)) (seq 0 n))
  = sum_list (List.map G (seq 0 n)).
Proof.
  intros G a n Han.
  replace n with (a + (2 + (n - a - 2))) by lia.
  rewrite !seq_app, !map_app, !sum_list_app. cbn [seq List.map Nat.add].
  rewrite (sum_list_ext (fun j => G (swap_at a j)) G (seq 0 a)).
  2:{ intros j Hj. apply in_seq in Hj. index_cases. }
  rewrite (sum_list_ext (fun j => G (swap_at a j)) G (seq (a + 2) _)).
  2:{ intros j Hj. apply in_seq in Hj. index_cases. }
  replace (swap_at a a) with (S a) by index_cases.
  replace (swap_at a (S a)) with a by index_cases.
  unfold sum_list. cbn [fold_right]. lra.
Qed.

(** Exchanging two neighbouring columns changes the sign. *)
Lemma det_fun_swap : forall n f a,
  S a < n ->
  det_fun n (fun r c => f r (swap_at a c)) = (- det_fun n f)%R.
Proof.
  induction n as [| n IH]; intros f a Han; [lia |].
  cbn [det_fun]. rewrite <- sum_list_opp.
  rewrite <- (sum_list_swap_at
                (fun j => (- ((-1) ^ j * f 0%nat j
                              * det_fun n (minor f 0 j)))%R) a (S n) Han).
  apply sum_list_ext. intros j Hj. apply in_seq in Hj.
  destruct (Nat.eq_dec j a) as [-> | Hja];
    [| destruct (Nat.eq_dec j (S a)) as [-> | HjSa]].
  - replace (swap_at a a) with (S a) by index_cases.
    rewrite (det_fun_ext n _ (minor f 0 (S a))).
    2:{ intros r c Hr Hc. index_cases. }
    cbn [pow]. lra.
  - replace (swap_at a (S a)) with a by index_cases.
    rewrite (det_fun_ext n _ (minor f 0 a)).
    2:{ intros r c Hr Hc. index_cases. }
    cbn [pow]. lra.
  - replace (swap_at a j) with j by index_cases.
    destruct (Nat.lt_ge_cases j a) as [Hlt | Hge].
    + rewrite (det_fun_ext n _
                 (fun r c => minor f 0 j r (swap_at (a - 1) c))).
      2:{ intros r c Hr Hc. index_cases. }
      rewrite IH by lia. lra.
    + rewrite (det_fun_ext n _ (fun r c => minor f 0 j r (swap_at a c))).
      2:{ intros r c Hr Hc. index_cases. }
      rewrite IH by lia. lra.
Qed.

(** A matrix with two equal columns has determinant zero. *)
Lemma det_fun_equal_columns : forall d n f a,
  a + S d < n ->
  (forall r, r < n -> f r a = f r (a + S d)) ->
  det_fun n f = 0%R.
Proof.
  induction d as [| d IH]; intros n f a Hn Heq.
  - assert (Hs : det_fun n (fun r c => f r (swap_at a c)) = det_fun n f).
    { apply det_fun_ext. intros r c Hr Hc.
      unfold swap_at.
      destruct (Nat.eqb_spec c a) as [-> | ?].
      - rewrite Heq by lia. f_equal. lia.
      - destruct (Nat.eqb_spec c (S a)) as [-> | ?]; [| reflexivity].
        rewrite Heq by lia. f_equal. lia. }
    rewrite det_fun_swap in Hs by lia. lra.
  - assert (Hz : det_fun n (fun r c => f r (swap_at a c)) = 0%R).
    { apply (IH n _ (S a)); [lia |].
      intros r Hr.
      replace (swap_at a (S a)) with a by index_cases.
      replace (swap_at a (S a + S d)) with (a + S (S d)) by index_cases.
      apply Heq. exact Hr. }
    rewrite det_fun_swap in Hz by lia. lra.
Qed.

(** The expansion along the first column. *)
Lemma det_fun_first_column : forall n f,
  det_fun (S n) f
  = sum_list (List.map (fun k => ((-1) ^ k * f k 0%nat
                                   * det_fun n (minor f k 0%nat))%R)
                       (seq 0 (S n))).
Proof.
  induction n as [| n IH]; intros f.
  - reflexivity.
  - change (det_fun (S (S n)) f)
      with (sum_list
              (List.map (fun j => ((-1) ^ j * f 0%nat j
                                   * det_fun (S n) (minor f 0 j))%R)
                        (seq 0 (S (S n))))).
    rewrite (sum_list_seq_S _ (S n)).
    rewrite (sum_list_seq_S
               (fun k => ((-1) ^ k * f k 0%nat * det_fun (S n) (minor f k 0%nat))%R)
               (S n)).
    f_equal.
    rewrite (sum_list_ext _
      (fun j => sum_list (List.map
         (fun k => ((-1) ^ (S j) * f 0%nat (S j)
                    * ((-1) ^ k * f (S k) 0%nat
                       * det_fun n (minor (minor f 0 (S j)) k 0)))%R)
         (seq 0 (S n))))).
    2:{ intros j _. rewrite IH. rewrite <- sum_list_scale.
        apply sum_list_ext. intros k _. reflexivity. }
    rewrite sum_list_swap.
    apply sum_list_ext. intros k Hk.
    change (det_fun (S n) (minor f (S k) 0%nat))
      with (sum_list
              (List.map (fun j => ((-1) ^ j * minor f (S k) 0%nat 0 j
                                   * det_fun n (minor (minor f (S k) 0%nat) 0 j))%R)
                        (seq 0 (S n)))).
    rewrite <- sum_list_scale.
    apply sum_list_ext. intros j Hj.
    rewrite (det_fun_ext n (minor (minor f 0 (S j)) k 0)
               (minor (minor f (S k) 0%nat) 0 j)).
    2:{ intros r c Hr Hc. index_cases. }
    change (minor f (S k) 0%nat 0 j) with (f 0%nat (S j)).
    cbn [pow]. ring.
Qed.

(** The expansion along any column. *)
Lemma det_fun_column : forall c n f,
  c < S n ->
  det_fun (S n) f
  = sum_list (List.map (fun k => ((-1) ^ (c + k) * f k c
                                   * det_fun n (minor f k c))%R)
                       (seq 0 (S n))).
Proof.
  induction c as [| c IH]; intros n f Hc.
  - apply det_fun_first_column.
  - pose proof (det_fun_swap (S n) f c ltac:(lia)) as Hs.
    rewrite (IH n _ ltac:(lia)) in Hs.
    replace (det_fun (S n) f) with (- - det_fun (S n) f)%R by lra.
    rewrite <- Hs. rewrite <- sum_list_opp.
    apply sum_list_ext. intros k Hk.
    replace (swap_at c c) with (S c) by index_cases.
    rewrite (det_fun_ext n _ (minor f k (S c))).
    2:{ intros r c' Hr Hc'. index_cases. }
    cbn [Nat.add pow]. lra.
Qed.

(** The cofactors of column [c] against the entries of column [ci]. *)
Lemma det_fun_cofactors : forall n f c ci,
  c < S n -> ci < S n ->
  sum_list (List.map (fun k => ((-1) ^ (c + k) * det_fun n (minor f k c)
                                * f k ci)%R)
                     (seq 0 (S n)))
  = if c =? ci then det_fun (S n) f else 0%R.
Proof.
  intros n f c ci Hc Hci.
  destruct (Nat.eqb_spec c ci) as [<- | Hne].
  - rewrite (det_fun_column c n f Hc).
    apply sum_list_ext. intros k _. ring.
  - set (g := fun r c' => if c' =? c then f r ci else f r c').
    assert (Hg : det_fun (S n) g = 0%R).
    { destruct (Nat.lt_ge_cases c ci) as [Hlt | Hge].
      - apply (det_fun_equal_columns (ci - c - 1) (S n) g c); [lia |].
        intros r _. unfold g. rewrite Nat.eqb_refl.
        replace (c + S (ci - c - 1)) with ci by lia.
        destruct (Nat.eqb_spec ci c); [lia | reflexivity].
      - apply (det_fun_equal_columns (c - ci - 1) (S n) g ci); [lia |].
        intros r _. unfold g.
        replace (ci + S (c - ci - 1)) with c by lia.
        rewrite Nat.eqb_refl.
        destruct (Nat.eqb_spec ci c); [lia | reflexivity]. }
    rewrite <- Hg. rewrite (det_fun_column c n g Hc).
    apply sum_list_ext. intros k _.
    rewrite (det_fun_ext n (minor g k c) (minor f k c)).
    2:{ intros r c' Hr Hc'. unfold minor, g.
        destruct (Nat.eqb_spec (skip_index c c') c) as [He | ?];
          [| reflexivity].
        revert He. index_cases. }
    unfold g. rewrite Nat.eqb_refl. ring.
Qed.

Lemma nth_map_drop_nth : forall j (m : list (list R)) r,
  nth r (List.map (drop_nth j) m) [] = drop_nth j (nth r m []).
Proof.
  intros j m r. rewrite <- (map_nth (drop_nth j)). f_equal.
  unfold drop_nth. rewrite firstn_nil, skipn_nil. reflexivity.
Qed.

Lemma det_rows_fun : forall n m, det_rows n m = det_fun n (entry m).
Proof.
  induction n as [| n IH]; intros m.
  - reflexivity.
  - destruct m as [| row rest].
    + cbn [det_rows det_fun]. symmetry.
      rewrite (sum_list_ext _ (fun _ => 0%R)).
      * apply sum_list_zero.
      * intros j _. unfold entry. cbn [nth]. destruct j; ring.
    + cbn [det_rows det_fun]. apply sum_list_ext. intros j _.
      rewrite IH. f_equal.
      apply det_fun_ext. intros r c _ _.
      unfold entry, minor.
      change (skip_index 0 r) with (S r). cbn [nth].
      rewrite nth_map_drop_nth, nth_drop_nth. reflexivity.
Qed.

Lemma det_rows_minor : forall n m i j,
  det_rows n (List.map (drop_nth i) (drop_nth j m))
  = det_fun n (minor (entry m) j i).
Proof.
  intros n m i j. rewrite det_rows_fun.
  apply det_fun_ext. intros r c _ _.
  unfold entry, minor.
  rewrite nth_map_drop_nth, !nth_drop_nth. reflexivity.
Qed.

Lemma entry_rows : forall (M : tensor R) n r c,
  r < n -> c < n -> entry (rows M n n) r c = get M [r; c].
Proof.
  intros M n r c Hr Hc. unfold entry, rows.
  rewrite nth_indep with (d' := List.map (fun j => get M [0; j]) (seq 0 n))
    by (rewrite length_map, length_seq; exact Hr).
  rewrite (map_nth (fun i => List.map (fun j => get M [i; j]) (seq 0 n))
             (seq 0 n) 0).
  rewrite seq_nth by exact Hr. cbn [Nat.add].
  rewrite nth_indep with (d' := get M [r; 0])
    by (rewrite length_map, length_seq; exact Hc).
  rewrite (map_nth (fun j => get M [r; j]) (seq 0 n) 0).
  rewrite seq_nth by exact Hc. reflexivity.
Qed.

(** The matrix that the model of [torch.inverse] returns is a left
    inverse. *)
Lemma inverse_left_inverse : forall (M Minv : tensor R) C,
  size M = [C; C] -> inverse M = Ok Minv -> left_inverse Minv M C.
Proof.
  intros M Minv C Hs Hinv. unfold inverse in Hinv.
  rewrite Hs, Nat.eqb_refl in Hinv. cbv zeta in Hinv.
  destruct (Req_EM_T (det_rows C (rows M C C)) 0) as [| Hd];
    [discriminate |].
  injection Hinv as <-.
  intros c ci Hc Hci.
  destruct C as [| n]; [lia |].
  rewrite (sum_list_ext _
    (fun co => (/ det_rows (S n) (rows M (S n) (S n))
                * ((-1) ^ (c + co)
                   * det_fun n (minor (entry (rows M (S n) (S n))) co c)
                   * entry (rows M (S n) (S n)) co ci))%R)).
  2:{ intros co Hco. apply in_seq in Hco.
      rewrite get_tabulate
        by (constructor; [lia | constructor; [lia | constructor]]).
      cbn [nth]. rewrite entry_rows by lia.
      replace (S n - 1) with n by lia.
      rewrite det_rows_minor. unfold Rdiv. ring. }
  rewrite sum_list_scale, det_fun_cofactors by lia.
  rewrite det_rows_fun in *.
  destruct (c =? ci); field; exact Hd.
Qed.

(* ------------------------------------------------------------------ *)
(** * The objective, entry by entry *)

Lemma iadd_entries : forall (o : objective_t) (q : R),
  wf o ->
  size (iadd o q) = size o
  /\ forall idx, in_range (size o) idx ->
                 get (iadd o q) idx = (get o idx + q)%R.
Proof.
  intros o q Hwf. split; [reflexivity |].
  intros idx Hr. unfold iadd. rewrite get_pointwise by assumption.
  reflexivity.
Qed.

Lemma isub_entries : forall (o : objective_t) (q : R),
  wf o ->
  size (isub o q) = size o
  /\ forall idx, in_range (size o) idx ->
                 get (isub o q) idx = (get o idx - q)%R.
Proof.
  intros o q Hwf. split; [reflexivity |].
  intros idx Hr. unfold isub. rewrite get_pointwise by assumption.
  reflexivity.
Qed.

(** [torch.inverse] returns for every matrix whose determinant is not
    zero. *)
Lemma inverse_defined : forall (M : tensor R) C,
  size M = [C; C] -> det_of M C <> 0%R -> exists Minv, inverse M = Ok Minv.
Proof.
  intros M C Hs Hd. unfold inverse. rewrite Hs, Nat.eqb_refl. cbv zeta.
  destruct (Req_EM_T (det_rows C (rows M C C)) 0) as [Hz |].
  - exfalso. apply Hd. exact Hz.
  - eexists. reflexivity.
Qed.

(** C3. For an [Invertible1x1Conv] with weight [W], seen as the matrix
    [M = W.squeeze()] of order [C >= 2] with a determinant other than
    zero, and every array [x] of size [(B, C, H, W)] with at least one row
    and column: [forward_and_jacobian] returns the 1x1 convolution of [x]
    with [W] (at every position the channels of [x] mixed by [M]) and an
    objective of the size of the one given, every entry of which is the
    entry given plus [log |det M| * H * W]; [reverse_and_jacobian] returns
    the 1x1 convolution with a matrix [Minv] such that [Minv * M] is the
    identity, and an objective every entry of which is the entry given
    minus the same quantity. *)
Theorem Invertible1x1Conv_spec :
  forall (self : Invertible1x1Conv.t) (x : tensor R) (objective : objective_t)
         (B C H W : nat),
    Invertible1x1Conv.attrs self = conv1x1_attrs ->
    size (Invertible1x1Conv.weight self) = [C; C; 1; 1] ->
    2 <= C ->
    size x = [B; C; H; W] ->
    0 < H -> 0 < W ->
    wf objective ->
    det_of (squeeze (Invertible1x1Conv.weight self)) C <> 0%R ->
    let M := squeeze (Invertible1x1Conv.weight self) in
    let q := (ln (Rabs (det_of M C)) * INR H * INR W)%R in
    (exists y o',
        Invertible1x1Conv.forward_and_jacobian self x objective = Ok (y, o')
        /\ size y = [B; C; H; W]
        /\ (forall b co i j, b < B -> co < C -> i < H -> j < W ->
              get y [b; co; i; j] = mix_channels M x C b co i j)
        /\ size o' = size objective
        /\ forall idx, in_range (size objective) idx ->
                       get o' idx = (get objective idx + q)%R)
    /\ (exists Minv y o',
          left_inverse Minv M C
          /\ Invertible1x1Conv.reverse_and_jacobian self x objective
             = Ok (y, o')
          /\ size y = [B; C; H; W]
          /\ (forall b co i j, b < B -> co < C -> i < H -> j < W ->
                get y [b; co; i; j] = mix_channels Minv x C b co i j)
          /\ size o' = size objective
          /\ forall idx, in_range (size objective) idx ->
                         get o' idx = (get objective idx - q)%R).
Proof.
  intros self x o B C H W Ha Hw HC Hx HH HW Hwf Hd M q.
  pose proof (size_squeeze_weight self C H W Hw HC HH HW) as HsM.
  split.
  - destruct (iadd_entries o q Hwf) as [Hso Hgo].
    eexists. eexists. split; [| split; [| split; [| split]]].
    + apply (Invertible1x1Conv_forward_eq self x B C H W Ha Hw HC Hx HH HW).
    + reflexivity.
    + intros b co i j Hb Hco Hi Hj.
      rewrite get_tabulate by solve_range. reflexivity.
    + exact Hso.
    + exact Hgo.
  - destruct (inverse_defined M C HsM Hd) as [Minv Hinv].
    destruct (isub_entries o q Hwf) as [Hso Hgo].
    exists Minv. eexists. eexists. split; [| split; [| split; [| split; [| split]]]].
    + apply (inverse_left_inverse M Minv C HsM Hinv).
    + apply (Invertible1x1Conv_reverse_eq self x B C H W Ha Hw HC Hx HH HW
               o Minv Hinv).
    + reflexivity.
    + intros b co i j Hb Hco Hi Hj.
      rewrite get_tabulate by solve_range. reflexivity.
    + exact Hso.
    + exact Hgo.
Qed.

Lemma example_scaling_det :
  det_of (squeeze (Invertible1x1Conv.weight example_scaling_conv)) 2 = 2%R.
Proof. vm_compute. lra. Qed.

(** C3, at the weight that doubles the first of two channels, on a batch
    of two arrays: forward doubles the first channel and adds [log 2] to
    the objective, reverse halves it and subtracts [log 2]. *)
Lemma Invertible1x1Conv_spec_witness :
  (exists y o',
      Invertible1x1Conv.forward_and_jacobian example_scaling_conv
        example_batch (scalar 0%R) = Ok (y, o')
      /\ get y [1; 0; 0; 0] = 4%R
      /\ get o' [] = ln 2)
  /\ (exists y o',
        Invertible1x1Conv.reverse_and_jacobian example_scaling_conv
          example_batch (scalar 0%R) = Ok (y, o')
        /\ get y [1; 0; 0; 0] = 1%R
        /\ get o' [] = (- ln 2)%R).
Proof.
  assert (Hd : det_of (squeeze (Invertible1x1Conv.weight
                                  example_scaling_conv)) 2 <> 0%R)
    by (rewrite example_scaling_det; lra).
  destruct (Invertible1x1Conv_spec example_scaling_conv example_batch
              (scalar 0%R) 2 2 1 1 eq_refl eq_refl (le_n 2) eq_refl
              (le_n 1) (le_n 1) eq_refl Hd)
    as [(y & o' & Hf & _ & Hy & _ & Ho)
        (Minv & y' & o'' & Hleft & Hr & _ & Hy' & _ & Ho')].
  rewrite example_scaling_det in Ho, Ho'.
  split.
  - exists y, o'. split; [exact Hf | split].
    + rewrite (Hy 1 0 0 0) by lia. vm_compute. lra.
    + rewrite (Ho []) by constructor.
      rewrite Rabs_right by lra. change (get (scalar 0) []) with 0%R.
      simpl INR. lra.
  - exists y', o''. split; [exact Hr | split].
    + rewrite (Hy' 1 0 0 0) by lia.
      pose proof (Hleft 0 0 ltac:(lia) ltac:(lia)) as H00.
      pose proof (Hleft 0 1 ltac:(lia) ltac:(lia)) as H01.
      unfold mix_channels. cbn [seq List.map] in *.
      unfold sum_list in *. cbn [fold_right Nat.eqb] in *.
      change (get (squeeze (Invertible1x1Conv.weight example_scaling_conv))
                  [0; 0]) with 2%R in *.
      change (get (squeeze (Invertible1x1Conv.weight example_scaling_conv))
                  [1; 0]) with 0%R in *.
      change (get (squeeze (Invertible1x1Conv.weight example_scaling_conv))
                  [0; 1]) with 0%R in *.
      change (get (squeeze (Invertible1x1Conv.weight example_scaling_conv))
                  [1; 1]) with 1%R in *.
      change (get example_batch [1; 0; 0; 0]) with 2%R.
      change (get example_batch [1; 1; 0; 0]) with 3%R.
      nra.
    + rewrite (Ho' []) by constructor.
      rewrite Rabs_right by lra. change (get (scalar 0) []) with 0%R.
      simpl INR. lra.
Defined.

(* ------------------------------------------------------------------ *)
(** * The sum of all entries, index by index *)

Lemma seq_add_map : forall n s, seq s n = List.map (Nat.add s) (seq 0 n).
Proof.
  induction n as [| n IH]; intros s.
  - reflexivity.
  - cbn [seq List.map]. rewrite Nat.add_0_r. f_equal.
    rewrite (IH (S s)), (IH 1), map_map.
    apply map_ext. intro r. lia.
Qed.

Lemma sum_list_seq_mul : forall (F : nat -> R) a m,
  sum_list (List.map F (seq 0 (a * m)))
  = sum_list
      (List.map (fun p => sum_list
                            (List.map (fun r => F (p * m + r)) (seq 0 m)))
                (seq 0 a)).
Proof.
  intros F a m. induction a as [| a IH].
  - reflexivity.
  - rewrite Nat.mul_succ_l, seq_app, map_app, sum_list_app, IH.
    rewrite seq_S, map_app, sum_list_app. f_equal.
    cbn [List.map Nat.add].
    rewrite (seq_add_map m (a * m)), map_map.
    unfold sum_list at 2. cbn [fold_right]. rewrite Rplus_0_r.
    reflexivity.
Qed.

Lemma sum_tabulate_cons : forall (f : list nat -> R) a sh,
  sum_list (List.map (fun n => f (unravel (a :: sh) n))
                     (seq 0 (numel (a :: sh))))
  = sum_list
      (List.map (fun p => sum_list
                            (List.map (fun r => f (p :: unravel sh r))
                                      (seq 0 (numel sh))))
                (seq 0 a)).
Proof.
  intros f a sh. change (numel (a :: sh)) with (a * numel sh).
  rewrite sum_list_seq_mul.
  apply sum_list_ext. intros p _.
  apply sum_list_ext. intros r Hr. apply in_seq in Hr.
  cbn [unravel]. f_equal. f_equal.
  - rewrite Nat.div_add_l by lia. rewrite Nat.div_small by lia. lia.
  - rewrite Nat.add_comm, Nat.Div0.mod_add, Nat.mod_small by lia.
    reflexivity.
Qed.

(** [t.sum()] of a four-dimensional tensor adds up its entries. *)
Lemma sum_all_4 : forall (t : tensor R) B C H W,
  wf t -> size t = [B; C; H; W] ->
  sum_all t
  = sum_list (List.map (fun b =>
      sum_list (List.map (fun c =>
        sum_list (List.map (fun i =>
          sum_list (List.map (fun j => get t [b; c; i; j]) (seq 0 W)))
          (seq 0 H)))
        (seq 0 C)))
      (seq 0 B)).
Proof.
  intros t B C H W Hwf Hs.
  assert (Ht : sum_all t = sum_all (tabulate (size t) (get t)))
    by (rewrite tabulate_get by exact Hwf; reflexivity).
  rewrite Ht. unfold sum_all, tabulate. cbn [data]. rewrite Hs.
  rewrite (sum_tabulate_cons (get t)).
  apply sum_list_ext. intros b _.
  rewrite (sum_tabulate_cons (fun idx => get t (b :: idx))).
  apply sum_list_ext. intros c _.
  rewrite (sum_tabulate_cons (fun idx => get t (b :: c :: idx))).
  apply sum_list_ext. intros i _.
  rewrite (sum_tabulate_cons (fun idx => get t (b :: c :: i :: idx))).
  apply sum_list_ext. intros j _.
  cbn [numel fold_right seq List.map unravel]. unfold sum_list.
  cbn [fold_right]. apply Rplus_0_r.
Qed.

(** The sum that the affine coupling adds to the objective. *)
Lemma sum_log_scale : forall (h : tensor R) B k H W,
  size h = [B; 2 * k; H; W] ->
  sum_all (pointwise ln (scale_tensor h k))
  = sum_list (List.map (fun b =>
      sum_list (List.map (fun c =>
        sum_list (List.map (fun i =>
          sum_list (List.map (fun j =>
            ln (sigmoid (get h [b; 2 * c + 1; i; j] + 2))) (seq 0 W)))
          (seq 0 H)))
        (seq 0 k)))
      (seq 0 B)).
Proof.
  intros h B k H W Hh.
  assert (Hwf : wf (scale_tensor h k)).
  { unfold scale_tensor. apply wf_pointwise, wf_pointwise, wf_tabulate. }
  rewrite (sum_all_4 _ B k H W).
  - apply sum_list_ext. intros b Hb. apply in_seq in Hb.
    apply sum_list_ext. intros c Hc. apply in_seq in Hc.
    apply sum_list_ext. intros i Hi. apply in_seq in Hi.
    apply sum_list_ext. intros j Hj. apply in_seq in Hj.
    rewrite get_pointwise.
    + rewrite (get_scale_tensor h B k H W Hh) by lia. reflexivity.
    + exact Hwf.
    + rewrite (size_scale_tensor h B k H W Hh). solve_range.
  - apply wf_pointwise. exact Hwf.
  - cbn [pointwise size]. apply (size_scale_tensor h B k H W Hh).
Qed.

(** C4. For every array [x] with an even number [2k] of channels,
    [AffineCoupling.forward_and_jacobian] keeps the first [k] channels
    [z1], takes [h = NN(z1)], reads the shift from the even channels of [h]
    and the scale as [sigmoid(h_odd + 2)] from the odd ones (channel [c] of
    the shift is channel [2c] of [h], channel [c] of the scale comes from
    channel [2c + 1]), returns [z1] followed by [(z2 + shift) * scale], and
    returns an objective of the size of the one given, every entry of
    which is the entry given plus the sum of [log(scale)] over all batch
    entries, channels and positions; [reverse_and_jacobian] returns [z1]
    followed by [z2 / scale - shift] and an objective every entry of
    which is the entry given minus the same sum. *)
Theorem AffineCoupling_spec :
  forall (E : Collaborators) (self : AffineCoupling.t) (x h : tensor R)
         (B k H W : nat) (objective : objective_t),
    size x = [B; 2 * k; H; W] ->
    AffineCoupling.NN self (channels x 0 k) = Ok h ->
    size h = [B; 2 * k; H; W] ->
    wf objective ->
    let shift b c i j := get h [b; 2 * c; i; j] in
    let scale b c i j := sigmoid (get h [b; 2 * c + 1; i; j] + 2) in
    let total n (F : nat -> R) :=
      fold_right Rplus 0%R (List.map F (seq 0 n)) in
    let log_scale :=
      total B (fun b => total k (fun c => total H (fun i => total W (fun j =>
        ln (scale b c i j))))) in
    (size (scale_tensor h k) = [B; k; H; W]
     /\ forall b c i j, b < B -> c < k -> i < H -> j < W ->
          get (scale_tensor h k) [b; c; i; j] = scale b c i j)
    /\ (exists y o',
          forward_and_jacobian E (LAffineCoupling self) (Some x) objective
          = Ok (Some y, o')
          /\ size y = [B; 2 * k; H; W]
          /\ (forall b c i j, b < B -> c < 2 * k -> i < H -> j < W ->
                get y [b; c; i; j]
                = if c <? k then get x [b; c; i; j]
                  else ((get x [b; c; i; j] + shift b (c - k)%nat i j)
                        * scale b (c - k)%nat i j)%R)
          /\ size o' = size objective
          /\ forall idx, in_range (size objective) idx ->
                         get o' idx = (get objective idx + log_scale)%R)
    /\ (exists y o',
          reverse_and_jacobian E (LAffineCoupling self) (Some x) objective
          = Ok (Some y, o')
          /\ size y = [B; 2 * k; H; W]
          /\ (forall b c i j, b < B -> c < 2 * k -> i < H -> j < W ->
                get y [b; c; i; j]
                = if c <? k then get x [b; c; i; j]
                  else (get x [b; c; i; j] / scale b (c - k)%nat i j
                        - shift b (c - k)%nat i j)%R)
          /\ size o' = size objective
          /\ forall idx, in_range (size objective) idx ->
                         get o' idx = (get objective idx - log_scale)%R).
Proof.
  intros E self x h B k H W o Hx HNN Hh Hwf shift scale total log_scale.
  assert (Hq : sum_all (pointwise ln (scale_tensor h k)) = log_scale)
    by apply (sum_log_scale h B k H W Hh).
  split; [| split].
  - split.
    + apply (size_scale_tensor h B k H W Hh).
    + intros. apply (get_scale_tensor h B k H W Hh); assumption.
  - destruct (iadd_entries o log_scale Hwf) as [Hso Hgo].
    eexists. exists (iadd o log_scale).
    split; [| split; [| split; [| split]]].
    + rewrite <- Hq.
      apply (affine_forward_value E self x h B k H W o Hx HNN Hh).
    + apply (size_splice B (2 * k) H W x Hx).
    + intros b c i j Hb Hc Hi Hj.
      rewrite (get_coupled x B k H W Hx) by assumption.
      destruct (Nat.ltb_spec c k); [reflexivity |].
      rewrite get_zip_with
        by (rewrite (size_second_half_op x B k H W Hx); solve_range).
      rewrite get_zip_with
        by (rewrite (size_channels B (2 * k) H W x Hx); solve_range).
      rewrite (get_second_half x B k H W Hx) by lia.
      rewrite (get_shift_tensor h B k H W Hh) by lia.
      rewrite (get_scale_tensor h B k H W Hh) by lia.
      reflexivity.
    + exact Hso.
    + exact Hgo.
  - destruct (isub_entries o log_scale Hwf) as [Hso Hgo].
    eexists. exists (isub o log_scale).
    split; [| split; [| split; [| split]]].
    + rewrite <- Hq.
      apply (affine_reverse_value E self x h B k H W o Hx HNN Hh).
    + apply (size_splice B (2 * k) H W x Hx).
    + intros b c i j Hb Hc Hi Hj.
      rewrite (get_coupled x B k H W Hx) by assumption.
      destruct (Nat.ltb_spec c k); [reflexivity |].
      rewrite get_zip_with
        by (rewrite (size_second_half_op x B k H W Hx); solve_range).
      rewrite get_zip_with
        by (rewrite (size_channels B (2 * k) H W x Hx); solve_range).
      rewrite (get_second_half x B k H W Hx) by lia.
      rewrite (get_shift_tensor h B k H W Hh) by lia.
      rewrite (get_scale_tensor h B k H W Hh) by lia.
      reflexivity.
    + exact Hso.
    + exact Hgo.
Qed.

(** C4, at a network that returns ones, on the array of zeros and the
    objective zero: forward leaves [(0 + 1) * sigmoid(1 + 2)] in the
    second channel and [log(sigmoid(1 + 2))] in the objective, reverse
    leaves [0 / sigmoid(1 + 2) - 1] and the opposite. *)
Lemma AffineCoupling_spec_witness :
  (exists y o',
      forward_and_jacobian example_collaborators
        (LAffineCoupling example_affine) (Some example_x) (scalar 0%R)
      = Ok (Some y, o')
      /\ get y [0; 1; 0; 0] = ((0 + 1) * sigmoid (1 + 2))%R
      /\ get o' [] = ln (sigmoid (1 + 2)))
  /\ (exists y o',
        reverse_and_jacobian example_collaborators
          (LAffineCoupling example_affine) (Some example_x) (scalar 0%R)
        = Ok (Some y, o')
        /\ get y [0; 1; 0; 0] = (0 / sigmoid (1 + 2) - 1)%R
        /\ get o' [] = (- ln (sigmoid (1 + 2)))%R).
Proof.
  destruct (AffineCoupling_spec example_collaborators example_affine
              example_x (full [1; 2; 1; 1] 1%R) 1 1 1 1 (scalar 0%R)
              eq_refl eq_refl eq_refl eq_refl)
    as (_ & (y & o' & Hf & _ & Hy & _ & Ho)
          & (y' & o'' & Hr & _ & Hy' & _ & Ho')).
  split.
  - exists y, o'. split; [exact Hf | split].
    + rewrite (Hy 0 1 0 0) by lia. reflexivity.
    + rewrite (Ho []) by constructor.
      cbn [seq List.map fold_right].
      replace (get (full [1; 2; 1; 1] 1%R) [0; 2 * 0 + 1; 0; 0]) with 1%R
        by reflexivity.
      replace (get (scalar 0%R) []) with 0%R by reflexivity.
      rewrite !Rplus_0_r, ?Rplus_0_l, ?Rminus_0_l. reflexivity.
  - exists y', o''. split; [exact Hr | split].
    + rewrite (Hy' 0 1 0 0) by lia. reflexivity.
    + rewrite (Ho' []) by constructor.
      cbn [seq List.map fold_right].
      replace (get (full [1; 2; 1; 1] 1%R) [0; 2 * 0 + 1; 0; 0]) with 1%R
        by reflexivity.
      replace (get (scalar 0%R) []) with 0%R by reflexivity.
      rewrite !Rplus_0_r, ?Rplus_0_l, ?Rminus_0_l. reflexivity.
Defined.

(* ------------------------------------------------------------------ *)
(** * What the coupling layers leave in the caller's array *)

Lemma length_store_set_nth : forall {T} n (v : T) (l : list T),
  length (Store.set_nth n v l) = length l.
Proof.
  intros T n v l. revert n.
  induction l as [| a l IH]; intros [| n]; simpl; try reflexivity.
  rewrite IH. reflexivity.
Qed.

Lemma in_range4_bounds : forall a b c d i j k l,
  in_range [a; b; c; d] [i; j; k; l] -> i < a /\ j < b /\ k < c /\ l < d.
Proof.
  intros a b c d i j k l Hr.
  destruct (in_range4_inv a b c d _ Hr) as (i' & j' & k' & l' & He & Hb).
  injection He as -> -> -> ->. exact Hb.
Qed.

Section InPlace.
Variables (s : Store.store) (l : Store.loc) (X : tensor R).
Variables (B k H W : nat).
Hypothesis Hl : nth_error s l = Some X.
Hypothesis X_size : size X = [B; 2 * k; H; W].

(** What the store-level descriptions of the four methods have in
    common. *)
Lemma in_place_from_store :
  forall (method : Store.tref -> Store.M (tensor R * objective_t))
         v (o o' : objective_t) z2' dq,
    method (Store.ref l None) s
    = Ok ((Store.splice X k k v, o'),
          Store.set_nth l (Store.splice X k k v) s) ->
    (forall b c i j, b < B -> c < k -> i < H -> j < W ->
       get v [b; c; i; j] = z2' b c i j) ->
    size o' = size o ->
    (forall idx, in_range (size o) idx ->
                 get o' idx = (get o idx + dq)%R) ->
    updates_input_in_place method s l X k z2' o dq.
Proof.
  intros method v o o' z2' dq Hm Hv Hso Hgo.
  exists (Store.splice X k k v), o',
         (Store.set_nth l (Store.splice X k k v) s).
  split; [exact Hm |].
  split; [apply (nth_error_set_nth s l _ X Hl) |].
  split; [rewrite X_size; apply (size_splice B (2 * k) H W X X_size) |].
  split.
  { intros b c i j Hr. rewrite X_size in Hr.
    apply in_range4_bounds in Hr. destruct Hr as (Hb & Hc & Hi & Hj).
    rewrite (get_coupled X B k H W X_size) by assumption.
    destruct (Nat.ltb_spec c k); [reflexivity |].
    apply Hv; lia. }
  split; [apply length_store_set_nth |].
  split; [intros l' Hne; apply nth_error_set_nth_other; exact Hne |].
  split; [exact Hso | exact Hgo].
Qed.

(** The entries of the second half after an operation with a second
    operand of the same size. *)
Lemma get_second_half_op : forall f v b c i j,
  size v = [B; k; H; W] ->
  b < B -> c < k -> i < H -> j < W ->
  get (zip_with f (channels X k k) v) [b; c; i; j]
  = f (get X [b; k + c; i; j]) (get v [b; c; i; j]).
Proof.
  intros f v b c i j Hv Hb Hc Hi Hj.
  rewrite get_zip_with
    by (rewrite (size_channels B (2 * k) H W X X_size); solve_range).
  rewrite (get_channels B (2 * k) H W X X_size) by assumption.
  reflexivity.
Qed.

End InPlace.

(** C10 (amended). The coupling layers update the caller's array in
    place.  For every array [x] with an even number [2k] of channels that
    is a whole allocation of the store, each of [forward_and_jacobian] and
    [reverse_and_jacobian] of [AdditiveCoupling] and of [AffineCoupling]
    returns an array [y] and leaves exactly the content of [y] in [x]:
    the first [k] channels are those of [x] before the call, and channel
    [k + c] holds the transformed second half, [z2 + h] and [z2 - h] for
    the additive coupling with [h = NN(z1)], [(z2 + shift) * scale] and
    [z2 / scale - shift] for the affine coupling.  The store has as many
    allocations as before and no allocation other than [x] changes.  The
    objective is not an allocation of the store but a value: the additive
    coupling returns the one it is given, the affine coupling the one it
    is given plus, respectively minus, the sum of [log(scale)] at every
    entry. *)
Theorem coupling_updates_input_in_place :
  forall (additive : AdditiveCoupling.t) (affine : AffineCoupling.t)
         (s : Store.store) (l : Store.loc) (x h h' : tensor R)
         (B k H W : nat) (objective : objective_t),
    nth_error s l = Some x ->
    size x = [B; 2 * k; H; W] ->
    AdditiveCoupling.NN additive (channels x 0 k) = Ok h ->
    size h = [B; k; H; W] ->
    AffineCoupling.NN affine (channels x 0 k) = Ok h' ->
    size h' = [B; 2 * k; H; W] ->
    wf objective ->
    let z2 b c i j := get x [b; k + c; i; j] in
    let shift b c i j := get h' [b; 2 * c; i; j] in
    let scale b c i j := sigmoid (get h' [b; 2 * c + 1; i; j] + 2) in
    let total n (F : nat -> R) :=
      fold_right Rplus 0%R (List.map F (seq 0 n)) in
    let log_scale :=
      total B (fun b => total k (fun c => total H (fun i => total W (fun j =>
        ln (scale b c i j))))) in
    updates_input_in_place
      (fun r => AdditiveCoupling.forward_and_jacobian additive r objective)
      s l x k (fun b c i j => z2 b c i j + get h [b; c; i; j])%R
      objective 0
    /\ updates_input_in_place
         (fun r => AdditiveCoupling.reverse_and_jacobian additive r objective)
         s l x k (fun b c i j => z2 b c i j - get h [b; c; i; j])%R
         objective 0
    /\ updates_input_in_place
         (fun r => AffineCoupling.forward_and_jacobian affine r objective)
         s l x k
         (fun b c i j => (z2 b c i j + shift b c i j) * scale b c i j)%R
         objective log_scale
    /\ updates_input_in_place
         (fun r => AffineCoupling.reverse_and_jacobian affine r objective)
         s l x k
         (fun b c i j => z2 b c i j / scale b c i j - shift b c i j)%R
         objective (- log_scale).
Proof.
  intros additive affine s l x h h' B k H W o Hl Hx HNN Hh HNN' Hh' Hwf
         z2 shift scale total log_scale.
  assert (Hq : sum_all (pointwise ln (scale_tensor h' k)) = log_scale)
    by apply (sum_log_scale h' B k H W Hh').
  destruct (iadd_entries o log_scale Hwf) as [Hsa Hga].
  destruct (isub_entries o log_scale Hwf) as [Hss Hgs].
  split; [| split; [| split]].
  - eapply (in_place_from_store s l x B k H W Hl Hx).
    + apply (additive_forward_store additive s l x h B k H W o Hl Hx HNN Hh).
    + intros b c i j Hb Hc Hi Hj.
      apply (get_second_half_op x B k H W Hx); assumption.
    + reflexivity.
    + intros idx _. symmetry. apply Rplus_0_r.
  - eapply (in_place_from_store s l x B k H W Hl Hx).
    + apply (additive_reverse_store additive s l x h B k H W o Hl Hx HNN Hh).
    + intros b c i j Hb Hc Hi Hj.
      apply (get_second_half_op x B k H W Hx); assumption.
    + reflexivity.
    + intros idx _. symmetry. apply Rplus_0_r.
  - eapply (in_place_from_store s l x B k H W Hl Hx).
    + rewrite <- Hq.
      apply (affine_forward_store affine s l x h' B k H W o Hl Hx HNN' Hh').
    + intros b c i j Hb Hc Hi Hj.
      rewrite get_zip_with
        by (rewrite (size_second_half_op x B k H W Hx); solve_range).
      rewrite (get_second_half_op x B k H W Hx)
        by (try apply (size_strided_channels h' B k H W Hh'); assumption).
      rewrite (get_shift_tensor h' B k H W Hh') by assumption.
      rewrite (get_scale_tensor h' B k H W Hh') by assumption.
      reflexivity.
    + rewrite Hq. exact Hsa.
    + rewrite Hq. exact Hga.
  - eapply (in_place_from_store s l x B k H W Hl Hx).
    + rewrite <- Hq.
      apply (affine_reverse_store affine s l x h' B k H W o Hl Hx HNN' Hh').
    + intros b c i j Hb Hc Hi Hj.
      rewrite get_zip_with
        by (rewrite (size_second_half_op x B k H W Hx); solve_range).
      rewrite (get_second_half_op x B k H W Hx)
        by (try apply (size_scale_tensor h' B k H W Hh'); assumption).
      rewrite (get_shift_tensor h' B k H W Hh') by assumption.
      rewrite (get_scale_tensor h' B k H W Hh') by assumption.
      reflexivity.
    + rewrite Hq. exact Hss.
    + rewrite Hq. intros idx Hr. rewrite (Hgs idx Hr). lra.
Qed.

(** C10 (amended), at a store that holds the example array of zeros and
    networks that return ones: after the call the second channel of the
    caller's array holds [0 + 1] and [0 - 1] for the additive coupling,
    [(0 + 1) * sigmoid(1 + 2)] and [0 / sigmoid(1 + 2) - 1] for the affine
    coupling, which has added [log(sigmoid(1 + 2))] to the objective,
    respectively subtracted it. *)
Lemma coupling_updates_input_in_place_witness :
  (exists y o' s',
      AdditiveCoupling.forward_and_jacobian example_additive
        (Store.ref 0 None) (scalar 0%R) [example_x] = Ok ((y, o'), s')
      /\ nth_error s' 0 = Some y
      /\ get y [0; 1; 0; 0] = (0 + 1)%R
      /\ get o' [] = 0%R)
  /\ (exists y o' s',
        AdditiveCoupling.reverse_and_jacobian example_additive
          (Store.ref 0 None) (scalar 0%R) [example_x] = Ok ((y, o'), s')
        /\ nth_error s' 0 = Some y
        /\ get y [0; 1; 0; 0] = (0 - 1)%R
        /\ get o' [] = 0%R)
  /\ (exists y o' s',
        AffineCoupling.forward_and_jacobian example_affine
          (Store.ref 0 None) (scalar 0%R) [example_x] = Ok ((y, o'), s')
        /\ nth_error s' 0 = Some y
        /\ get y [0; 1; 0; 0] = ((0 + 1) * sigmoid (1 + 2))%R
        /\ get o' [] = ln (sigmoid (1 + 2)))
  /\ (exists y o' s',
        AffineCoupling.reverse_and_jacobian example_affine
          (Store.ref 0 None) (scalar 0%R) [example_x] = Ok ((y, o'), s')
        /\ nth_error s' 0 = Some y
        /\ get y [0; 1; 0; 0] = (0 / sigmoid (1 + 2) - 1)%R
        /\ get o' [] = (- ln (sigmoid (1 + 2)))%R).
Proof.
  destruct (coupling_updates_input_in_place example_additive example_affine
              [example_x] 0 example_x
              (full [1; 1; 1; 1] 1%R) (full [1; 2; 1; 1] 1%R)
              1 1 1 1 (scalar 0%R)
              eq_refl eq_refl eq_refl eq_refl eq_refl eq_refl eq_refl)
    as ((y & o' & s' & Hm & Hs & _ & Hy & _ & _ & _ & Ho)
        & (y1 & o1 & s1 & Hm1 & Hs1 & _ & Hy1 & _ & _ & _ & Ho1)
        & (y2 & o2 & s2 & Hm2 & Hs2 & _ & Hy2 & _ & _ & _ & Ho2)
        & (y3 & o3 & s3 & Hm3 & Hs3 & _ & Hy3 & _ & _ & _ & Ho3)).
  assert (Hr : in_range (size example_x) [0; 1; 0; 0])
    by (apply in_range4; lia).
  split; [| split; [| split]].
  - exists y, o', s'. split; [exact Hm | split; [exact Hs | split]].
    + rewrite (Hy 0 1 0 0 Hr). reflexivity.
    + rewrite (Ho []) by constructor.
      replace (get (scalar 0%R) []) with 0%R by reflexivity. lra.
  - exists y1, o1, s1. split; [exact Hm1 | split; [exact Hs1 | split]].
    + rewrite (Hy1 0 1 0 0 Hr). reflexivity.
    + rewrite (Ho1 []) by constructor.
      replace (get (scalar 0%R) []) with 0%R by reflexivity. lra.
  - exists y2, o2, s2. split; [exact Hm2 | split; [exact Hs2 | split]].
    + rewrite (Hy2 0 1 0 0 Hr). reflexivity.
    + rewrite (Ho2 []) by constructor.
      cbn [seq List.map fold_right].
      replace (get (full [1; 2; 1; 1] 1%R) [0; 2 * 0 + 1; 0; 0]) with 1%R
        by reflexivity.
      replace (get (scalar 0%R) []) with 0%R by reflexivity.
      rewrite !Rplus_0_r, ?Rplus_0_l. reflexivity.
  - exists y3, o3, s3. split; [exact Hm3 | split; [exact Hs3 | split]].
    + rewrite (Hy3 0 1 0 0 Hr). reflexivity.
    + rewrite (Ho3 []) by constructor.
      cbn [seq List.map fold_right].
      replace (get (full [1; 2; 1; 1] 1%R) [0; 2 * 0 + 1; 0; 0]) with 1%R
        by reflexivity.
      replace (get (scalar 0%R) []) with 0%R by reflexivity.
      rewrite !Rplus_0_r, ?Rplus_0_l. reflexivity.
Defined.

(* ------------------------------------------------------------------ *)
(** * The objective of [BatchNorm] *)

(** X17. The log-determinant of [BatchNorm.forward_and_jacobian].  For
    a layer with [0 < eps] and an array of size [(B, C, H, W)], in
    training mode and outside of it, forward returns an objective of the
    size of the one given, every entry of which is the entry given plus
    the sum over the channels [c] of
    [-1/2 * log(max(var_c, eps)) * B * (H * W)], where [var_c] is the
    biased variance of the values of channel [c] in the batch: the sums
    and square-sums that the method recomputes give exactly the variance
    that batch normalization divides by, clamped at [eps] from below. *)
Theorem BatchNorm_forward_objective :
  forall (self : BatchNorm.t) (x : tensor R) (objective : objective_t)
         (B C H W : nat),
    wf x ->
    size x = [B; C; H; W] ->
    0 < B -> 0 < C -> 0 < H -> 0 < W ->
    size (BatchNorm.running_mean self) = [C] ->
    size (BatchNorm.running_var self) = [C] ->
    (BatchNorm.training self = true -> B * (H * W) <> 1) ->
    (0 < BatchNorm.eps self)%R ->
    wf objective ->
    let log_det :=
      fold_right Rplus 0%R
        (List.map
           (fun c => (- (1 / 2)
                      * ln (Rmax (var_list (channel_values x c))
                                 (BatchNorm.eps self))
                      * INR B * INR (H * W))%R)
           (seq 0 C)) in
    exists y o' self',
      BatchNorm.forward_and_jacobian self x objective = Ok (y, o', self')
      /\ size o' = size objective
      /\ forall idx, in_range (size objective) idx ->
                     get o' idx = (get objective idx + log_det)%R.
Proof.
  intros self x o B C H W Hwf Hx HB HC HH HW Hrm Hrv Htrain Heps Hwfo log_det.
  destruct (BatchNorm_forward_eq self x o B C H W Hwf Hx HB HC HH HW
              Hrm Hrv Htrain) as (y & self' & Hf).
  destruct (iadd_entries o log_det Hwfo) as [Hso Hgo].
  exists y, (iadd o log_det), self'.
  split; [exact Hf | split; [exact Hso | exact Hgo]].
Qed.

Lemma var_list_pair : forall a b : R,
  var_list [a; b] = ((a - b) * (a - b) / 4)%R.
Proof.
  intros a b. unfold var_list, mean_list, sum_list.
  cbn [List.map fold_right length]. simpl INR. field.
Qed.

(** X17, at a fresh layer on two channels and a batch of two arrays with
    one position: the first channel holds 0 and 4 (variance 4), the
    second 1 and 1 (variance 0, clamped at [eps = 1/100000]). *)
Lemma BatchNorm_forward_objective_witness :
  exists y o' self',
    BatchNorm.forward_and_jacobian example_batchnorm example_spread_batch
      (scalar 0%R) = Ok (y, o', self')
    /\ get o' [] = (- ln 4 - ln (1 / 100000))%R.
Proof.
  assert (Heps : (0 < BatchNorm.eps example_batchnorm)%R)
    by (cbn [example_batchnorm BatchNorm.eps]; lra).
  destruct (BatchNorm_forward_objective example_batchnorm
              example_spread_batch (scalar 0%R) 2 2 1 1
              eq_refl eq_refl (le_S 1 1 (le_n 1)) (le_S 1 1 (le_n 1))
              (le_n 1) (le_n 1) eq_refl eq_refl
              (fun _ => Nat.neq_succ_diag_l 1) Heps eq_refl)
    as (y & o' & self' & Hf & _ & Ho).
  exists y, o', self'. split; [exact Hf |].
  rewrite (Ho []) by constructor.
  cbn [seq List.map fold_right example_batchnorm BatchNorm.eps].
  replace (channel_values example_spread_batch 0) with [0%R; 4%R]
    by reflexivity.
  replace (channel_values example_spread_batch 1) with [1%R; 1%R]
    by reflexivity.
  rewrite !var_list_pair.
  replace (get (scalar 0%R) []) with 0%R by reflexivity.
  rewrite Rmax_left by lra. rewrite Rmax_right by lra.
  replace ((0 - 4) * (0 - 4) / 4)%R with 4%R by lra.
  simpl INR. lra.
Defined.
